(** * nikke-sim-room: the buff aggregate, the damage formula and the two
      timeline sweeps of [nikke/nikke_dmg.py], embedded in Rocq.

    Numbers.  The control flow, the exceptions and the formulas of the
    source are studied on exact rationals [Q], with results compared up to
    [Qeq] ([==]): what is stated there is a comparison, a sign, an index
    or the formula of a value, none of which rounding moves.  Whether
    values are restored, coincide or cancel is a matter of rounding; that is
    settled in the module [Double], which runs the aggregate and the blend
    on IEEE-754 binary64 numbers (Rocq's primitive floats).  The two
    infinities that the source uses as window bounds ([-math.inf],
    [math.inf]) are the extra constructors of [Instant].  NaN never arises
    on the paths of the rational model (the source guards the only
    [inf - inf] with [math.isinf]).

    Exceptions.  A function that can raise returns [Result]. *)

From Stdlib Require Import QArith Qminmax ZArith List String Bool Lia Lqa.
From Stdlib Require Import Permutation Sorted Setoid Morphisms.
From Stdlib Require Import SetoidList SetoidPermutation.
From Stdlib Require Floats.
Import PrimFloat FloatOps SpecFloat FloatAxioms.
Import ListNotations.

Open Scope Q_scope.

(* ------------------------------------------------------------------ *)
(** ** Exceptions *)

Inductive Exn : Type :=
| KeyError | IndexError | ValueError | ZeroDivisionError | OverflowError.

Inductive Result (A : Type) : Type :=
| Ok (a : A)
| Raise (e : Exn).

Arguments Ok {A} a.
Arguments Raise {A} e.

Definition bind {A B : Type} (r : Result A) (k : A -> Result B) : Result B :=
  match r with
  | Ok a => k a
  | Raise e => Raise e
  end.

Notation "x <- r ;; k" := (bind r (fun x => k))
  (at level 61, r at next level, right associativity).

Definition raises {A : Type} (r : Result A) : Prop := exists e, r = Raise e.

(* ------------------------------------------------------------------ *)
(** ** Float comparisons on [Q] and on extended times *)

Definition Qlt_bool (a b : Q) : bool := negb (Qle_bool b a).

Inductive Instant : Type :=
| NegInf
| Fin (q : Q)
| PosInf.

(** [math.isinf] *)
Definition isinf (t : Instant) : bool :=
  match t with
  | Fin _ => false
  | _ => true
  end.

(** [a <= b] *)
Definition Tleb (a b : Instant) : bool :=
  match a, b with
  | NegInf, _ => true
  | _, PosInf => true
  | Fin x, Fin y => Qle_bool x y
  | _, _ => false
  end.

(** [a < b] *)
Definition Tltb (a b : Instant) : bool :=
  match a, b with
  | PosInf, _ => false
  | _, NegInf => false
  | Fin x, Fin y => Qlt_bool x y
  | _, _ => true
  end.

(** [a >= b] and [a > b], as the source writes them *)
Definition Tgeb (a b : Instant) : bool := Tleb b a.
Definition Tgtb (a b : Instant) : bool := Tltb b a.

(** [a == b] on floats *)
Definition Teqb (a b : Instant) : bool :=
  match a, b with
  | NegInf, NegInf => true
  | PosInf, PosInf => true
  | Fin x, Fin y => Qeq_bool x y
  | _, _ => false
  end.

(** [t + d] for a finite [d] *)
Definition Tadd (t : Instant) (d : Q) : Instant :=
  match t with
  | Fin x => Fin (x + d)
  | other => other
  end.

(** Python's [min(a, b)]: [b] when [b < a], else [a]. *)
Definition Tmin (a b : Instant) : Instant := if Tltb b a then b else a.

(** Python's [max(a, b)]: [b] when [b > a], else [a]. *)
Definition Tmax (a b : Instant) : Instant := if Tltb a b then b else a.

(** [a - b]; the result is never [+inf] where the sweeps use it, and the
    two NaN cases ([inf - inf], [-inf - -inf]) are unreachable there: the
    minuend is a [min] with a finite time, the subtrahend a [max] with one. *)
Definition Tsub (a b : Instant) : Instant :=
  match a, b with
  | Fin x, Fin y => Fin (x - y)
  | NegInf, _ => NegInf
  | _, PosInf => NegInf
  | PosInf, _ => PosInf
  | Fin _, NegInf => PosInf
  end.

(* ------------------------------------------------------------------ *)
(** ** Buff records

    A buff is a Python dict.  [start] and [end] are read with
    [buff['start']], [buff['end']] by the sweeps; every other key is tested
    with [in], so it is an [option].  The four override flags hold either a
    Python [int], a [bool] (a subclass of [int]: [True] is 1, [False] is 0)
    or some other value. *)

Inductive PyVal : Type :=
| PyInt (z : Z)
| PyBool (b : bool)
| PyOther.

Module Buff.

Record t : Type := mk {
  start : Instant;
  end_ : Instant;
  stacks : option Z;
  attack : option Q;
  charge_dmg : option Q;
  full_charge_dmg : option Q;
  damage_taken : option Q;
  element_dmg : option Q;
  damage_up : option Q;
  defense : option Q;
  flat_atk : option Q;
  crit_rate : option Q;
  crit_dmg : option Q;
  core_dmg : option Q;
  range_dmg : option Q;
  full_burst_dmg : option Q;
  core_hit : option PyVal;
  range_bonus : option PyVal;
  full_burst : option PyVal;
  element_bonus : option PyVal
}.

(** A dict holding only [start] and [end]. *)
Definition window (s e : Instant) : t :=
  mk s e None None None None None None None None None None None None None
     None None None None None.

(** [int(buff.get('stacks', 1))] *)
Definition get_stacks (buff : t) : Z :=
  match stacks buff with
  | Some n => n
  | None => 1%Z
  end.

End Buff.

(** [val if isinstance(val, int) else 1] *)
Definition flag_amount (val : PyVal) : Z :=
  match val with
  | PyInt z => z
  | PyBool b => if b then 1%Z else 0%Z
  | PyOther => 1%Z
  end.

(** [if key in buff: body], for one key of the dict. *)
Definition if_in {A S : Type} (key : option A) (body : A -> S -> S) (self : S) : S :=
  match key with
  | Some v => body v self
  | None => self
  end.

(* ------------------------------------------------------------------ *)
(** ** The aggregate: [NIKKE.ModifierCache] *)

Module ModifierCache.

Record t : Type := mk {
  attack : Q;
  charge_dmg : Q;
  damage_taken : Q;
  element_dmg : Q;
  damage_up : Q;
  defense : Q;
  flat_atk : Q;
  crit_rate : Q;
  crit_dmg : Q;
  core_dmg : Q;
  range_dmg : Q;
  full_burst_dmg : Q;
  core_hit : Z;
  range_bonus : Z;
  full_burst : Z;
  element_bonus : Z
}.

(** Attribute assignment [self.f = v], one setter per attribute that the
    class ever assigns after construction. *)
Definition set_attack (self : t) (v : Q) : t :=
  mk v (charge_dmg self) (damage_taken self) (element_dmg self) (damage_up self)
     (defense self) (flat_atk self) (crit_rate self) (crit_dmg self) (core_dmg self)
     (range_dmg self) (full_burst_dmg self) (core_hit self) (range_bonus self)
     (full_burst self) (element_bonus self).

Definition set_charge_dmg (self : t) (v : Q) : t :=
  mk (attack self) v (damage_taken self) (element_dmg self) (damage_up self)
     (defense self) (flat_atk self) (crit_rate self) (crit_dmg self) (core_dmg self)
     (range_dmg self) (full_burst_dmg self) (core_hit self) (range_bonus self)
     (full_burst self) (element_bonus self).

Definition set_damage_taken (self : t) (v : Q) : t :=
  mk (attack self) (charge_dmg self) v (element_dmg self) (damage_up self)
     (defense self) (flat_atk self) (crit_rate self) (crit_dmg self) (core_dmg self)
     (range_dmg self) (full_burst_dmg self) (core_hit self) (range_bonus self)
     (full_burst self) (element_bonus self).

Definition set_element_dmg (self : t) (v : Q) : t :=
  mk (attack self) (charge_dmg self) (damage_taken self) v (damage_up self)
     (defense self) (flat_atk self) (crit_rate self) (crit_dmg self) (core_dmg self)
     (range_dmg self) (full_burst_dmg self) (core_hit self) (range_bonus self)
     (full_burst self) (element_bonus self).

Definition set_damage_up (self : t) (v : Q) : t :=
  mk (attack self) (charge_dmg self) (damage_taken self) (element_dmg self) v
     (defense self) (flat_atk self) (crit_rate self) (crit_dmg self) (core_dmg self)
     (range_dmg self) (full_burst_dmg self) (core_hit self) (range_bonus self)
     (full_burst self) (element_bonus self).

Definition set_defense (self : t) (v : Q) : t :=
  mk (attack self) (charge_dmg self) (damage_taken self) (element_dmg self)
     (damage_up self) v (flat_atk self) (crit_rate self) (crit_dmg self)
     (core_dmg self) (range_dmg self) (full_burst_dmg self) (core_hit self)
     (range_bonus self) (full_burst self) (element_bonus self).

Definition set_flat_atk (self : t) (v : Q) : t :=
  mk (attack self) (charge_dmg self) (damage_taken self) (element_dmg self)
     (damage_up self) (defense self) v (crit_rate self) (crit_dmg self)
     (core_dmg self) (range_dmg self) (full_burst_dmg self) (core_hit self)
     (range_bonus self) (full_burst self) (element_bonus self).

Definition set_crit_rate (self : t) (v : Q) : t :=
  mk (attack self) (charge_dmg self) (damage_taken self) (element_dmg self)
     (damage_up self) (defense self) (flat_atk self) v (crit_dmg self)
     (core_dmg self) (range_dmg self) (full_burst_dmg self) (core_hit self)
     (range_bonus self) (full_burst self) (element_bonus self).

Definition set_crit_dmg (self : t) (v : Q) : t :=
  mk (attack self) (charge_dmg self) (damage_taken self) (element_dmg self)
     (damage_up self) (defense self) (flat_atk self) (crit_rate self) v
     (core_dmg self) (range_dmg self) (full_burst_dmg self) (core_hit self)
     (range_bonus self) (full_burst self) (element_bonus self).

Definition set_core_hit (self : t) (v : Z) : t :=
  mk (attack self) (charge_dmg self) (damage_taken self) (element_dmg self)
     (damage_up self) (defense self) (flat_atk self) (crit_rate self)
     (crit_dmg self) (core_dmg self) (range_dmg self) (full_burst_dmg self) v
     (range_bonus self) (full_burst self) (element_bonus self).

Definition set_range_bonus (self : t) (v : Z) : t :=
  mk (attack self) (charge_dmg self) (damage_taken self) (element_dmg self)
     (damage_up self) (defense self) (flat_atk self) (crit_rate self)
     (crit_dmg self) (core_dmg self) (range_dmg self) (full_burst_dmg self)
     (core_hit self) v (full_burst self) (element_bonus self).

Definition set_full_burst (self : t) (v : Z) : t :=
  mk (attack self) (charge_dmg self) (damage_taken self) (element_dmg self)
     (damage_up self) (defense self) (flat_atk self) (crit_rate self)
     (crit_dmg self) (core_dmg self) (range_dmg self) (full_burst_dmg self)
     (core_hit self) (range_bonus self) v (element_bonus self).

Definition set_element_bonus (self : t) (v : Z) : t :=
  mk (attack self) (charge_dmg self) (damage_taken self) (element_dmg self)
     (damage_up self) (defense self) (flat_atk self) (crit_rate self)
     (crit_dmg self) (core_dmg self) (range_dmg self) (full_burst_dmg self)
     (core_hit self) (range_bonus self) (full_burst self) v.

(** [add_buff]: the guarded in-place updates, in source order.  Note that
    the keys [core_dmg], [range_dmg] and [full_burst_dmg] update
    [self.crit_dmg], as the source does. *)
Definition add_buff (self : t) (buff : Buff.t) : t :=
  let stacks := inject_Z (Buff.get_stacks buff) in
  let self := if_in (Buff.attack buff)
    (fun v self => set_attack self (attack self + v * stacks)) self in
  let self := if_in (Buff.charge_dmg buff)
    (fun v self => set_charge_dmg self (charge_dmg self + v * stacks)) self in
  let self := if_in (Buff.full_charge_dmg buff)
    (fun v self => set_charge_dmg self (charge_dmg self + (v - 100) * stacks)) self in
  let self := if_in (Buff.damage_taken buff)
    (fun v self => set_damage_taken self (damage_taken self + v * stacks)) self in
  let self := if_in (Buff.element_dmg buff)
    (fun v self => set_element_dmg self (element_dmg self + v * stacks)) self in
  let self := if_in (Buff.damage_up buff)
    (fun v self => set_damage_up self (damage_up self + v * stacks)) self in
  let self := if_in (Buff.defense buff)
    (fun v self => set_defense self (defense self + v * stacks)) self in
  let self := if_in (Buff.flat_atk buff)
    (fun v self => set_flat_atk self (flat_atk self + v * stacks)) self in
  let self := if_in (Buff.crit_rate buff)
    (fun v self => set_crit_rate self (crit_rate self + v * stacks)) self in
  let self := if_in (Buff.crit_dmg buff)
    (fun v self => set_crit_dmg self (crit_dmg self + v * stacks)) self in
  let self := if_in (Buff.core_dmg buff)
    (fun v self => set_crit_dmg self (crit_dmg self + v * stacks)) self in
  let self := if_in (Buff.range_dmg buff)
    (fun v self => set_crit_dmg self (crit_dmg self + v * stacks)) self in
  let self := if_in (Buff.full_burst_dmg buff)
    (fun v self => set_crit_dmg self (crit_dmg self + v * stacks)) self in
  let self := if_in (Buff.core_hit buff)
    (fun val self => set_core_hit self (core_hit self + flag_amount val)%Z) self in
  let self := if_in (Buff.range_bonus buff)
    (fun val self => set_range_bonus self (range_bonus self + flag_amount val)%Z) self in
  let self := if_in (Buff.full_burst buff)
    (fun val self => set_full_burst self (full_burst self + flag_amount val)%Z) self in
  let self := if_in (Buff.element_bonus buff)
    (fun val self => set_element_bonus self (element_bonus self + flag_amount val)%Z) self in
  self.

(** [remove_buff]: the same updates with [-=]. *)
Definition remove_buff (self : t) (buff : Buff.t) : t :=
  let stacks := inject_Z (Buff.get_stacks buff) in
  let self := if_in (Buff.attack buff)
    (fun v self => set_attack self (attack self - v * stacks)) self in
  let self := if_in (Buff.charge_dmg buff)
    (fun v self => set_charge_dmg self (charge_dmg self - v * stacks)) self in
  let self := if_in (Buff.full_charge_dmg buff)
    (fun v self => set_charge_dmg self (charge_dmg self - (v - 100) * stacks)) self in
  let self := if_in (Buff.damage_taken buff)
    (fun v self => set_damage_taken self (damage_taken self - v * stacks)) self in
  let self := if_in (Buff.element_dmg buff)
    (fun v self => set_element_dmg self (element_dmg self - v * stacks)) self in
  let self := if_in (Buff.damage_up buff)
    (fun v self => set_damage_up self (damage_up self - v * stacks)) self in
  let self := if_in (Buff.defense buff)
    (fun v self => set_defense self (defense self - v * stacks)) self in
  let self := if_in (Buff.flat_atk buff)
    (fun v self => set_flat_atk self (flat_atk self - v * stacks)) self in
  let self := if_in (Buff.crit_rate buff)
    (fun v self => set_crit_rate self (crit_rate self - v * stacks)) self in
  let self := if_in (Buff.crit_dmg buff)
    (fun v self => set_crit_dmg self (crit_dmg self - v * stacks)) self in
  let self := if_in (Buff.core_dmg buff)
    (fun v self => set_crit_dmg self (crit_dmg self - v * stacks)) self in
  let self := if_in (Buff.range_dmg buff)
    (fun v self => set_crit_dmg self (crit_dmg self - v * stacks)) self in
  let self := if_in (Buff.full_burst_dmg buff)
    (fun v self => set_crit_dmg self (crit_dmg self - v * stacks)) self in
  let self := if_in (Buff.core_hit buff)
    (fun val self => set_core_hit self (core_hit self - flag_amount val)%Z) self in
  let self := if_in (Buff.range_bonus buff)
    (fun val self => set_range_bonus self (range_bonus self - flag_amount val)%Z) self in
  let self := if_in (Buff.full_burst buff)
    (fun val self => set_full_burst self (full_burst self - flag_amount val)%Z) self in
  let self := if_in (Buff.element_bonus buff)
    (fun val self => set_element_bonus self (element_bonus self - flag_amount val)%Z) self in
  self.

(** [add_buffs(buffs)] on a list: [for buff in buffs: self.add_buff(buff)]. *)
Definition add_buffs (self : t) (buffs : list Buff.t) : t :=
  fold_left add_buff buffs self.

(** [add_buffs(buffs)] when the argument may be [None] (neither a dict nor
    a list: nothing happens). *)
Definition add_buffs_opt (self : t) (buffs : option (list Buff.t)) : t :=
  match buffs with
  | Some l => add_buffs self l
  | None => self
  end.

(** [add_buffs(buffs, start, end)]:
    [for i in range(start, end): self.add_buff(buffs[i])], written with the
    index [i] and the number [n] of indices still to visit. *)
Fixpoint add_buffs_range (self : t) (buffs : list Buff.t) (i n : nat) : Result t :=
  match n with
  | O => Ok self
  | S n' =>
      match nth_error buffs i with
      | None => Raise IndexError
      | Some b => add_buffs_range (add_buff self b) buffs (S i) n'
      end
  end.

(** [remove_buffs(buffs, start, end)] *)
Fixpoint remove_buffs_range (self : t) (buffs : list Buff.t) (i n : nat) : Result t :=
  match n with
  | O => Ok self
  | S n' =>
      match nth_error buffs i with
      | None => Raise IndexError
      | Some b => remove_buffs_range (remove_buff self b) buffs (S i) n'
      end
  end.

End ModifierCache.

(** [NIKKE.generate_cache] with its default crit and bonus baselines. *)
Definition baseline_cache (crit_rate crit_dmg core_dmg range_dmg full_burst_dmg : Q)
  : ModifierCache.t :=
  ModifierCache.mk 100 100 100 110 100 100 0
    crit_rate crit_dmg core_dmg range_dmg full_burst_dmg 0 0 0 0.

Definition generate_cache_with (buffs : list Buff.t)
    (crit_rate crit_dmg core_dmg range_dmg full_burst_dmg : Q) : ModifierCache.t :=
  ModifierCache.add_buffs
    (baseline_cache crit_rate crit_dmg core_dmg range_dmg full_burst_dmg) buffs.

Definition generate_cache (buffs : list Buff.t) : ModifierCache.t :=
  generate_cache_with buffs 15 50 100 30 50.

(* ------------------------------------------------------------------ *)
(** ** The damage formula: [NIKKE.compute_damage] *)

(** Python's [min] and [max] on floats. *)
Definition py_min (a b : Q) : Q := if Qlt_bool b a then b else a.
Definition py_max (a b : Q) : Q := if Qlt_bool a b then b else a.

(** The aggregate that [compute_damage] evaluates: a deep copy of [cache]
    with [buffs] added, or a fresh cache of [buffs]. *)
Definition damage_calc (buffs : list Buff.t) (cache : option ModifierCache.t)
  : ModifierCache.t :=
  match cache with
  | Some c => ModifierCache.add_buffs c buffs
  | None => generate_cache buffs
  end.

(** Lines 436-442: the situational base modifier. *)
Definition base_mod (calc : ModifierCache.t)
    (core_hit range_bonus full_burst : bool) : Q :=
  let base_mod := 1 in
  let base_mod :=
    if core_hit || (0 <? ModifierCache.core_hit calc)%Z
    then base_mod + ModifierCache.core_dmg calc / 100 else base_mod in
  let base_mod :=
    if range_bonus || (0 <? ModifierCache.range_bonus calc)%Z
    then base_mod + inject_Z (ModifierCache.range_bonus calc) / 100 else base_mod in
  let base_mod :=
    if full_burst || (0 <? ModifierCache.full_burst calc)%Z
    then base_mod + ModifierCache.full_burst_dmg calc / 100 else base_mod in
  base_mod.

(** Lines 421-434: the damage before the situational and crit modifiers. *)
Definition base_dmg (damage attack defense : Q) (calc : ModifierCache.t)
    (element_bonus : bool) : Q :=
  let final_atk := attack * ModifierCache.attack calc / 100 in
  let target_def := - defense * ModifierCache.defense calc / 100 in
  let calc := ModifierCache.set_charge_dmg calc (ModifierCache.charge_dmg calc / 100) in
  let calc := ModifierCache.set_damage_taken calc (ModifierCache.damage_taken calc / 100) in
  let calc := ModifierCache.set_element_dmg calc
    (if negb element_bonus && (ModifierCache.element_bonus calc <=? 0)%Z
     then 1 else ModifierCache.element_dmg calc / 100) in
  let calc := ModifierCache.set_damage_up calc (ModifierCache.damage_up calc / 100) in
  (final_atk - target_def + ModifierCache.flat_atk calc)
    * ModifierCache.charge_dmg calc
    * ModifierCache.damage_taken calc
    * ModifierCache.element_dmg calc
    * ModifierCache.damage_up calc
    * damage / 100.

(** The 1x3 array of no-crit, crit and average damage. *)
Definition Dmg3 : Type := (Q * Q * Q)%type.

Definition dmg_base (d : Dmg3) : Q := fst (fst d).
Definition dmg_crit (d : Dmg3) : Q := snd (fst d).
Definition dmg_avg (d : Dmg3) : Q := snd d.

Definition compute_damage (damage attack defense : Q) (buffs : list Buff.t)
    (core_hit range_bonus full_burst element_bonus : bool)
    (cache : option ModifierCache.t) : Dmg3 :=
  let calc := damage_calc buffs cache in
  let base_dmg := base_dmg damage attack defense calc element_bonus in
  let base_mod := base_mod calc core_hit range_bonus full_burst in
  let crit_rate_p := py_min 1 (ModifierCache.crit_rate calc / 100) in
  let crit_dmg_p := py_max 0 (ModifierCache.crit_dmg calc / 100) in
  let crit_mod := base_mod + crit_dmg_p in
  let avg_mod := base_mod * (1 - crit_rate_p) + crit_mod * crit_rate_p in
  (base_dmg * base_mod, base_dmg * crit_mod, base_dmg * avg_mod).

(* ------------------------------------------------------------------ *)
(** ** Tag labels and the outcome matrix *)

Open Scope string_scope.

(** [tag[:-1]] *)
Fixpoint drop_last (s : string) : string :=
  match s with
  | EmptyString => EmptyString
  | String c EmptyString => EmptyString
  | String c rest => String c (drop_last rest)
  end.

Definition get_bonus_tag (core_hit range_bonus full_burst element_bonus : bool)
  : string :=
  let tag := "" in
  let tag := if core_hit then tag ++ "core_" else tag in
  let tag := if range_bonus then tag ++ "range_" else tag in
  let tag := if full_burst then tag ++ "fb_" else tag in
  let tag := if element_bonus then tag ++ "elem_" else tag in
  if negb (String.eqb tag "") then drop_last tag else "base".

(** A Python dict with string keys, in insertion order. *)
Definition Dict (V : Type) : Type := list (string * V).

Fixpoint dict_get {V : Type} (d : Dict V) (k : string) : option V :=
  match d with
  | [] => None
  | (k', v) :: rest => if String.eqb k' k then Some v else dict_get rest k
  end.

(** [d[k] = v]: overwrite in place when the key exists, else append. *)
Fixpoint dict_set {V : Type} (d : Dict V) (k : string) (v : V) : Dict V :=
  match d with
  | [] => [(k, v)]
  | (k', v') :: rest =>
      if String.eqb k' k then (k', v) :: rest else (k', v') :: dict_set rest k v
  end.

Definition dict_keys {V : Type} (d : Dict V) : list string := map fst d.

(** The values stored in the dict that [compute_damage_matrix] returns:
    the 16x3 array under ['matrix'], and one record per tag label. *)
Inductive MatVal : Type :=
| MatArray (rows : list Dmg3)
| MatEntry (index : nat) (base crit avg : Q).

(** [arr[i] = row]; the index is always in range here. *)
Fixpoint set_row (rows : list Dmg3) (i : nat) (row : Dmg3) : list Dmg3 :=
  match rows, i with
  | [], _ => []
  | _ :: rest, O => row :: rest
  | r :: rest, S i' => r :: set_row rest i' row
  end.

(** [ret['matrix'][index] = total_dmg] *)
Definition set_matrix_row (ret : Dict MatVal) (index : nat) (total_dmg : Dmg3)
  : Dict MatVal :=
  match dict_get ret "matrix" with
  | Some (MatArray rows) => dict_set ret "matrix" (MatArray (set_row rows index total_dmg))
  | _ => ret
  end.

Definition flags : list bool := [false; true].

(** [compute_damage_matrix]: returns the dict, and the state in which the
    call leaves the caller's [cache] object ([cache.add_buffs(buffs)]
    mutates it in place). *)
Definition compute_damage_matrix (damage attack defense : Q)
    (buffs : option (list Buff.t)) (cache : option ModifierCache.t)
  : Dict MatVal * option ModifierCache.t :=
  let caller_cache := option_map (fun c => ModifierCache.add_buffs_opt c buffs) cache in
  let cache :=
    match caller_cache with
    | Some c => c
    | None => ModifierCache.add_buffs_opt (generate_cache []) buffs
    end in
  let ret : Dict MatVal := [("matrix", MatArray (repeat (0, 0, 0)%Q 16))] in
  let index := O in
  let '(ret, index) :=
    fold_left (fun st core_hit =>
    fold_left (fun st range_bonus =>
    fold_left (fun st full_burst =>
    fold_left (fun '(ret, index) element_bonus =>
      let tag := get_bonus_tag core_hit range_bonus full_burst element_bonus in
      let total_dmg :=
        compute_damage damage attack defense []
          core_hit range_bonus full_burst element_bonus (Some cache) in
      let ret := dict_set ret tag
        (MatEntry index (dmg_base total_dmg) (dmg_crit total_dmg) (dmg_avg total_dmg)) in
      let ret := set_matrix_row ret index total_dmg in
      (ret, S index))
    flags st) flags st) flags st) flags (ret, index) in
  (ret, caller_cache).

(** [matrix[tag]['avg']] *)
Definition matrix_avg (matrix : Dict MatVal) (tag : string) : Result Q :=
  match dict_get matrix tag with
  | None => Raise KeyError
  | Some (MatArray _) => Raise IndexError
  | Some (MatEntry _ _ _ avg) => Ok avg
  end.

(** The loop of [matrix_avg_dmg] over [tags.items()], on the pair
    [(total_dmg, total_ratio)]. *)
Fixpoint matrix_avg_loop (matrix : Dict MatVal) (tags : Dict Q)
    (total_dmg total_ratio : Q) : Result (Q * Q) :=
  match tags with
  | [] => Ok (total_dmg, total_ratio)
  | (tag, ratio) :: rest =>
      avg <- matrix_avg matrix tag ;;
      matrix_avg_loop matrix rest (total_dmg + avg * ratio)%Q (total_ratio + ratio)%Q
  end.

(** Float division by a divisor that may be zero. *)
Definition py_div (a b : Q) : Result Q :=
  if Qeq_bool b 0 then Raise ZeroDivisionError else Ok (a / b)%Q.

Definition matrix_avg_dmg (matrix : Dict MatVal) (tags : Dict Q) (normalize : bool)
  : Result Q :=
  st <- matrix_avg_loop matrix tags 0%Q 0%Q ;;
  let '(total_dmg, total_ratio) := st in
  if normalize && negb (Qeq_bool total_ratio 0)
  then py_div total_dmg total_ratio
  else Ok total_dmg.

Definition accumulate_avg_dmg (damage attack defense : Q)
    (buffs : option (list Buff.t)) (tags : Dict Q) (normalize : bool)
    (cache : option ModifierCache.t) : Result Q * option ModifierCache.t :=
  let '(matrix, cache) := compute_damage_matrix damage attack defense buffs cache in
  (matrix_avg_dmg matrix tags normalize, cache).

Close Scope string_scope.

(* ------------------------------------------------------------------ *)
(** ** The time point set: [NIKKE.get_unique_times] *)

(** [x in unique_times], with float equality *)
Definition q_in (x : Q) (l : list Q) : bool := existsb (Qeq_bool x) l.

(** One boundary of one buff: appended when it is finite, strictly inside
    the window, and not yet in the list. *)
Definition add_time_point (window_start window_end t : Instant)
    (unique_times : list Q) : list Q :=
  match t with
  | Fin x =>
      if Tltb window_start t && Tltb t window_end && negb (q_in x unique_times)
      then unique_times ++ [x]
      else unique_times
  | _ => unique_times
  end.

Definition get_unique_times (buffs : list Buff.t)
    (window_start window_end : Instant) : list Q :=
  let unique_times := [] in
  let unique_times :=
    match window_start with
    | Fin w => unique_times ++ [w]
    | _ => unique_times
    end in
  let unique_times :=
    match window_end with
    | Fin w => unique_times ++ [w]
    | _ => unique_times
    end in
  fold_left (fun unique_times buff =>
    let unique_times :=
      add_time_point window_start window_end (Buff.start buff) unique_times in
    add_time_point window_start window_end (Buff.end_ buff) unique_times)
    buffs unique_times.

(** [np.sort] on an array of floats. *)
Fixpoint insert_q (x : Q) (l : list Q) : list Q :=
  match l with
  | [] => [x]
  | y :: rest => if Qle_bool x y then x :: l else y :: insert_q x rest
  end.

Definition np_sort (l : list Q) : list Q := fold_right insert_q [] l.

(** [sorted(buffs, key=...)]: a stable sort. *)
Fixpoint insert_by (key : Buff.t -> Instant) (x : Buff.t) (l : list Buff.t)
  : list Buff.t :=
  match l with
  | [] => [x]
  | y :: rest =>
      if Tleb (key x) (key y) then x :: l else y :: insert_by key x rest
  end.

Definition sorted_by (key : Buff.t -> Instant) (l : list Buff.t) : list Buff.t :=
  fold_right (insert_by key) [] l.

(* ------------------------------------------------------------------ *)
(** ** Damage tags and their evaluation in one sub-interval *)

Module DamageTag.

Record t : Type := mk {
  damage : Q;
  tags : Dict Q;
  start : Instant;
  duration : option Instant;
  end_ : option Instant
}.

(** [dmg_tag.get('duration', 0)] *)
Definition get_duration (dmg_tag : t) : Instant :=
  match duration dmg_tag with
  | Some d => d
  | None => Fin 0
  end.

(** [dmg_tag.get('end', start + duration if not math.isinf(duration)
    else math.inf)] *)
Definition get_end (dmg_tag : t) : Instant :=
  match end_ dmg_tag with
  | Some e => e
  | None =>
      match get_duration dmg_tag with
      | Fin d => Tadd (start dmg_tag) d
      | _ => PosInf
      end
  end.

End DamageTag.

(** The caller's cache object after a call that was given it. *)
Definition cache_after (before : ModifierCache.t) (after : option ModifierCache.t)
  : ModifierCache.t :=
  match after with
  | Some c => c
  | None => before
  end.

(** The body of the loop over [damage_tags] (lines 663-688, and the same
    text at lines 744-768): the new value of [results[i]] and the cache. *)
Definition eval_tag (attack defense : Q) (normalize : bool)
    (cache : ModifierCache.t) (t_0 t_1 : Q) (dmg_tag : DamageTag.t) (result_i : Q)
  : Result (Q * ModifierCache.t) :=
  let damage := DamageTag.damage dmg_tag in
  let tags := DamageTag.tags dmg_tag in
  let start := DamageTag.start dmg_tag in
  let duration := DamageTag.get_duration dmg_tag in
  let end_ := DamageTag.get_end dmg_tag in
  if Tgeb start (Fin t_1) || Tltb end_ (Fin t_0) then Ok (result_i, cache)
  else
    let '(total_dmg, after) :=
      accumulate_avg_dmg damage attack defense None tags normalize (Some cache) in
    let cache := cache_after cache after in
    total_dmg <- total_dmg ;;
    let duration :=
      if negb (Teqb duration (Fin 0))
      then Tsub (Tmin end_ (Fin t_1)) (Tmax start (Fin t_0))
      else Fin 0 in
    match duration with
    | Fin d =>
        if Qlt_bool 0 d then Ok (result_i + total_dmg * d, cache)
        else Ok (result_i + total_dmg, cache)
    | _ => Ok (result_i + total_dmg, cache)
    end.

(** [for i, dmg_tag in enumerate(damage_tags)], on [results] aligned with
    [damage_tags]. *)
Fixpoint eval_tags (attack defense : Q) (normalize : bool)
    (cache : ModifierCache.t) (t_0 t_1 : Q)
    (damage_tags : list DamageTag.t) (results : list Q)
  : Result (list Q * ModifierCache.t) :=
  match damage_tags, results with
  | dmg_tag :: damage_tags', r :: results' =>
      st <- eval_tag attack defense normalize cache t_0 t_1 dmg_tag r ;;
      let '(r', cache) := st in
      st <- eval_tags attack defense normalize cache t_0 t_1 damage_tags' results' ;;
      let '(rs, cache) := st in
      Ok (r' :: rs, cache)
  | _, _ => Ok ([], cache)
  end.

(** What a sweep returns: [np.sum(results)] or [results]. *)
Inductive Dps : Type :=
| Total (x : Q)
| PerTag (results : list Q).

Definition np_sum (l : list Q) : Q := fold_left Qplus l 0.

Definition finish (accumulate : bool) (results : list Q) : Dps :=
  if accumulate then Total (np_sum results) else PerTag results.

(* ------------------------------------------------------------------ *)
(** ** The quadratic sweep: [NIKKE.compute_dps_window_n2] *)

(** Lines 726-731. *)
Fixpoint n2_windows (t_0 : Q) (time_points : list Q) : list (Q * Q) :=
  match time_points with
  | [] => []
  | t_1 :: rest =>
      if Qle_bool t_1 t_0 then n2_windows t_0 rest
      else (t_0, t_1) :: n2_windows t_1 rest
  end.

(** [t_0 >= buff['start'] and t_0 < buff['end']] *)
Definition active_at (t_0 : Q) (buff : Buff.t) : bool :=
  Tgeb (Fin t_0) (Buff.start buff) && Tltb (Fin t_0) (Buff.end_ buff).

Fixpoint n2_sweep (attack defense : Q) (normalize : bool) (buffs : list Buff.t)
    (damage_tags : list DamageTag.t) (buff_windows : list (Q * Q))
    (results : list Q) : Result (list Q) :=
  match buff_windows with
  | [] => Ok results
  | (t_0, t_1) :: rest =>
      let window := filter (active_at t_0) buffs in
      let cache := generate_cache window in
      st <- eval_tags attack defense normalize cache t_0 t_1 damage_tags results ;;
      n2_sweep attack defense normalize buffs damage_tags rest (fst st)
  end.

Definition compute_dps_window_n2 (damage_tags : list DamageTag.t)
    (attack defense : Q) (buffs : list Buff.t)
    (window_start window_end : Instant) (accumulate normalize : bool)
  : Result Dps :=
  let time_points := get_unique_times buffs window_start window_end in
  let time_points := np_sort time_points in
  match time_points with
  | [] => Raise IndexError
  | t_0 :: _ =>
      let buff_windows := n2_windows t_0 time_points in
      let results := repeat 0 (List.length damage_tags) in
      results <- n2_sweep attack defense normalize buffs damage_tags
                   buff_windows results ;;
      Ok (finish accumulate results)
  end.

(* ------------------------------------------------------------------ *)
(** ** The linearithmic sweep: [NIKKE.compute_dps_window_nlogn] *)

(** One row of [time_windows] zipped with the same row of [buff_windows]. *)
Record SweepRow : Type := mkRow {
  row_t_0 : Q;
  row_t_1 : Q;
  add_s : nat;
  add_e : nat;
  sub_s : nat;
  sub_e : nat
}.

(** [while prev_time >= buffs[index][key]: index += 1], where [rest] is
    [buffs[index:]].  The loop has no bound check of its own: reading past
    the last element raises [IndexError]. *)
Fixpoint advance_cursor (key : Buff.t -> Instant) (prev_time : Q)
    (rest : list Buff.t) (index : nat) : Result nat :=
  match rest with
  | [] => Raise IndexError
  | b :: rest' =>
      if Tgeb (Fin prev_time) (key b)
      then advance_cursor key prev_time rest' (S index)
      else Ok index
  end.

(** [if index < len(buffs): while ...] (lines 641-643 and 644-646) *)
Definition guarded_advance (key : Buff.t -> Instant) (prev_time : Q)
    (buffs : list Buff.t) (index : nat) : Result nat :=
  if (index <? List.length buffs)%nat
  then advance_cursor key prev_time (skipn index buffs) index
  else Ok index.

(** Lines 634-649: [rest] is [time_points[i:]]. *)
Fixpoint nlogn_rows (add_buffs sub_buffs : list Buff.t) (prev_time : Q)
    (rest : list Q) (add_index sub_index : nat) : Result (list SweepRow) :=
  match rest with
  | [] => Ok []
  | curr_time :: rest' =>
      add_index' <- guarded_advance Buff.start prev_time add_buffs add_index ;;
      sub_index' <- guarded_advance Buff.end_ prev_time sub_buffs sub_index ;;
      rows <- nlogn_rows add_buffs sub_buffs curr_time rest' add_index' sub_index' ;;
      Ok (mkRow prev_time curr_time add_index add_index' sub_index sub_index' :: rows)
  end.

(** Lines 656-659: the running cache enters the sub-interval of [row]. *)
Definition apply_row (add_buffs sub_buffs : list Buff.t)
    (cache : ModifierCache.t) (row : SweepRow) : Result ModifierCache.t :=
  cache <- (if (add_s row <? add_e row)%nat
            then ModifierCache.add_buffs_range cache add_buffs
                   (add_s row) (add_e row - add_s row)
            else Ok cache) ;;
  if (sub_s row <? sub_e row)%nat
  then ModifierCache.remove_buffs_range cache sub_buffs
         (sub_s row) (sub_e row - sub_s row)
  else Ok cache.

(** Lines 654-688. *)
Fixpoint nlogn_sweep (attack defense : Q) (normalize : bool)
    (add_buffs sub_buffs : list Buff.t) (damage_tags : list DamageTag.t)
    (rows : list SweepRow) (cache : ModifierCache.t) (results : list Q)
  : Result (list Q) :=
  match rows with
  | [] => Ok results
  | row :: rest =>
      cache <- apply_row add_buffs sub_buffs cache row ;;
      st <- eval_tags attack defense normalize cache (row_t_0 row) (row_t_1 row)
              damage_tags results ;;
      let '(results, cache) := st in
      nlogn_sweep attack defense normalize add_buffs sub_buffs damage_tags
        rest cache results
  end.

(** The cache with which the sweep evaluates the damage tags of each row,
    in order: the trace of the running aggregate.  (Evaluating the tags
    leaves the cache as it is, see [eval_tags_cache].) *)
Fixpoint nlogn_caches (add_buffs sub_buffs : list Buff.t)
    (rows : list SweepRow) (cache : ModifierCache.t)
  : Result (list ModifierCache.t) :=
  match rows with
  | [] => Ok []
  | row :: rest =>
      cache <- apply_row add_buffs sub_buffs cache row ;;
      caches <- nlogn_caches add_buffs sub_buffs rest cache ;;
      Ok (cache :: caches)
  end.

(** Lines 618-649: the two sorted views, the time points and the rows. *)
Definition nlogn_plan (buffs : list Buff.t) (window_start window_end : Instant)
  : Result (list SweepRow) :=
  let add_buffs := sorted_by Buff.start buffs in
  let sub_buffs := sorted_by Buff.end_ buffs in
  let time_points := get_unique_times add_buffs window_start window_end in
  let time_points := np_sort time_points in
  match time_points with
  | [] => Raise ValueError
  | prev_time :: rest => nlogn_rows add_buffs sub_buffs prev_time rest 0 0
  end.

Definition compute_dps_window_nlogn (damage_tags : list DamageTag.t)
    (attack defense : Q) (buffs : list Buff.t)
    (window_start window_end : Instant) (accumulate normalize : bool)
  : Result Dps :=
  let add_buffs := sorted_by Buff.start buffs in
  let sub_buffs := sorted_by Buff.end_ buffs in
  rows <- nlogn_plan buffs window_start window_end ;;
  let results := repeat 0 (List.length damage_tags) in
  let cache := generate_cache [] in
  results <- nlogn_sweep attack defense normalize add_buffs sub_buffs
               damage_tags rows cache results ;;
  Ok (finish accumulate results).

(** [NIKKE.compute_dps_window]: the dispatcher. *)
Definition compute_dps_window (damage_tags : list DamageTag.t)
    (attack defense : Q) (buffs : list Buff.t)
    (window_start window_end : Instant) (accumulate normalize : bool)
  : Result Dps :=
  if (800 <=? List.length buffs)%nat
  then compute_dps_window_nlogn damage_tags attack defense buffs
         window_start window_end accumulate normalize
  else compute_dps_window_n2 damage_tags attack defense buffs
         window_start window_end accumulate normalize.

(* ------------------------------------------------------------------ *)
(** ** Vocabulary of the statements *)

(** [a <= b] on instants, as a proposition. *)
Definition Tle (a b : Instant) : Prop :=
  match a, b with
  | NegInf, _ => True
  | _, PosInf => True
  | Fin x, Fin y => x <= y
  | _, _ => False
  end.

(** [a < b] on instants, as a proposition. *)
Definition Tlt (a b : Instant) : Prop :=
  match a, b with
  | PosInf, _ => False
  | _, NegInf => False
  | Fin x, Fin y => x < y
  | _, _ => True
  end.

(** The attributes of the aggregate. *)
Inductive Field : Type :=
| FAttack | FChargeDmg | FDamageTaken | FElementDmg | FDamageUp | FDefense
| FFlatAtk | FCritRate | FCritDmg | FCoreDmg | FRangeDmg | FFullBurstDmg
| FCoreHit | FRangeBonus | FFullBurst | FElementBonus.

Definition field_value (f : Field) (c : ModifierCache.t) : Q :=
  match f with
  | FAttack => ModifierCache.attack c
  | FChargeDmg => ModifierCache.charge_dmg c
  | FDamageTaken => ModifierCache.damage_taken c
  | FElementDmg => ModifierCache.element_dmg c
  | FDamageUp => ModifierCache.damage_up c
  | FDefense => ModifierCache.defense c
  | FFlatAtk => ModifierCache.flat_atk c
  | FCritRate => ModifierCache.crit_rate c
  | FCritDmg => ModifierCache.crit_dmg c
  | FCoreDmg => ModifierCache.core_dmg c
  | FRangeDmg => ModifierCache.range_dmg c
  | FFullBurstDmg => ModifierCache.full_burst_dmg c
  | FCoreHit => inject_Z (ModifierCache.core_hit c)
  | FRangeBonus => inject_Z (ModifierCache.range_bonus c)
  | FFullBurst => inject_Z (ModifierCache.full_burst c)
  | FElementBonus => inject_Z (ModifierCache.element_bonus c)
  end.

(** What a key of the buff dict is worth: [value * stacks] when present. *)
Definition scaled (key : option Q) (stacks : Q) : Q :=
  match key with
  | Some v => v * stacks
  | None => 0
  end.

Definition counted (key : option PyVal) : Q :=
  match key with
  | Some val => inject_Z (flag_amount val)
  | None => 0
  end.

(** The effect of one buff on one attribute, as [add_buff] applies it. *)
Definition effect (f : Field) (b : Buff.t) : Q :=
  let stacks := inject_Z (Buff.get_stacks b) in
  match f with
  | FAttack => scaled (Buff.attack b) stacks
  | FChargeDmg =>
      scaled (Buff.charge_dmg b) stacks
      + scaled (option_map (fun v => v - 100) (Buff.full_charge_dmg b)) stacks
  | FDamageTaken => scaled (Buff.damage_taken b) stacks
  | FElementDmg => scaled (Buff.element_dmg b) stacks
  | FDamageUp => scaled (Buff.damage_up b) stacks
  | FDefense => scaled (Buff.defense b) stacks
  | FFlatAtk => scaled (Buff.flat_atk b) stacks
  | FCritRate => scaled (Buff.crit_rate b) stacks
  | FCritDmg =>
      scaled (Buff.crit_dmg b) stacks + scaled (Buff.core_dmg b) stacks
      + scaled (Buff.range_dmg b) stacks + scaled (Buff.full_burst_dmg b) stacks
  | FCoreDmg => 0
  | FRangeDmg => 0
  | FFullBurstDmg => 0
  | FCoreHit => counted (Buff.core_hit b)
  | FRangeBonus => counted (Buff.range_bonus b)
  | FFullBurst => counted (Buff.full_burst b)
  | FElementBonus => counted (Buff.element_bonus b)
  end.

(** Two aggregates hold the same numbers. *)
Definition cache_eq (a b : ModifierCache.t) : Prop :=
  ModifierCache.attack a == ModifierCache.attack b
  /\ ModifierCache.charge_dmg a == ModifierCache.charge_dmg b
  /\ ModifierCache.damage_taken a == ModifierCache.damage_taken b
  /\ ModifierCache.element_dmg a == ModifierCache.element_dmg b
  /\ ModifierCache.damage_up a == ModifierCache.damage_up b
  /\ ModifierCache.defense a == ModifierCache.defense b
  /\ ModifierCache.flat_atk a == ModifierCache.flat_atk b
  /\ ModifierCache.crit_rate a == ModifierCache.crit_rate b
  /\ ModifierCache.crit_dmg a == ModifierCache.crit_dmg b
  /\ ModifierCache.core_dmg a == ModifierCache.core_dmg b
  /\ ModifierCache.range_dmg a == ModifierCache.range_dmg b
  /\ ModifierCache.full_burst_dmg a == ModifierCache.full_burst_dmg b
  /\ ModifierCache.core_hit a = ModifierCache.core_hit b
  /\ ModifierCache.range_bonus a = ModifierCache.range_bonus b
  /\ ModifierCache.full_burst a = ModifierCache.full_burst b
  /\ ModifierCache.element_bonus a = ModifierCache.element_bonus b.

(** The situational base modifier as the specification words it: each
    active bonus adds the aggregate's matching damage percentage. *)
Definition base_mod_spec (calc : ModifierCache.t)
    (core_hit range_bonus full_burst : bool) : Q :=
  1
  + (if core_hit || (0 <? ModifierCache.core_hit calc)%Z
     then ModifierCache.core_dmg calc / 100 else 0)
  + (if range_bonus || (0 <? ModifierCache.range_bonus calc)%Z
     then ModifierCache.range_dmg calc / 100 else 0)
  + (if full_burst || (0 <? ModifierCache.full_burst calc)%Z
     then ModifierCache.full_burst_dmg calc / 100 else 0).

(** The 16 combinations of (core_hit, range_bonus, full_burst,
    element_bonus), in the nesting order of the four loops. *)
Definition flag_combos : list (bool * bool * bool * bool) :=
  flat_map (fun c => flat_map (fun r => flat_map (fun f =>
    map (fun e => (c, r, f, e)) flags) flags) flags) flags.

Definition combo_tag (x : bool * bool * bool * bool) : string :=
  let '(c, r, f, e) := x in get_bonus_tag c r f e.

(** The canonical labels of the outcome matrix. *)
Definition canonical_labels : list string := map combo_tag flag_combos.

(** [8*core + 4*range + 2*full_burst + element] *)
Definition combo_index (c r f e : bool) : nat :=
  8 * Nat.b2n c + 4 * Nat.b2n r + 2 * Nat.b2n f + Nat.b2n e.

Definition Qsum (l : list Q) : Q := fold_right Qplus 0 l.

(** The average-damage entry keyed by [label], 0 when there is none. *)
Definition avg_entry (matrix : Dict MatVal) (label : string) : Q :=
  match dict_get matrix label with
  | Some (MatEntry _ _ _ avg) => avg
  | _ => 0
  end.

(** The weighted sum of the average-damage entries, and the sum of the
    weights. *)
Definition weighted_sum (matrix : Dict MatVal) (tags : Dict Q) : Q :=
  Qsum (map (fun '(label, ratio) => avg_entry matrix label * ratio) tags).

Definition weight_total (tags : Dict Q) : Q := Qsum (map snd tags).

(** The dict that the four nested loops build, for any function [dmg] of
    the four flags in place of the call to [compute_damage]. *)
Definition matrix_of (dmg : bool -> bool -> bool -> bool -> Dmg3) : Dict MatVal :=
  fst
    (fold_left (fun st core_hit =>
     fold_left (fun st range_bonus =>
     fold_left (fun st full_burst =>
     fold_left (fun '(ret, index) element_bonus =>
       let tag := get_bonus_tag core_hit range_bonus full_burst element_bonus in
       let total_dmg := dmg core_hit range_bonus full_burst element_bonus in
       let ret := dict_set ret tag
         (MatEntry index (dmg_base total_dmg) (dmg_crit total_dmg) (dmg_avg total_dmg)) in
       let ret := set_matrix_row ret index total_dmg in
       (ret, S index))
     flags st) flags st) flags st) flags
     ([("matrix"%string, MatArray (repeat (0, 0, 0) 16))], O)).

(** The aggregate that [compute_damage_matrix] hands to [compute_damage]. *)
Definition matrix_cache (buffs : option (list Buff.t))
    (cache : option ModifierCache.t) : ModifierCache.t :=
  match cache with
  | Some c => ModifierCache.add_buffs_opt c buffs
  | None => ModifierCache.add_buffs_opt (generate_cache []) buffs
  end.

(** The outcome matrix of the scenario: attack 100000, defense 10000,
    skill multiplier 100, no buffs. *)
Definition scenario_matrix : Dict MatVal :=
  fst (compute_damage_matrix 100 100000 10000 None None).


(** A weight map with a label that the matrix does not have. *)
Definition unknown_label_tags : Dict Q := [("base"%string, 1); ("weakpoint"%string, 1)].


(** Inputs of the sweep scenarios. *)
Definition attack_buff (s e : Instant) (percent : Q) : Buff.t :=
  Buff.mk s e None (Some percent) None None None None None None None None
    None None None None None None None None.

(** A buff with [start=-inf], [end=+inf]. *)
Definition infinite_buff : Buff.t := attack_buff NegInf PosInf 20.

(** An instantaneous tag ([duration] 0) of multiplier 100 at time [at_]. *)
Definition instant_tag (at_ : Q) : DamageTag.t :=
  DamageTag.mk 100 [("base"%string, 1)] (Fin at_) (Some (Fin 0)) None.

(** A sustained tag of multiplier 100 over [[from, from + len)]. *)
Definition sustained_tag (from len : Q) : DamageTag.t :=
  DamageTag.mk 100 [("base"%string, 1)] (Fin from) (Some (Fin len)) None.

(** Equality of sweep results up to [==]. *)
Definition Dps_eq (a b : Dps) : Prop :=
  match a, b with
  | Total x, Total y => x == y
  | PerTag l, PerTag l' => Forall2 Qeq l l'
  | _, _ => False
  end.

Definition Result_eq {A : Type} (eqA : A -> A -> Prop) (a b : Result A) : Prop :=
  match a, b with
  | Ok x, Ok y => eqA x y
  | Raise e, Raise e' => e = e'
  | _, _ => False
  end.

(** [buff[key] <= t], the test by which a cursor passes a buff. *)
Definition passed (key : Buff.t -> Instant) (t : Q) (b : Buff.t) : bool :=
  Tleb (key b) (Fin t).

(** How many buffs a cursor on [key] has passed at time [t]. *)
Definition count_passed (key : Buff.t -> Instant) (t : Q) (l : list Buff.t) : nat :=
  List.length (filter (passed key t) l).

(** The order of a list sorted on [key]. *)
Definition key_le (key : Buff.t -> Instant) (a b : Buff.t) : Prop :=
  Tle (key a) (key b).

(** The sum of the effects of a list of buffs on one attribute. *)
Definition effects (f : Field) (l : list Buff.t) : Q := Qsum (map (effect f) l).

(** Every buff has [start < end]. *)
Definition well_formed (buffs : list Buff.t) : Prop :=
  forall b, In b buffs -> Tlt (Buff.start b) (Buff.end_ b).

(** The damage tags evaluated over a list of sub-intervals, each with the
    aggregate given for it. *)
Fixpoint eval_rows (attack defense : Q) (normalize : bool)
    (damage_tags : list DamageTag.t)
    (rows : list (Q * Q * ModifierCache.t)) (results : list Q)
  : Result (list Q) :=
  match rows with
  | [] => Ok results
  | (t_0, t_1, cache) :: rest =>
      st <- eval_tags attack defense normalize cache t_0 t_1 damage_tags results ;;
      eval_rows attack defense normalize damage_tags rest (fst st)
  end.

(** The aggregate of the buffs active at [t_0], as the quadratic sweep
    builds it. *)
Definition n2_cache (buffs : list Buff.t) (t_0 : Q) : ModifierCache.t :=
  generate_cache (filter (active_at t_0) buffs).

(** The invariant of the running aggregate at one row. *)
Definition aggregate_at (buffs : list Buff.t) (row : SweepRow)
    (cache : ModifierCache.t) : Prop :=
  cache_eq cache (n2_cache buffs (row_t_0 row))
  /\ forall f,
       field_value f cache
       == field_value f (generate_cache [])
          + effects f (filter (active_at (row_t_0 row)) buffs).

(** Two buffs for which the linearithmic plan completes on [0, 15]. *)
Definition staggered_buffs : list Buff.t :=
  [attack_buff (Fin 0) (Fin 10) 20; attack_buff (Fin 20) PosInf 5].


(** Instants and damage triples that hold the same numbers. *)
Definition Teq (a b : Instant) : Prop :=
  match a, b with
  | NegInf, NegInf => True
  | PosInf, PosInf => True
  | Fin x, Fin y => x == y
  | _, _ => False
  end.

Definition Dmg3_eq (a b : Dmg3) : Prop :=
  dmg_base a == dmg_base b /\ dmg_crit a == dmg_crit b /\ dmg_avg a == dmg_avg b.

(** The state of the loop over damage tags, up to [==]. *)
Definition tags_state_eq (a b : list Q * ModifierCache.t) : Prop :=
  Forall2 Qeq (fst a) (fst b) /\ cache_eq (snd a) (snd b).

(** Sub-intervals with their aggregates, up to [==]. *)
Definition row_eq (a b : Q * Q * ModifierCache.t) : Prop :=
  fst (fst a) == fst (fst b) /\ snd (fst a) == snd (fst b)
  /\ cache_eq (snd a) (snd b).

(** The flag combination that a label stands for, if it is canonical. *)
Definition label_flags (label : string) : option (bool * bool * bool * bool) :=
  find (fun x => String.eqb (combo_tag x) label) flag_combos.

Definition pair_eq (a b : Q * Q) : Prop := fst a == fst b /\ snd a == snd b.

(** The [duration] by which a tag is weighted in the sub-interval
    [[t_0, t_1)], and the weighted contribution. *)
Definition tag_overlap (dmg_tag : DamageTag.t) (t_0 t_1 : Q) : Instant :=
  if negb (Teqb (DamageTag.get_duration dmg_tag) (Fin 0))
  then Tsub (Tmin (DamageTag.get_end dmg_tag) (Fin t_1))
         (Tmax (DamageTag.start dmg_tag) (Fin t_0))
  else Fin 0.

Definition weighted (total_dmg : Q) (duration : Instant) : Q :=
  match duration with
  | Fin d => if Qlt_bool 0 d then total_dmg * d else total_dmg
  | _ => total_dmg
  end.

(** The test [start >= t_1 or end < t_0] that skips a tag. *)
Definition tag_skipped (dmg_tag : DamageTag.t) (t_0 t_1 : Q) : bool :=
  Tgeb (DamageTag.start dmg_tag) (Fin t_1)
  || Tltb (DamageTag.get_end dmg_tag) (Fin t_0).

Definition tag_state_eq (a b : Q * ModifierCache.t) : Prop :=
  fst a == fst b /\ cache_eq (snd a) (snd b).

(** Consecutive pairs of a list of time points that starts at [prev]. *)
Fixpoint consecutive (prev : Q) (rest : list Q) : list (Q * Q) :=
  match rest with
  | [] => []
  | curr :: rest' => (prev, curr) :: consecutive curr rest'
  end.

(** [x] is a boundary of [b] strictly inside the window. *)
Definition boundary_inside (window_start window_end : Instant) (b : Buff.t)
    (x : Q) : Prop :=
  exists y,
    (Buff.start b = Fin y \/ Buff.end_ b = Fin y)
    /\ y == x
    /\ Tlt window_start (Fin y) /\ Tlt (Fin y) window_end.

(** [x] is a finite bound of the window. *)
Definition window_bound (window_start window_end : Instant) (x : Q) : Prop :=
  (exists w, window_start = Fin w /\ w == x)
  \/ (exists w, window_end = Fin w /\ w == x).

(* ------------------------------------------------------------------ *)
(** ** Further functions of [nikke_dmg.py] and their callers *)

(** The exceptions of these functions: the ones above, [TypeError], and
    [NIKKE.Exceptions.BadElement]. *)
Inductive PyExn : Type :=
| Builtin (e : Exn)
| TypeError
| BadElement.

Inductive Outcome (A : Type) : Type :=
| Returns (a : A)
| Throws (e : PyExn).

Arguments Returns {A} a.
Arguments Throws {A} e.

Definition of_result {A : Type} (r : Result A) : Outcome A :=
  match r with
  | Ok a => Returns a
  | Raise e => Throws (Builtin e)
  end.

(** One entry of [NIKKE.weapon_table]. *)
Record Weapon : Type := mkWeapon {
  attack_speed : Q;
  wind_up_seconds : Q;
  wind_up_ammo : Z
}.

Definition weapon_table : Dict Weapon :=
  [("AR"%string, mkWeapon 12 0 0);
   ("SMG"%string, mkWeapon 20 0 0);
   ("SR"%string, mkWeapon (44 # 10) 0 0);
   ("RL"%string, mkWeapon (44 # 10) 0 0);
   ("MG"%string, mkWeapon 59 2 43);
   ("SG"%string, mkWeapon (15 # 10) 0 0)].

(** [NIKKE.weapon_table[weapon]]: a missing key raises [KeyError]. *)
Definition weapon_entry (weapon : string) : Result Weapon :=
  match dict_get weapon_table weapon with
  | Some w => Ok w
  | None => Raise KeyError
  end.

(** [NIKKE.compute_peak_normal_dps] *)
Definition compute_peak_normal_dps (damage : Q) (weapon : string) : Result Q :=
  w <- weapon_entry weapon ;;
  Ok (damage * attack_speed w).

(** [NIKKE.compute_normal_dps] *)
Definition compute_normal_dps (damage : Q) (ammo : Z) (reload : Q)
    (weapon : string) : Result Q :=
  if Qle_bool reload 0 then compute_peak_normal_dps damage weapon
  else
    w <- weapon_entry weapon ;;
    let speed := attack_speed w in
    let wind_up_seconds := wind_up_seconds w in
    let wind_up_ammo := wind_up_ammo w in
    py_div (damage * inject_Z (ammo - wind_up_ammo))
      (inject_Z (ammo - wind_up_ammo) / speed + wind_up_seconds + reload).

(** [NIKKE.element_table] *)
Definition element_table : Dict string :=
  [("water"%string, "fire"%string);
   ("fire"%string, "wind"%string);
   ("wind"%string, "iron"%string);
   ("iron"%string, "electric"%string);
   ("electric"%string, "water"%string)].

(** [key in d] *)
Definition dict_mem {V : Type} (d : Dict V) (k : string) : bool :=
  match dict_get d k with
  | Some _ => true
  | None => false
  end.

(** [NIKKE.compare_element] *)
Definition compare_element (source target : string) : Outcome bool :=
  if negb (dict_mem element_table source) then Throws BadElement
  else if negb (dict_mem element_table target) then Throws BadElement
  else
    match dict_get element_table source with
    | Some strong_against => Returns (String.eqb strong_against target)
    | None => Throws (Builtin KeyError)
    end.

(** [nikke_enemies.get_multiplier] *)
Definition get_multiplier (damage attack defense : Q) : Result Q :=
  py_div damage (attack - defense).

(** [Examples.compute_actual_damage], the value it returns (what it logs
    is left out). *)
Definition compute_actual_damage (damage attack defense : Q)
    (buffs : list Buff.t)
    (core_hit range_bonus full_burst element_bonus : bool) : Dmg3 :=
  let dmg_cache := generate_cache buffs in
  compute_damage damage attack defense [] core_hit range_bonus full_burst
    element_bonus (Some dmg_cache).

(** The [buffs] argument of [add_buffs] and [remove_buffs]: a dict, a list
    or [None]. *)
Inductive BuffsArg : Type :=
| ArgDict (b : Buff.t)
| ArgList (l : list Buff.t)
| ArgNone.

(** [ModifierCache.add_buffs(buffs, start, end)] with all its branches.
    [start] and [end] are indices that are not negative, as the sweep
    passes them. *)
Definition add_buffs_call (self : ModifierCache.t) (buffs : BuffsArg)
    (start end_ : option nat) : Outcome ModifierCache.t :=
  match buffs with
  | ArgDict b => Returns (ModifierCache.add_buff self b)
  | ArgList l =>
      match start, end_ with
      | Some s, Some e =>
          of_result (ModifierCache.add_buffs_range self l s (e - s))
      | _, _ => Returns (ModifierCache.add_buffs self l)
      end
  | ArgNone => Returns self
  end.

(** [for buff in buffs: self.remove_buff(buff)] *)
Definition remove_buffs (self : ModifierCache.t) (buffs : list Buff.t)
  : ModifierCache.t :=
  fold_left ModifierCache.remove_buff buffs self.

(** [ModifierCache.remove_buffs(buffs, start, end)]: whatever is not a dict
    is indexed or iterated, so [None] raises [TypeError] as soon as one
    element is asked for. *)
Definition remove_buffs_call (self : ModifierCache.t) (buffs : BuffsArg)
    (start end_ : option nat) : Outcome ModifierCache.t :=
  match buffs with
  | ArgDict b => Returns (ModifierCache.remove_buff self b)
  | ArgList l =>
      match start, end_ with
      | Some s, Some e =>
          of_result (ModifierCache.remove_buffs_range self l s (e - s))
      | _, _ => Returns (remove_buffs self l)
      end
  | ArgNone =>
      match start, end_ with
      | Some s, Some e => if (s <? e)%nat then Throws TypeError else Returns self
      | _, _ => Throws TypeError
      end
  end.

(** The buff dict [buff] with its ['stacks'] key set to [n]. *)
Definition with_stacks (buff : Buff.t) (n : Z) : Buff.t :=
  Buff.mk (Buff.start buff) (Buff.end_ buff) (Some n)
    (Buff.attack buff) (Buff.charge_dmg buff) (Buff.full_charge_dmg buff)
    (Buff.damage_taken buff) (Buff.element_dmg buff) (Buff.damage_up buff)
    (Buff.defense buff) (Buff.flat_atk buff) (Buff.crit_rate buff)
    (Buff.crit_dmg buff) (Buff.core_dmg buff) (Buff.range_dmg buff)
    (Buff.full_burst_dmg buff) (Buff.core_hit buff) (Buff.range_bonus buff)
    (Buff.full_burst buff) (Buff.element_bonus buff).

(** Two buffs used to exercise the aggregate. *)
Definition crit_buff : Buff.t :=
  Buff.mk (Fin 0) (Fin 10) (Some 2%Z) None None None None None None None None
    (Some 5) (Some 10) (Some 20) (Some 3) (Some 7) (Some (PyBool true)) None
    None None.

Definition charge_buff : Buff.t :=
  Buff.mk (Fin 2) (Fin 4) None (Some 10) (Some 15) (Some 250) None None None
    None None None None None None None None None None None.

(** Sub-intervals that follow one another: each starts where the one
    before it ends. *)
Fixpoint chained (windows : list (Q * Q)) : Prop :=
  match windows with
  | [] => True
  | w :: rest =>
      match rest with
      | [] => True
      | w' :: _ => snd w = fst w'
      end /\ chained rest
  end.

(** A buff that cannot be active inside the window: it has ended by
    [window_start], or it starts at [window_end] or later. *)
Definition outside_window (window_start window_end : Instant) (b : Buff.t)
  : Prop :=
  (Tle (Buff.start b) window_start /\ Tle (Buff.end_ b) window_start)
  \/ (Tle window_end (Buff.start b) /\ Tle window_end (Buff.end_ b)).


(** A buff with [start=-inf] and [end=+inf]. *)
Definition ambient (b : Buff.t) : Prop :=
  Buff.start b = NegInf /\ Buff.end_ b = PosInf.

(** The average damage of a tag on an aggregate, as the sweeps ask for it. *)
Definition tag_average (attack defense : Q) (normalize : bool)
    (cache : ModifierCache.t) (dmg_tag : DamageTag.t) : Result Q :=
  fst (accumulate_avg_dmg (DamageTag.damage dmg_tag) attack defense None
         (DamageTag.tags dmg_tag) normalize (Some cache)).

(** [s in NIKKE.element_table] *)
Definition is_element (s : string) : Prop :=
  dict_mem element_table s = true.

(* ------------------------------------------------------------------ *)
(** ** The aggregate and the blend in double precision

    Where a statement says that values are restored, coincide or sum to
    zero, rounding decides.  The module [Double] runs the source lines of
    the aggregate and of [matrix_avg_dmg] on IEEE-754 binary64 numbers,
    Rocq's primitive floats, operation by operation in the order of the
    source.  A number of a buff dict or of a weight map is still written as
    a rational: it stands for the double nearest to it, which is what
    Python makes of a literal ([11 # 10] is the double of [1.1]; a double is
    the rational it equals).  Times are only ever compared, so they stay
    as they are. *)

Module Double.

Import PrimFloat.PrimFloatNotations.
Local Open Scope float_scope.

(** [float(n)] for a Python [int], as the product of a float and an int
    needs it: the nearest double, and [OverflowError] when the int is too
    large to have one. *)
Definition int_to_float (n : Z) : Result float :=
  let f := SF2Prim (binary_normalize prec emax n 0 false) in
  if PrimFloat.is_infinity f then Raise OverflowError else Ok f.

(** The double nearest to a rational (ties to even), the quotient of its
    numerator and denominator rounded once. *)
Definition of_Q (q : Q) : float :=
  let num :=
    match Qnum q with
    | Z0 => S754_zero false
    | Zpos p => S754_finite false p 0
    | Zneg p => S754_finite true p 0
    end in
  SF2Prim (SFdiv prec emax num (S754_finite false (Qden q) 0)).

(** [val * stacks], a float times an int. *)
Definition times (val : float) (stacks : Z) : Result float :=
  s <- int_to_float stacks ;;
  Ok (val * s).

(** [if key in buff: body], for a body that may raise. *)
Definition if_in_r {A S : Type} (key : option A) (body : A -> S -> Result S)
    (self : S) : Result S :=
  match key with
  | Some v => body v self
  | None => Ok self
  end.

Module ModifierCache.

Record t : Type := mk {
  attack : float;
  charge_dmg : float;
  damage_taken : float;
  element_dmg : float;
  damage_up : float;
  defense : float;
  flat_atk : float;
  crit_rate : float;
  crit_dmg : float;
  core_dmg : float;
  range_dmg : float;
  full_burst_dmg : float;
  core_hit : Z;
  range_bonus : Z;
  full_burst : Z;
  element_bonus : Z
}.

Definition set_attack (self : t) (v : float) : t :=
  mk v (charge_dmg self) (damage_taken self) (element_dmg self) (damage_up self)
     (defense self) (flat_atk self) (crit_rate self) (crit_dmg self) (core_dmg self)
     (range_dmg self) (full_burst_dmg self) (core_hit self) (range_bonus self)
     (full_burst self) (element_bonus self).

Definition set_charge_dmg (self : t) (v : float) : t :=
  mk (attack self) v (damage_taken self) (element_dmg self) (damage_up self)
     (defense self) (flat_atk self) (crit_rate self) (crit_dmg self) (core_dmg self)
     (range_dmg self) (full_burst_dmg self) (core_hit self) (range_bonus self)
     (full_burst self) (element_bonus self).

Definition set_damage_taken (self : t) (v : float) : t :=
  mk (attack self) (charge_dmg self) v (element_dmg self) (damage_up self)
     (defense self) (flat_atk self) (crit_rate self) (crit_dmg self) (core_dmg self)
     (range_dmg self) (full_burst_dmg self) (core_hit self) (range_bonus self)
     (full_burst self) (element_bonus self).

Definition set_element_dmg (self : t) (v : float) : t :=
  mk (attack self) (charge_dmg self) (damage_taken self) v (damage_up self)
     (defense self) (flat_atk self) (crit_rate self) (crit_dmg self) (core_dmg self)
     (range_dmg self) (full_burst_dmg self) (core_hit self) (range_bonus self)
     (full_burst self) (element_bonus self).

Definition set_damage_up (self : t) (v : float) : t :=
  mk (attack self) (charge_dmg self) (damage_taken self) (element_dmg self) v
     (defense self) (flat_atk self) (crit_rate self) (crit_dmg self) (core_dmg self)
     (range_dmg self) (full_burst_dmg self) (core_hit self) (range_bonus self)
     (full_burst self) (element_bonus self).

Definition set_defense (self : t) (v : float) : t :=
  mk (attack self) (charge_dmg self) (damage_taken self) (element_dmg self)
     (damage_up self) v (flat_atk self) (crit_rate self) (crit_dmg self)
     (core_dmg self) (range_dmg self) (full_burst_dmg self) (core_hit self)
     (range_bonus self) (full_burst self) (element_bonus self).

Definition set_flat_atk (self : t) (v : float) : t :=
  mk (attack self) (charge_dmg self) (damage_taken self) (element_dmg self)
     (damage_up self) (defense self) v (crit_rate self) (crit_dmg self)
     (core_dmg self) (range_dmg self) (full_burst_dmg self) (core_hit self)
     (range_bonus self) (full_burst self) (element_bonus self).

Definition set_crit_rate (self : t) (v : float) : t :=
  mk (attack self) (charge_dmg self) (damage_taken self) (element_dmg self)
     (damage_up self) (defense self) (flat_atk self) v (crit_dmg self)
     (core_dmg self) (range_dmg self) (full_burst_dmg self) (core_hit self)
     (range_bonus self) (full_burst self) (element_bonus self).

Definition set_crit_dmg (self : t) (v : float) : t :=
  mk (attack self) (charge_dmg self) (damage_taken self) (element_dmg self)
     (damage_up self) (defense self) (flat_atk self) (crit_rate self) v
     (core_dmg self) (range_dmg self) (full_burst_dmg self) (core_hit self)
     (range_bonus self) (full_burst self) (element_bonus self).

Definition set_core_hit (self : t) (v : Z) : t :=
  mk (attack self) (charge_dmg self) (damage_taken self) (element_dmg self)
     (damage_up self) (defense self) (flat_atk self) (crit_rate self)
     (crit_dmg self) (core_dmg self) (range_dmg self) (full_burst_dmg self) v
     (range_bonus self) (full_burst self) (element_bonus self).

Definition set_range_bonus (self : t) (v : Z) : t :=
  mk (attack self) (charge_dmg self) (damage_taken self) (element_dmg self)
     (damage_up self) (defense self) (flat_atk self) (crit_rate self)
     (crit_dmg self) (core_dmg self) (range_dmg self) (full_burst_dmg self)
     (core_hit self) v (full_burst self) (element_bonus self).

Definition set_full_burst (self : t) (v : Z) : t :=
  mk (attack self) (charge_dmg self) (damage_taken self) (element_dmg self)
     (damage_up self) (defense self) (flat_atk self) (crit_rate self)
     (crit_dmg self) (core_dmg self) (range_dmg self) (full_burst_dmg self)
     (core_hit self) (range_bonus self) v (element_bonus self).

Definition set_element_bonus (self : t) (v : Z) : t :=
  mk (attack self) (charge_dmg self) (damage_taken self) (element_dmg self)
     (damage_up self) (defense self) (flat_atk self) (crit_rate self)
     (crit_dmg self) (core_dmg self) (range_dmg self) (full_burst_dmg self)
     (core_hit self) (range_bonus self) (full_burst self) v.

(** [add_buff], lines 242-286: every [+=] on a float attribute is one
    rounded addition of the rounded product [buff[key] * stacks]; the
    counters are Python ints. *)
Definition add_buff (self : t) (buff : Buff.t) : Result t :=
  let stacks := Buff.get_stacks buff in
  self <- if_in_r (Buff.attack buff) (fun v self =>
    d <- times (of_Q v) stacks ;;
    Ok (set_attack self (attack self + d))) self ;;
  self <- if_in_r (Buff.charge_dmg buff) (fun v self =>
    d <- times (of_Q v) stacks ;;
    Ok (set_charge_dmg self (charge_dmg self + d))) self ;;
  self <- if_in_r (Buff.full_charge_dmg buff) (fun v self =>
    d <- times (of_Q v - 100) stacks ;;
    Ok (set_charge_dmg self (charge_dmg self + d))) self ;;
  self <- if_in_r (Buff.damage_taken buff) (fun v self =>
    d <- times (of_Q v) stacks ;;
    Ok (set_damage_taken self (damage_taken self + d))) self ;;
  self <- if_in_r (Buff.element_dmg buff) (fun v self =>
    d <- times (of_Q v) stacks ;;
    Ok (set_element_dmg self (element_dmg self + d))) self ;;
  self <- if_in_r (Buff.damage_up buff) (fun v self =>
    d <- times (of_Q v) stacks ;;
    Ok (set_damage_up self (damage_up self + d))) self ;;
  self <- if_in_r (Buff.defense buff) (fun v self =>
    d <- times (of_Q v) stacks ;;
    Ok (set_defense self (defense self + d))) self ;;
  self <- if_in_r (Buff.flat_atk buff) (fun v self =>
    d <- times (of_Q v) stacks ;;
    Ok (set_flat_atk self (flat_atk self + d))) self ;;
  self <- if_in_r (Buff.crit_rate buff) (fun v self =>
    d <- times (of_Q v) stacks ;;
    Ok (set_crit_rate self (crit_rate self + d))) self ;;
  self <- if_in_r (Buff.crit_dmg buff) (fun v self =>
    d <- times (of_Q v) stacks ;;
    Ok (set_crit_dmg self (crit_dmg self + d))) self ;;
  self <- if_in_r (Buff.core_dmg buff) (fun v self =>
    d <- times (of_Q v) stacks ;;
    Ok (set_crit_dmg self (crit_dmg self + d))) self ;;
  self <- if_in_r (Buff.range_dmg buff) (fun v self =>
    d <- times (of_Q v) stacks ;;
    Ok (set_crit_dmg self (crit_dmg self + d))) self ;;
  self <- if_in_r (Buff.full_burst_dmg buff) (fun v self =>
    d <- times (of_Q v) stacks ;;
    Ok (set_crit_dmg self (crit_dmg self + d))) self ;;
  let self := if_in (Buff.core_hit buff)
    (fun val self => set_core_hit self (core_hit self + flag_amount val)%Z) self in
  let self := if_in (Buff.range_bonus buff)
    (fun val self => set_range_bonus self (range_bonus self + flag_amount val)%Z) self in
  let self := if_in (Buff.full_burst buff)
    (fun val self => set_full_burst self (full_burst self + flag_amount val)%Z) self in
  let self := if_in (Buff.element_bonus buff)
    (fun val self => set_element_bonus self (element_bonus self + flag_amount val)%Z) self in
  Ok self.

(** [remove_buff], lines 300-344: the same lines with [-=]. *)
Definition remove_buff (self : t) (buff : Buff.t) : Result t :=
  let stacks := Buff.get_stacks buff in
  self <- if_in_r (Buff.attack buff) (fun v self =>
    d <- times (of_Q v) stacks ;;
    Ok (set_attack self (attack self - d))) self ;;
  self <- if_in_r (Buff.charge_dmg buff) (fun v self =>
    d <- times (of_Q v) stacks ;;
    Ok (set_charge_dmg self (charge_dmg self - d))) self ;;
  self <- if_in_r (Buff.full_charge_dmg buff) (fun v self =>
    d <- times (of_Q v - 100) stacks ;;
    Ok (set_charge_dmg self (charge_dmg self - d))) self ;;
  self <- if_in_r (Buff.damage_taken buff) (fun v self =>
    d <- times (of_Q v) stacks ;;
    Ok (set_damage_taken self (damage_taken self - d))) self ;;
  self <- if_in_r (Buff.element_dmg buff) (fun v self =>
    d <- times (of_Q v) stacks ;;
    Ok (set_element_dmg self (element_dmg self - d))) self ;;
  self <- if_in_r (Buff.damage_up buff) (fun v self =>
    d <- times (of_Q v) stacks ;;
    Ok (set_damage_up self (damage_up self - d))) self ;;
  self <- if_in_r (Buff.defense buff) (fun v self =>
    d <- times (of_Q v) stacks ;;
    Ok (set_defense self (defense self - d))) self ;;
  self <- if_in_r (Buff.flat_atk buff) (fun v self =>
    d <- times (of_Q v) stacks ;;
    Ok (set_flat_atk self (flat_atk self - d))) self ;;
  self <- if_in_r (Buff.crit_rate buff) (fun v self =>
    d <- times (of_Q v) stacks ;;
    Ok (set_crit_rate self (crit_rate self - d))) self ;;
  self <- if_in_r (Buff.crit_dmg buff) (fun v self =>
    d <- times (of_Q v) stacks ;;
    Ok (set_crit_dmg self (crit_dmg self - d))) self ;;
  self <- if_in_r (Buff.core_dmg buff) (fun v self =>
    d <- times (of_Q v) stacks ;;
    Ok (set_crit_dmg self (crit_dmg self - d))) self ;;
  self <- if_in_r (Buff.range_dmg buff) (fun v self =>
    d <- times (of_Q v) stacks ;;
    Ok (set_crit_dmg self (crit_dmg self - d))) self ;;
  self <- if_in_r (Buff.full_burst_dmg buff) (fun v self =>
    d <- times (of_Q v) stacks ;;
    Ok (set_crit_dmg self (crit_dmg self - d))) self ;;
  let self := if_in (Buff.core_hit buff)
    (fun val self => set_core_hit self (core_hit self - flag_amount val)%Z) self in
  let self := if_in (Buff.range_bonus buff)
    (fun val self => set_range_bonus self (range_bonus self - flag_amount val)%Z) self in
  let self := if_in (Buff.full_burst buff)
    (fun val self => set_full_burst self (full_burst self - flag_amount val)%Z) self in
  let self := if_in (Buff.element_bonus buff)
    (fun val self => set_element_bonus self (element_bonus self - flag_amount val)%Z) self in
  Ok self.

(** [add_buffs(buffs)] on a list. *)
Fixpoint add_buffs (self : t) (buffs : list Buff.t) : Result t :=
  match buffs with
  | [] => Ok self
  | buff :: rest => self <- add_buff self buff ;; add_buffs self rest
  end.

(** [add_buffs(buffs, start, end)], with the index [i] and the number [n]
    of indices still to visit. *)
Fixpoint add_buffs_range (self : t) (buffs : list Buff.t) (i n : nat) : Result t :=
  match n with
  | O => Ok self
  | S n' =>
      match nth_error buffs i with
      | None => Raise IndexError
      | Some b => self <- add_buff self b ;; add_buffs_range self buffs (S i) n'
      end
  end.

(** [remove_buffs(buffs, start, end)] *)
Fixpoint remove_buffs_range (self : t) (buffs : list Buff.t) (i n : nat) : Result t :=
  match n with
  | O => Ok self
  | S n' =>
      match nth_error buffs i with
      | None => Raise IndexError
      | Some b => self <- remove_buff self b ;; remove_buffs_range self buffs (S i) n'
      end
  end.

End ModifierCache.

(** The aggregate before any buff: the array and the defaults of
    [NIKKE.generate_cache]. *)
Definition baseline : ModifierCache.t :=
  ModifierCache.mk 100 100 100 110 100 100 0 15 50 100 30 50 0 0 0 0.

(** [NIKKE.generate_cache] with its default arguments. *)
Definition generate_cache (buffs : list Buff.t) : Result ModifierCache.t :=
  ModifierCache.add_buffs baseline buffs.

(** Lines 656-659 of the linearithmic sweep, on the running cache. *)
Definition apply_row (add_buffs sub_buffs : list Buff.t)
    (cache : ModifierCache.t) (row : SweepRow) : Result ModifierCache.t :=
  cache <- (if (add_s row <? add_e row)%nat
            then ModifierCache.add_buffs_range cache add_buffs
                   (add_s row) (add_e row - add_s row)
            else Ok cache) ;;
  if (sub_s row <? sub_e row)%nat
  then ModifierCache.remove_buffs_range cache sub_buffs
         (sub_s row) (sub_e row - sub_s row)
  else Ok cache.

(** The running cache of the linearithmic sweep, row by row. *)
Fixpoint nlogn_caches (add_buffs sub_buffs : list Buff.t)
    (rows : list SweepRow) (cache : ModifierCache.t)
  : Result (list ModifierCache.t) :=
  match rows with
  | [] => Ok []
  | row :: rest =>
      cache <- apply_row add_buffs sub_buffs cache row ;;
      caches <- nlogn_caches add_buffs sub_buffs rest cache ;;
      Ok (cache :: caches)
  end.


(** The cache that [compute_dps_window_n2] builds for the sub-interval
    that starts at [t_0], lines 737-742. *)
Definition n2_cache (buffs : list Buff.t) (t_0 : Q) : Result ModifierCache.t :=
  generate_cache (filter (active_at t_0) buffs).

(** The values of the dict that [compute_damage_matrix] returns. *)
Inductive MatVal : Type :=
| MatArray (rows : list (float * float * float))
| MatEntry (index : nat) (base crit avg : float).

(** [matrix[tag]['avg']] *)
Definition matrix_avg (matrix : Dict MatVal) (tag : string) : Result float :=
  match dict_get matrix tag with
  | None => Raise KeyError
  | Some (MatArray _) => Raise IndexError
  | Some (MatEntry _ _ _ avg) => Ok avg
  end.

(** The loop of [matrix_avg_dmg], lines 548-550. *)
Fixpoint matrix_avg_loop (matrix : Dict MatVal) (tags : Dict Q)
    (total_dmg total_ratio : float) : Result (float * float) :=
  match tags with
  | [] => Ok (total_dmg, total_ratio)
  | (tag, ratio) :: rest =>
      avg <- matrix_avg matrix tag ;;
      matrix_avg_loop matrix rest
        (total_dmg + avg * of_Q ratio) (total_ratio + of_Q ratio)
  end.

(** [NIKKE.matrix_avg_dmg]; the division is by a number that [!=] has
    found different from 0, so it never raises. *)
Definition matrix_avg_dmg (matrix : Dict MatVal) (tags : Dict Q)
    (normalize : bool) : Result float :=
  st <- matrix_avg_loop matrix tags 0 0 ;;
  let '(total_dmg, total_ratio) := st in
  if normalize && negb (total_ratio =? 0)
  then Ok (total_dmg / total_ratio)
  else Ok total_dmg.

(** The double that [stacks] converts to, where it has one. *)
Definition stacks_float (b : Buff.t) : float :=
  match int_to_float (Buff.get_stacks b) with
  | Ok s => s
  | Raise _ => 0%float
  end.

(** The buff dict has none of the thirteen numeric keys. *)
Definition numeric_free (b : Buff.t) : Prop :=
  Buff.attack b = None /\ Buff.charge_dmg b = None
  /\ Buff.full_charge_dmg b = None /\ Buff.damage_taken b = None
  /\ Buff.element_dmg b = None /\ Buff.damage_up b = None
  /\ Buff.defense b = None /\ Buff.flat_atk b = None
  /\ Buff.crit_rate b = None /\ Buff.crit_dmg b = None
  /\ Buff.core_dmg b = None /\ Buff.range_dmg b = None
  /\ Buff.full_burst_dmg b = None.

(** The buffs on which [add_buff] and [remove_buff] do not raise: [stacks]
    has a double, or no product with it is ever formed. *)
Definition accepted (b : Buff.t) : Prop :=
  (exists s, int_to_float (Buff.get_stacks b) = Ok s) \/ numeric_free b.

(** The updates of [add_buff] ([fop] and [zop] the additions) and of
    [remove_buff] (the subtractions) once [stacks] has its double [s]. *)
Definition updated (fop : float -> float -> float) (zop : Z -> Z -> Z)
    (s : float) (self : ModifierCache.t) (buff : Buff.t)
  : ModifierCache.t :=
  let self := if_in (Buff.attack buff) (fun v self =>
    ModifierCache.set_attack self
      (fop (ModifierCache.attack self) (of_Q v * s)%float)) self in
  let self := if_in (Buff.charge_dmg buff) (fun v self =>
    ModifierCache.set_charge_dmg self
      (fop (ModifierCache.charge_dmg self) (of_Q v * s)%float)) self in
  let self := if_in (Buff.full_charge_dmg buff) (fun v self =>
    ModifierCache.set_charge_dmg self
      (fop (ModifierCache.charge_dmg self)
         ((of_Q v - 100) * s)%float)) self in
  let self := if_in (Buff.damage_taken buff) (fun v self =>
    ModifierCache.set_damage_taken self
      (fop (ModifierCache.damage_taken self) (of_Q v * s)%float)) self in
  let self := if_in (Buff.element_dmg buff) (fun v self =>
    ModifierCache.set_element_dmg self
      (fop (ModifierCache.element_dmg self) (of_Q v * s)%float)) self in
  let self := if_in (Buff.damage_up buff) (fun v self =>
    ModifierCache.set_damage_up self
      (fop (ModifierCache.damage_up self) (of_Q v * s)%float)) self in
  let self := if_in (Buff.defense buff) (fun v self =>
    ModifierCache.set_defense self
      (fop (ModifierCache.defense self) (of_Q v * s)%float)) self in
  let self := if_in (Buff.flat_atk buff) (fun v self =>
    ModifierCache.set_flat_atk self
      (fop (ModifierCache.flat_atk self) (of_Q v * s)%float)) self in
  let self := if_in (Buff.crit_rate buff) (fun v self =>
    ModifierCache.set_crit_rate self
      (fop (ModifierCache.crit_rate self) (of_Q v * s)%float)) self in
  let self := if_in (Buff.crit_dmg buff) (fun v self =>
    ModifierCache.set_crit_dmg self
      (fop (ModifierCache.crit_dmg self) (of_Q v * s)%float)) self in
  let self := if_in (Buff.core_dmg buff) (fun v self =>
    ModifierCache.set_crit_dmg self
      (fop (ModifierCache.crit_dmg self) (of_Q v * s)%float)) self in
  let self := if_in (Buff.range_dmg buff) (fun v self =>
    ModifierCache.set_crit_dmg self
      (fop (ModifierCache.crit_dmg self) (of_Q v * s)%float)) self in
  let self := if_in (Buff.full_burst_dmg buff) (fun v self =>
    ModifierCache.set_crit_dmg self
      (fop (ModifierCache.crit_dmg self) (of_Q v * s)%float)) self in
  let self := if_in (Buff.core_hit buff) (fun val self =>
    ModifierCache.set_core_hit self
      (zop (ModifierCache.core_hit self) (flag_amount val))) self in
  let self := if_in (Buff.range_bonus buff) (fun val self =>
    ModifierCache.set_range_bonus self
      (zop (ModifierCache.range_bonus self) (flag_amount val))) self in
  let self := if_in (Buff.full_burst buff) (fun val self =>
    ModifierCache.set_full_burst self
      (zop (ModifierCache.full_burst self) (flag_amount val))) self in
  let self := if_in (Buff.element_bonus buff) (fun val self =>
    ModifierCache.set_element_bonus self
      (zop (ModifierCache.element_bonus self) (flag_amount val))) self in
  self.



(** The four override counters of the aggregate. *)
Definition counters (c : ModifierCache.t) : Z * Z * Z * Z :=
  (ModifierCache.core_hit c, ModifierCache.range_bonus c,
   ModifierCache.full_burst c, ModifierCache.element_bonus c).



(** The average-damage entry keyed by [label], 0 when there is none. *)
Definition avg_entry (matrix : Dict MatVal) (label : string) : float :=
  match dict_get matrix label with
  | Some (MatEntry _ _ _ avg) => avg
  | _ => 0
  end.

(** The weighted sum of the average-damage entries and the sum of the
    weights, each accumulated from 0 in the order of the weight map. *)
Definition weighted_sum (matrix : Dict MatVal) (tags : Dict Q) : float :=
  fold_left (fun acc '(label, ratio) => acc + avg_entry matrix label * of_Q ratio)
    tags 0.

Definition weight_total (tags : Dict Q) : float :=
  fold_left (fun acc '(_, ratio) => acc + of_Q ratio) tags 0.


End Double.

(* ------------------------------------------------------------------ *)
(** ** The invariant of the running aggregate, in the specification's words *)



(** What an override flag counts: a boolean set counts as 1, an explicit
    integer as that many. *)
Definition spec_count (key : option PyVal) : Z :=
  match key with
  | None => 0%Z
  | Some (PyInt n) => n
  | Some (PyBool true) => 1%Z
  | Some (PyBool false) => 0%Z
  | Some PyOther => 1%Z
  end.



Definition Zsum (l : list Z) : Z := fold_right Z.add 0%Z l.

(** The four override counters that a list of buffs amounts to. *)
Definition spec_counters (l : list Buff.t) : Z * Z * Z * Z :=
  (Zsum (map (fun b => spec_count (Buff.core_hit b)) l),
   Zsum (map (fun b => spec_count (Buff.range_bonus b)) l),
   Zsum (map (fun b => spec_count (Buff.full_burst b)) l),
   Zsum (map (fun b => spec_count (Buff.element_bonus b)) l)).



(** The four override counters of an aggregate of the rational model. *)
Definition exact_counters (c : ModifierCache.t) : Z * Z * Z * Z :=
  (ModifierCache.core_hit c, ModifierCache.range_bonus c,
   ModifierCache.full_burst c, ModifierCache.element_bonus c).

(** Inputs of the double-precision scenarios: a buff of crit rate [v], and
    an outcome matrix with the entries of two labels. *)
Definition crit_rate_buff (s e : Instant) (v : Q) : Buff.t :=
  Buff.mk s e None None None None None None None None None (Some v) None
    None None None None None None None.







(** The sum of two quadruples of counters. *)
Definition counters_plus (a b : Z * Z * Z * Z) : Z * Z * Z * Z :=
  let '(a1, a2, a3, a4) := a in
  let '(b1, b2, b3, b4) := b in
  ((a1 + b1)%Z, (a2 + b2)%Z, (a3 + b3)%Z, (a4 + b4)%Z).



(** Three buffs of crit rate, in two orders. *)
Definition crit_rates_in_order : list Buff.t :=
  [crit_rate_buff (Fin 0) (Fin 5) (261 # 10);
   crit_rate_buff (Fin 0) (Fin 5) (421 # 100);
   crit_rate_buff (Fin 0) (Fin 5) (319 # 10)].

Definition crit_rates_swapped : list Buff.t :=
  [crit_rate_buff (Fin 0) (Fin 5) (261 # 10);
   crit_rate_buff (Fin 0) (Fin 5) (319 # 10);
   crit_rate_buff (Fin 0) (Fin 5) (421 # 100)].

(* ================================================================== *)
(** * Properties *)

(* ------------------------------------------------------------------ *)
(** ** Comparisons *)

Lemma Qlt_bool_iff (a b : Q) : Qlt_bool a b = true <-> a < b.
Proof.
  unfold Qlt_bool. rewrite negb_true_iff. split.
  - intro H. apply Qnot_le_lt. intro Hle.
    apply Qle_bool_iff in Hle. congruence.
  - intro H. destruct (Qle_bool b a) eqn:E; [|reflexivity].
    apply Qle_bool_iff in E. exfalso. apply (Qlt_not_le _ _ H E).
Qed.

Lemma Qlt_bool_false_iff (a b : Q) : Qlt_bool a b = false <-> b <= a.
Proof.
  unfold Qlt_bool. rewrite negb_false_iff. apply Qle_bool_iff.
Qed.

Lemma Qle_bool_refl (a : Q) : Qle_bool a a = true.
Proof. apply Qle_bool_iff. apply Qle_refl. Qed.

Lemma Tleb_iff (a b : Instant) : Tleb a b = true <-> Tle a b.
Proof.
  destruct a, b; simpl; try tauto; try (split; [discriminate|contradiction]).
  apply Qle_bool_iff.
Qed.

Lemma Tltb_iff (a b : Instant) : Tltb a b = true <-> Tlt a b.
Proof.
  destruct a, b; simpl; try tauto; try (split; [discriminate|contradiction]).
  apply Qlt_bool_iff.
Qed.

Lemma Tle_trans (a b c : Instant) : Tle a b -> Tle b c -> Tle a c.
Proof.
  destruct a, b, c; simpl; try tauto. apply Qle_trans.
Qed.

Lemma Tlt_le_trans (a b c : Instant) : Tlt a b -> Tle b c -> Tlt a c.
Proof.
  destruct a, b, c; simpl; try tauto. apply Qlt_le_trans.
Qed.

Lemma Tleb_false_iff (a b : Instant) : Tleb a b = false <-> Tlt b a.
Proof.
  destruct a, b; simpl; try tauto;
    try (split; [discriminate|contradiction]).
  rewrite <- Qlt_bool_iff. unfold Qlt_bool. rewrite negb_true_iff. tauto.
Qed.

Lemma Tltb_negb_Tleb (a b : Instant) : Tltb a b = negb (Tleb b a).
Proof. destruct a, b; reflexivity. Qed.

Lemma Tleb_total (a b : Instant) : Tleb a b = false -> Tleb b a = true.
Proof.
  destruct a, b; simpl; try reflexivity; try discriminate.
  intro H. apply Qle_bool_iff. apply Qlt_le_weak. apply Qlt_bool_iff.
  unfold Qlt_bool. now rewrite H.
Qed.

(* ------------------------------------------------------------------ *)
(** ** The aggregate, field by field *)

Lemma if_in_frame {A S X : Type} (p : S -> X) (key : option A)
    (body : A -> S -> S) (self : S) :
  (forall v s, p (body v s) = p s) -> p (if_in key body self) = p self.
Proof. intro H. destruct key; simpl; auto. Qed.

Lemma if_in_step {A S X : Type} (p : S -> X) (key : option A)
    (body : A -> S -> S) (self : S) :
  p (if_in key body self) =
  match key with
  | Some v => p (body v self)
  | None => p self
  end.
Proof. destruct key; reflexivity. Qed.

Lemma cache_eq_fields (a b : ModifierCache.t) :
  cache_eq a b <-> forall f, field_value f a == field_value f b.
Proof.
  split.
  - intros H f. unfold cache_eq in H.
    destruct f; simpl; try tauto;
      match goal with |- inject_Z ?x == inject_Z ?y =>
        replace x with y by (symmetry; tauto); reflexivity end.
  - intro H. unfold cache_eq.
    pose proof (H FAttack). pose proof (H FChargeDmg). pose proof (H FDamageTaken).
    pose proof (H FElementDmg). pose proof (H FDamageUp). pose proof (H FDefense).
    pose proof (H FFlatAtk). pose proof (H FCritRate). pose proof (H FCritDmg).
    pose proof (H FCoreDmg). pose proof (H FRangeDmg). pose proof (H FFullBurstDmg).
    pose proof (H FCoreHit) as Hc. pose proof (H FRangeBonus) as Hr.
    pose proof (H FFullBurst) as Hf. pose proof (H FElementBonus) as He.
    simpl in *. rewrite inject_Z_injective in Hc, Hr, Hf, He. tauto.
Qed.

Ltac peel p :=
  repeat first
    [ rewrite (if_in_frame p) by (intros; reflexivity)
    | rewrite (if_in_step p) ].

Lemma inject_Z_sub (a b : Z) : inject_Z (a - b) == inject_Z a - inject_Z b.
Proof.
  unfold Z.sub. rewrite inject_Z_plus, inject_Z_opp. reflexivity.
Qed.

Ltac split_keys :=
  repeat match goal with
         | |- context [match ?k with Some _ => _ | None => _ end] => destruct k
         end.

Ltac close_field :=
  split_keys; simpl;
  rewrite ?inject_Z_plus, ?inject_Z_sub; ring.

Lemma add_buff_field (f : Field) (c : ModifierCache.t) (b : Buff.t) :
  field_value f (ModifierCache.add_buff c b)
  == field_value f c + effect f b.
Proof.
  unfold ModifierCache.add_buff; cbv zeta.
  destruct f; cbn [field_value effect]; unfold scaled, counted, option_map.
  - peel ModifierCache.attack; close_field.
  - peel ModifierCache.charge_dmg; close_field.
  - peel ModifierCache.damage_taken; close_field.
  - peel ModifierCache.element_dmg; close_field.
  - peel ModifierCache.damage_up; close_field.
  - peel ModifierCache.defense; close_field.
  - peel ModifierCache.flat_atk; close_field.
  - peel ModifierCache.crit_rate; close_field.
  - peel ModifierCache.crit_dmg; close_field.
  - peel ModifierCache.core_dmg; close_field.
  - peel ModifierCache.range_dmg; close_field.
  - peel ModifierCache.full_burst_dmg; close_field.
  - peel ModifierCache.core_hit; close_field.
  - peel ModifierCache.range_bonus; close_field.
  - peel ModifierCache.full_burst; close_field.
  - peel ModifierCache.element_bonus; close_field.
Qed.

Lemma remove_buff_field (f : Field) (c : ModifierCache.t) (b : Buff.t) :
  field_value f (ModifierCache.remove_buff c b)
  == field_value f c - effect f b.
Proof.
  unfold ModifierCache.remove_buff; cbv zeta.
  destruct f; cbn [field_value effect]; unfold scaled, counted, option_map.
  - peel ModifierCache.attack; close_field.
  - peel ModifierCache.charge_dmg; close_field.
  - peel ModifierCache.damage_taken; close_field.
  - peel ModifierCache.element_dmg; close_field.
  - peel ModifierCache.damage_up; close_field.
  - peel ModifierCache.defense; close_field.
  - peel ModifierCache.flat_atk; close_field.
  - peel ModifierCache.crit_rate; close_field.
  - peel ModifierCache.crit_dmg; close_field.
  - peel ModifierCache.core_dmg; close_field.
  - peel ModifierCache.range_dmg; close_field.
  - peel ModifierCache.full_burst_dmg; close_field.
  - peel ModifierCache.core_hit; close_field.
  - peel ModifierCache.range_bonus; close_field.
  - peel ModifierCache.full_burst; close_field.
  - peel ModifierCache.element_bonus; close_field.
Qed.

(* ------------------------------------------------------------------ *)
(** ** The damage formula *)

(** C2.  At attack 100000, defense 10000, no buffs, skill multiplier 100
    and no situational flag, [compute_damage] returns base damage 110000
    and average damage 118250: the defense term is negated and then
    subtracted, so it is added to the attack.  The values 90000 and 96750
    of the scenario are not what the code returns. *)
Theorem compute_damage_scenario :
  let r := compute_damage 100 100000 10000 [] false false false false None in
  (dmg_base r == 110000 /\ dmg_avg r == 118250)
  /\ ~ dmg_base r == 90000 /\ ~ dmg_avg r == 96750.
Proof.
  unfold Qeq. vm_compute.
  repeat split; intro H; discriminate H.
Qed.

(** Where the range bonus is inactive the code's base modifier is the
    specified one. *)
Lemma base_mod_without_range (calc : ModifierCache.t) (core_hit full_burst : bool) :
  (ModifierCache.range_bonus calc <= 0)%Z ->
  base_mod calc core_hit false full_burst
  == base_mod_spec calc core_hit false full_burst.
Proof.
  intro H. unfold base_mod, base_mod_spec. cbv zeta.
  replace (0 <? ModifierCache.range_bonus calc)%Z with false
    by (symmetry; apply Z.ltb_ge; exact H).
  simpl.
  destruct (core_hit || (0 <? ModifierCache.core_hit calc)%Z);
    destruct (full_burst || (0 <? ModifierCache.full_burst calc)%Z); ring.
Qed.

(** What the range branch adds: the override counter, not [range_dmg]. *)
Lemma base_mod_range_only (calc : ModifierCache.t) :
  (ModifierCache.core_hit calc <= 0)%Z ->
  (ModifierCache.full_burst calc <= 0)%Z ->
  base_mod calc false true false
  == 1 + inject_Z (ModifierCache.range_bonus calc) / 100.
Proof.
  intros Hc Hf. unfold base_mod. cbv zeta.
  replace (0 <? ModifierCache.core_hit calc)%Z with false
    by (symmetry; apply Z.ltb_ge; exact Hc).
  replace (0 <? ModifierCache.full_burst calc)%Z with false
    by (symmetry; apply Z.ltb_ge; exact Hf).
  simpl. reflexivity.
Qed.

(** C3.  With the range bonus requested on the baseline aggregate
    ([range_dmg] 30, counter 0) the code's base modifier is 1, where the
    specified one is 1 + 30/100: the range branch adds the override counter
    [range_bonus] divided by 100 instead of [range_dmg] divided by 100. *)
Theorem base_mod_range_bonus_scenario :
  base_mod (generate_cache []) false true false == 1
  /\ base_mod_spec (generate_cache []) false true false == 13 # 10
  /\ ~ base_mod (generate_cache []) false true false
       == base_mod_spec (generate_cache []) false true false.
Proof.
  unfold Qeq. vm_compute.
  repeat split; intro H; discriminate H.
Qed.

(* ------------------------------------------------------------------ *)
(** ** The outcome matrix *)

Lemma compute_damage_matrix_unfold (damage attack defense : Q)
    (buffs : option (list Buff.t)) (cache : option ModifierCache.t) :
  fst (compute_damage_matrix damage attack defense buffs cache)
  = matrix_of (fun c r f e =>
      compute_damage damage attack defense [] c r f e
        (Some (matrix_cache buffs cache))).
Proof.
  unfold compute_damage_matrix, matrix_of, matrix_cache.
  destruct cache as [c|]; simpl option_map; cbv iota;
    match goal with
    | |- fst (let '(ret, index) := ?x in _) = fst ?y =>
        change x with y; destruct y; reflexivity
    end.
Qed.

(** The caller's cache is left as it was when no buffs are passed. *)
Lemma compute_damage_matrix_cache (damage attack defense : Q)
    (cache : ModifierCache.t) :
  snd (compute_damage_matrix damage attack defense None (Some cache)) = Some cache.
Proof.
  unfold compute_damage_matrix. simpl option_map. cbv iota zeta.
  match goal with
  | |- snd (let '(ret, index) := ?x in _) = _ => destruct x; reflexivity
  end.
Qed.

Lemma matrix_of_keys (dmg : bool -> bool -> bool -> bool -> Dmg3) :
  dict_keys (matrix_of dmg) = "matrix"%string :: canonical_labels.
Proof. vm_compute. reflexivity. Qed.

Lemma matrix_of_entry (dmg : bool -> bool -> bool -> bool -> Dmg3)
    (c r f e : bool) :
  dict_get (matrix_of dmg) (get_bonus_tag c r f e)
  = Some (MatEntry (combo_index c r f e)
            (dmg_base (dmg c r f e)) (dmg_crit (dmg c r f e))
            (dmg_avg (dmg c r f e))).
Proof. destruct c, r, f, e; vm_compute; reflexivity. Qed.

Lemma matrix_of_array (dmg : bool -> bool -> bool -> bool -> Dmg3) :
  exists rows,
    dict_get (matrix_of dmg) "matrix" = Some (MatArray rows)
    /\ forall c r f e, nth_error rows (combo_index c r f e) = Some (dmg c r f e).
Proof.
  eexists. split.
  - vm_compute. reflexivity.
  - intros c r f e. destruct c, r, f, e; reflexivity.
Qed.

Lemma canonical_labels_NoDup : NoDup canonical_labels.
Proof.
  vm_compute.
  repeat (constructor; [simpl; intuition discriminate|]).
  constructor.
Qed.

Lemma get_bonus_tag_base (c r f e : bool) :
  get_bonus_tag c r f e = "base"%string
  <-> (c, r, f, e) = (false, false, false, false).
Proof.
  destruct c, r, f, e; vm_compute; split; intro H;
    solve [reflexivity | discriminate H].
Qed.

(** C10.  [compute_damage_matrix] evaluates the 16 combinations of
    (core_hit, range_bonus, full_burst, element_bonus) in the nesting order
    core, range, full_burst, element: its keys are ['matrix'] and then the
    16 tag labels in that order, the labels are pairwise distinct, the
    entry of each combination carries the index
    [8*core + 4*range + 2*full_burst + element] and the three damages of
    that combination (so no entry was overwritten), row [index] of the
    array holds the same damages, and the label is "base" exactly when all
    four flags are false. *)
Theorem compute_damage_matrix_complete (damage attack defense : Q)
    (buffs : option (list Buff.t)) (cache : option ModifierCache.t) :
  let m := fst (compute_damage_matrix damage attack defense buffs cache) in
  let dmg c r f e :=
    compute_damage damage attack defense [] c r f e
      (Some (matrix_cache buffs cache)) in
  dict_keys m = "matrix"%string :: canonical_labels
  /\ List.length canonical_labels = 16%nat
  /\ NoDup canonical_labels
  /\ (forall c r f e,
        nth_error canonical_labels (combo_index c r f e)
        = Some (get_bonus_tag c r f e))
  /\ (forall c r f e,
        dict_get m (get_bonus_tag c r f e)
        = Some (MatEntry (combo_index c r f e)
                  (dmg_base (dmg c r f e)) (dmg_crit (dmg c r f e))
                  (dmg_avg (dmg c r f e))))
  /\ (exists rows,
        dict_get m "matrix" = Some (MatArray rows)
        /\ forall c r f e,
             nth_error rows (combo_index c r f e) = Some (dmg c r f e))
  /\ (forall c r f e,
        get_bonus_tag c r f e = "base"%string
        <-> (c, r, f, e) = (false, false, false, false)).
Proof.
  intros m dmg. subst m.
  rewrite compute_damage_matrix_unfold. fold dmg.
  split; [apply matrix_of_keys|].
  split; [reflexivity|].
  split; [apply canonical_labels_NoDup|].
  split; [intros c r f e; destruct c, r, f, e; reflexivity|].
  split; [intros c r f e; apply matrix_of_entry|].
  split; [apply matrix_of_array|].
  apply get_bonus_tag_base.
Qed.

(* ------------------------------------------------------------------ *)
(** ** Blending the matrix: [matrix_avg_dmg] *)

Lemma dict_get_absent {V : Type} (d : Dict V) (k : string) :
  ~ In k (dict_keys d) -> dict_get d k = None.
Proof.
  induction d as [|[k' v] d IH]; simpl; intro H; [reflexivity|].
  destruct (String.eqb k' k) eqn:E.
  - apply String.eqb_eq in E. tauto.
  - apply IH. tauto.
Qed.

Lemma matrix_avg_unknown (dmg : bool -> bool -> bool -> bool -> Dmg3)
    (label : string) :
  ~ In label canonical_labels -> raises (matrix_avg (matrix_of dmg) label).
Proof.
  intro H. unfold matrix_avg.
  destruct (String.eqb label "matrix") eqn:E.
  - apply String.eqb_eq in E. subst label.
    destruct (matrix_of_array dmg) as [rows [Hrows _]].
    rewrite Hrows. exists IndexError. reflexivity.
  - rewrite dict_get_absent; [exists KeyError; reflexivity|].
    rewrite matrix_of_keys. intro Hin. apply in_inv in Hin.
    destruct Hin as [H0|H0]; [|exact (H H0)].
    subst label. rewrite String.eqb_refl in E. discriminate.
Qed.


Lemma matrix_avg_loop_raises (matrix : Dict MatVal) (tags : Dict Q)
    (label : string) (ratio : Q) :
  In (label, ratio) tags -> raises (matrix_avg matrix label) ->
  forall total_dmg total_ratio,
    raises (matrix_avg_loop matrix tags total_dmg total_ratio).
Proof.
  intros Hin [e He].
  induction tags as [|[tag w] tags IH]; intros td tr; [contradiction|].
  simpl. destruct (matrix_avg matrix tag) as [avg|e'] eqn:E; simpl.
  - destruct Hin as [Heq|Hin].
    + inversion Heq; subst. congruence.
    + apply IH. exact Hin.
  - exists e'. reflexivity.
Qed.



Lemma accumulate_avg_dmg_fst (damage attack defense : Q)
    (buffs : option (list Buff.t)) (tags : Dict Q) (normalize : bool)
    (cache : option ModifierCache.t) :
  fst (accumulate_avg_dmg damage attack defense buffs tags normalize cache)
  = matrix_avg_dmg
      (fst (compute_damage_matrix damage attack defense buffs cache))
      tags normalize.
Proof.
  unfold accumulate_avg_dmg.
  destruct (compute_damage_matrix damage attack defense buffs cache).
  reflexivity.
Qed.

Lemma accumulate_avg_dmg_snd (damage attack defense : Q)
    (buffs : option (list Buff.t)) (tags : Dict Q) (normalize : bool)
    (cache : option ModifierCache.t) :
  snd (accumulate_avg_dmg damage attack defense buffs tags normalize cache)
  = snd (compute_damage_matrix damage attack defense buffs cache).
Proof.
  unfold accumulate_avg_dmg.
  destruct (compute_damage_matrix damage attack defense buffs cache).
  reflexivity.
Qed.

(** C9.  A weight map with a label that is not one of the 16 canonical
    labels makes [matrix_avg_dmg] raise on the matrix that
    [compute_damage_matrix] built ([KeyError], or [IndexError] for the
    label "matrix", whose value is the array), and so [accumulate_avg_dmg]
    raises as well: no contribution is silently taken as zero. *)
Theorem matrix_avg_dmg_unknown_label (damage attack defense : Q)
    (buffs : option (list Buff.t)) (cache : option ModifierCache.t)
    (tags : Dict Q) (normalize : bool) (label : string) (ratio : Q) :
  In (label, ratio) tags ->
  ~ In label canonical_labels ->
  raises (matrix_avg_dmg
            (fst (compute_damage_matrix damage attack defense buffs cache))
            tags normalize)
  /\ raises (fst (accumulate_avg_dmg damage attack defense buffs tags
                    normalize cache)).
Proof.
  intros Hin Hlabel.
  rewrite accumulate_avg_dmg_fst.
  assert (raises (matrix_avg_dmg
            (fst (compute_damage_matrix damage attack defense buffs cache))
            tags normalize)) as Hr; [|split; exact Hr].
  rewrite compute_damage_matrix_unfold.
  unfold matrix_avg_dmg.
  match goal with
  | |- context [matrix_of ?d] =>
      destruct (matrix_avg_loop_raises (matrix_of d) tags label ratio Hin
                  (matrix_avg_unknown d label Hlabel) 0 0) as [e He]
  end.
  rewrite He. exists e. reflexivity.
Qed.

Lemma matrix_avg_dmg_unknown_label_witness :
  (In ("weakpoint"%string, 1) unknown_label_tags
   /\ ~ In "weakpoint"%string canonical_labels)
  /\ raises (matrix_avg_dmg
               (fst (compute_damage_matrix 100 100000 10000 None None))
               unknown_label_tags true)
  /\ raises (fst (accumulate_avg_dmg 100 100000 10000 None unknown_label_tags
                    true None)).
Proof.
  assert (Hin : In ("weakpoint"%string, 1) unknown_label_tags)
    by (right; left; reflexivity).
  assert (Hlabel : ~ In "weakpoint"%string canonical_labels)
    by (vm_compute; intuition discriminate).
  split; [split; assumption|].
  exact (matrix_avg_dmg_unknown_label 100 100000 10000 None None
           unknown_label_tags true "weakpoint"%string 1 Hin Hlabel).
Defined.

(* ------------------------------------------------------------------ *)
(** ** Zero-width windows *)

Lemma add_time_point_empty_window (w : Q) (t : Instant) (l : list Q) :
  add_time_point (Fin w) (Fin w) t l = l.
Proof.
  unfold add_time_point. destruct t as [|x|]; try reflexivity.
  simpl. destruct (Qlt_bool w x) eqn:E1; [|reflexivity].
  destruct (Qlt_bool x w) eqn:E2; [|reflexivity].
  apply Qlt_bool_iff in E1. apply Qlt_bool_iff in E2. lra.
Qed.

Lemma get_unique_times_empty_window (buffs : list Buff.t) (w : Q) :
  get_unique_times buffs (Fin w) (Fin w) = [w; w].
Proof.
  unfold get_unique_times. simpl app.
  generalize [w; w] as l.
  induction buffs as [|b buffs IH]; intro l; simpl; [reflexivity|].
  rewrite !add_time_point_empty_window. apply IH.
Qed.

Lemma np_sum_zeros (n : nat) : np_sum (repeat 0 n) == 0.
Proof.
  unfold np_sum. induction n as [|n IH]; simpl; [reflexivity|exact IH].
Qed.

(** C7, as amended.  When [window_start] equals [window_end] (a finite
    point), the quadratic sweep builds no sub-interval and returns 0 for
    every damage tag, sustained or instantaneous: the per-tag vector is all
    zeros and the total is 0. *)
Theorem n2_zero_width_window (damage_tags : list DamageTag.t)
    (attack defense : Q) (buffs : list Buff.t) (w : Q)
    (accumulate normalize : bool) :
  compute_dps_window_n2 damage_tags attack defense buffs (Fin w) (Fin w)
    accumulate normalize
  = Ok (finish accumulate (repeat 0 (List.length damage_tags)))
  /\ np_sum (repeat 0 (List.length damage_tags)) == 0.
Proof.
  split; [|apply np_sum_zeros].
  unfold compute_dps_window_n2.
  rewrite get_unique_times_empty_window.
  simpl. rewrite !Qle_bool_refl. simpl. rewrite !Qle_bool_refl.
  reflexivity.
Qed.

(** C7, the claim as stated fails: with the window [5, 5] and an
    instantaneous tag that starts exactly at 5, the quadratic sweep returns
    0 for the tag, although the average damage of the tag on the baseline
    aggregate is 118250. *)
Lemma n2_zero_width_instant_tag_lost :
  compute_dps_window_n2 [instant_tag 5] 100000 10000 [] (Fin 5) (Fin 5)
    false true
  = Ok (PerTag [0])
  /\ exists avg,
       fst (accumulate_avg_dmg 100 100000 10000 None [("base"%string, 1)]
              true (Some (generate_cache []))) = Ok avg
       /\ avg == 118250 /\ ~ avg == 0.
Proof.
  split; [vm_compute; reflexivity|].
  eexists. split; [vm_compute; reflexivity|].
  split; [vm_compute; reflexivity|].
  vm_compute. discriminate.
Qed.

(** The linearithmic sweep keeps the zero-width row [[5, 5]]: there the
    instantaneous tag at 5 is skipped ([start >= t_1]) and a sustained tag
    that straddles the point is counted once, unscaled. *)
Example nlogn_zero_width_rows :
  Result_eq Dps_eq
    (compute_dps_window_nlogn [instant_tag 5; sustained_tag 0 10]
       100000 10000 [] (Fin 5) (Fin 5) false true)
    (Ok (PerTag [0; 118250])).
Proof.
  vm_compute. repeat constructor.
Qed.

(* ------------------------------------------------------------------ *)
(** ** Where the linearithmic sweep stops *)

(** C5.  With the single buff [start=-inf, end=+inf] and the finite window
    [0, 10], the add cursor of the linearithmic sweep passes the only buff
    and reads [add_buffs[1]]: [compute_dps_window_nlogn] raises
    [IndexError], with or without damage tags, while the quadratic sweep
    completes on the same input. *)
Theorem nlogn_infinite_buff_raises :
  compute_dps_window_nlogn [] 100000 10000 [infinite_buff] (Fin 0) (Fin 10)
    true true = Raise IndexError
  /\ compute_dps_window_nlogn [instant_tag 5] 100000 10000 [infinite_buff]
       (Fin 0) (Fin 10) true true = Raise IndexError
  /\ Result_eq Dps_eq
       (compute_dps_window_n2 [instant_tag 5] 100000 10000 [infinite_buff]
          (Fin 0) (Fin 10) true true)
       (Ok (Total 139750)).
Proof.
  split; [vm_compute; reflexivity|].
  split; vm_compute; reflexivity.
Qed.

(** C1.  Two buffs of attack +20 that both cover the window [0, 10], one
    instantaneous tag at 5: the quadratic sweep returns 161250 (aggregate
    attack 140), the linearithmic sweep raises [IndexError] because at the
    first time point every buff has already started.  The two do not
    return equal results. *)
Theorem sweeps_differ_on_overlapping_buffs :
  let buffs := [attack_buff (Fin 0) (Fin 10) 20; attack_buff (Fin 0) (Fin 10) 20] in
  Result_eq Dps_eq
    (compute_dps_window_n2 [instant_tag 5] 100000 10000 buffs (Fin 0) (Fin 10)
       true true)
    (Ok (Total 161250))
  /\ compute_dps_window_nlogn [instant_tag 5] 100000 10000 buffs (Fin 0) (Fin 10)
       true true = Raise IndexError
  /\ ~ Result_eq Dps_eq
         (compute_dps_window_n2 [instant_tag 5] 100000 10000 buffs
            (Fin 0) (Fin 10) true true)
         (compute_dps_window_nlogn [instant_tag 5] 100000 10000 buffs
            (Fin 0) (Fin 10) true true).
Proof.
  cbv zeta.
  split; [vm_compute; reflexivity|].
  split; [vm_compute; reflexivity|].
  vm_compute. tauto.
Qed.

(* ------------------------------------------------------------------ *)
(** ** Sorted views and sums of effects *)

Lemma In_skipn_In {A : Type} (n : nat) (l : list A) (x : A) :
  In x (skipn n l) -> In x l.
Proof.
  intro H. rewrite <- (firstn_skipn n l). apply in_or_app. right. exact H.
Qed.

Section SortedBy.

Variable key : Buff.t -> Instant.

Lemma insert_by_perm (x : Buff.t) (l : list Buff.t) :
  Permutation (insert_by key x l) (x :: l).
Proof.
  induction l as [|y l IH]; simpl; [apply Permutation_refl|].
  destruct (Tleb (key x) (key y)); [apply Permutation_refl|].
  eapply Permutation_trans; [apply perm_skip, IH|apply perm_swap].
Qed.

Lemma sorted_by_perm (l : list Buff.t) : Permutation (sorted_by key l) l.
Proof.
  induction l as [|x l IH]; simpl; [apply perm_nil|].
  eapply Permutation_trans; [apply insert_by_perm|apply perm_skip, IH].
Qed.

Lemma insert_by_sorted (x : Buff.t) (l : list Buff.t) :
  StronglySorted (key_le key) l ->
  StronglySorted (key_le key) (insert_by key x l).
Proof.
  induction 1 as [|y l Hs IH Hy]; simpl.
  - constructor; constructor.
  - destruct (Tleb (key x) (key y)) eqn:E.
    + apply Tleb_iff in E. constructor.
      * constructor; assumption.
      * constructor; [exact E|].
        eapply Forall_impl; [|exact Hy].
        intros z Hz. unfold key_le in *. eapply Tle_trans; eassumption.
    + constructor; [exact IH|].
      apply Tleb_total in E. apply Tleb_iff in E.
      eapply Permutation_Forall;
        [apply Permutation_sym, insert_by_perm|].
      constructor; assumption.
Qed.

Lemma sorted_by_sorted (l : list Buff.t) :
  StronglySorted (key_le key) (sorted_by key l).
Proof.
  induction l as [|x l IH]; simpl; [constructor|].
  apply insert_by_sorted, IH.
Qed.

(** On a sorted list the buffs passed at [t] are a prefix, and every buff
    after it has a key beyond [t]. *)
Lemma passed_prefix (t : Q) (l : list Buff.t) :
  StronglySorted (key_le key) l ->
  filter (passed key t) l = firstn (count_passed key t l) l
  /\ Forall (fun b => passed key t b = false) (skipn (count_passed key t l) l).
Proof.
  unfold count_passed.
  induction 1 as [|x l Hs IH Hx]; simpl; [split; [reflexivity|constructor]|].
  destruct (passed key t x) eqn:E; simpl.
  - destruct IH as [IH1 IH2]. split; [f_equal; exact IH1|exact IH2].
  - assert (Hall : Forall (fun b => passed key t b = false) l).
    { eapply Forall_impl; [|exact Hx]. intros y Hy.
      unfold passed in *. apply Tleb_false_iff. apply Tleb_false_iff in E.
      eapply Tlt_le_trans; eassumption. }
    assert (Hnil : filter (passed key t) l = []).
    { clear -Hall. induction Hall as [|y l Hy _ IH]; simpl; [reflexivity|].
      rewrite Hy. exact IH. }
    rewrite Hnil. simpl. split; [reflexivity|].
    constructor; assumption.
Qed.

Lemma count_passed_le_length (t : Q) (l : list Buff.t) :
  (count_passed key t l <= List.length l)%nat.
Proof. apply filter_length_le. Qed.

Lemma count_passed_mono (t t' : Q) (l : list Buff.t) :
  t <= t' -> (count_passed key t l <= count_passed key t' l)%nat.
Proof.
  intro H. unfold count_passed.
  induction l as [|x l IH]; simpl; [lia|].
  destruct (passed key t x) eqn:E.
  - assert (E' : passed key t' x = true).
    { unfold passed in *. apply Tleb_iff. apply Tleb_iff in E.
      eapply Tle_trans; [exact E|exact H]. }
    rewrite E'. simpl. lia.
  - destruct (passed key t' x); simpl; lia.
Qed.

(** The cursor loop on a list split into passed buffs and others. *)
Lemma advance_cursor_split (t : Q) (le gt : list Buff.t) (index : nat) :
  Forall (fun b => passed key t b = true) le ->
  Forall (fun b => passed key t b = false) gt ->
  advance_cursor key t (le ++ gt) index
  = match gt with
    | [] => Raise IndexError
    | _ :: _ => Ok (index + List.length le)%nat
    end.
Proof.
  intros Hle Hgt. revert index.
  induction Hle as [|x le Hx _ IH]; intro index; simpl.
  - destruct Hgt as [|y gt Hy _]; [reflexivity|]. simpl.
    unfold Tgeb. unfold passed in Hy. rewrite Hy. f_equal. lia.
  - unfold Tgeb. unfold passed in Hx. rewrite Hx. rewrite IH.
    destruct gt; [reflexivity|]. f_equal. lia.
Qed.

(** The guarded cursor loop, on a sorted list and from a cursor that has
    not run ahead: it stops at the number of buffs passed, and raises
    exactly when it has to pass the last buff. *)
Lemma guarded_advance_sorted (t : Q) (l : list Buff.t) (index : nat) :
  StronglySorted (key_le key) l ->
  (index <= count_passed key t l)%nat ->
  guarded_advance key t l index
  = if ((index <? List.length l) && (count_passed key t l =? List.length l))%nat
    then Raise IndexError
    else Ok (count_passed key t l).
Proof.
  intros Hs Hidx.
  pose proof (count_passed_le_length t l) as Hlen.
  destruct (passed_prefix t l Hs) as [Hpre Hrest].
  set (c := count_passed key t l) in *.
  unfold guarded_advance.
  destruct (index <? List.length l)%nat eqn:E; simpl.
  - apply Nat.ltb_lt in E.
    assert (Hsplit : skipn index l = skipn index (firstn c l) ++ skipn c l).
    { rewrite <- (firstn_skipn c l) at 1. rewrite skipn_app.
      rewrite length_firstn.
      replace (index - Nat.min c (List.length l))%nat with O by lia.
      reflexivity. }
    rewrite Hsplit.
    rewrite advance_cursor_split.
    + rewrite length_skipn, length_firstn.
      destruct (skipn c l) as [|y rest] eqn:Es.
      * assert (c = List.length l).
        { pose proof (length_skipn c l) as Hl. rewrite Es in Hl. simpl in Hl. lia. }
        replace (c =? List.length l)%nat with true
          by (symmetry; apply Nat.eqb_eq; assumption).
        reflexivity.
      * assert (c <> List.length l).
        { intro Hc. pose proof (length_skipn c l) as Hl.
          rewrite Es in Hl. simpl in Hl. lia. }
        replace (c =? List.length l)%nat with false
          by (symmetry; apply Nat.eqb_neq; assumption).
        f_equal. lia.
    + apply Forall_forall. intros b Hb.
      assert (Hin : In b (filter (passed key t) l)).
      { rewrite Hpre. apply (In_skipn_In index). exact Hb. }
      apply filter_In in Hin. tauto.
    + exact Hrest.
  - apply Nat.ltb_ge in E. f_equal. lia.
Qed.

End SortedBy.

Lemma Qsum_app (l l' : list Q) : Qsum (l ++ l') == Qsum l + Qsum l'.
Proof.
  induction l as [|x l IH]; simpl; [ring|]. rewrite IH. ring.
Qed.

Lemma Qsum_perm (l l' : list Q) : Permutation l l' -> Qsum l == Qsum l'.
Proof.
  induction 1 as [|x l l' _ IH|x y l|l l' l'' _ IH1 _ IH2]; simpl.
  - reflexivity.
  - rewrite IH. reflexivity.
  - ring.
  - rewrite IH1. exact IH2.
Qed.

Lemma filter_perm {A : Type} (p : A -> bool) (l l' : list A) :
  Permutation l l' -> Permutation (filter p l) (filter p l').
Proof.
  induction 1 as [|x l l' _ IH|x y l|l l' l'' _ IH1 _ IH2]; simpl.
  - apply perm_nil.
  - destruct (p x); [apply perm_skip|]; exact IH.
  - destruct (p x), (p y); try apply Permutation_refl. apply perm_swap.
  - eapply Permutation_trans; eassumption.
Qed.

Lemma effects_app (f : Field) (l l' : list Buff.t) :
  effects f (l ++ l') == effects f l + effects f l'.
Proof. unfold effects. rewrite map_app. apply Qsum_app. Qed.

Lemma effects_perm (f : Field) (l l' : list Buff.t) :
  Permutation l l' -> effects f l == effects f l'.
Proof.
  intro H. unfold effects. apply Qsum_perm. apply Permutation_map. exact H.
Qed.

(** The effects of the passed prefix of a sorted view are those of the
    buffs with [buff[key] <= t] in the list as given. *)
Lemma effects_passed (key : Buff.t -> Instant) (f : Field) (t : Q)
    (buffs : list Buff.t) :
  effects f (firstn (count_passed key t (sorted_by key buffs))
               (sorted_by key buffs))
  == effects f (filter (passed key t) buffs).
Proof.
  destruct (passed_prefix key t _ (sorted_by_sorted key buffs)) as [Hpre _].
  rewrite <- Hpre. apply effects_perm. apply filter_perm. apply sorted_by_perm.
Qed.

(** Buffs that have started, less buffs that have ended, are the buffs
    active at [t]. *)
Lemma effects_active (f : Field) (t : Q) (buffs : list Buff.t) :
  well_formed buffs ->
  effects f (filter (passed Buff.start t) buffs)
  - effects f (filter (passed Buff.end_ t) buffs)
  == effects f (filter (active_at t) buffs).
Proof.
  unfold effects, well_formed.
  induction buffs as [|b buffs IH]; intro Hwf; [simpl; ring|].
  assert (Hb : Tlt (Buff.start b) (Buff.end_ b)) by (apply Hwf; left; reflexivity).
  assert (IH' := IH (fun x Hx => Hwf x (or_intror Hx))).
  cbn [filter].
  assert (Hact : active_at t b
                 = passed Buff.start t b && negb (passed Buff.end_ t b)).
  { unfold active_at, Tgeb, passed. rewrite Tltb_negb_Tleb. reflexivity. }
  assert (Hend : passed Buff.end_ t b = true -> passed Buff.start t b = true).
  { unfold passed. intro Ee. apply Tleb_iff in Ee. apply Tleb_iff.
    destruct (Buff.start b), (Buff.end_ b); simpl in *; try contradiction;
      try exact I. lra. }
  rewrite Hact.
  destruct (passed Buff.start t b) eqn:Es;
    destruct (passed Buff.end_ t b) eqn:Ee;
    cbn [andb negb map Qsum fold_right];
    fold (Qsum (map (effect f) (filter (passed Buff.start t) buffs)));
    fold (Qsum (map (effect f) (filter (passed Buff.end_ t) buffs)));
    fold (Qsum (map (effect f) (filter (active_at t) buffs)));
    try (clear Hend; lra).
  specialize (Hend eq_refl). discriminate.
Qed.

(* ------------------------------------------------------------------ *)
(** ** The running aggregate of the linearithmic sweep *)

Lemma add_buffs_field (f : Field) (l : list Buff.t) (c : ModifierCache.t) :
  field_value f (ModifierCache.add_buffs c l) == field_value f c + effects f l.
Proof.
  unfold ModifierCache.add_buffs, effects. revert c.
  induction l as [|b l IH]; intro c; simpl; [ring|].
  rewrite IH, add_buff_field. ring.
Qed.

Lemma remove_buffs_field (f : Field) (l : list Buff.t) (c : ModifierCache.t) :
  field_value f (fold_left ModifierCache.remove_buff l c)
  == field_value f c - effects f l.
Proof.
  unfold effects. revert c.
  induction l as [|b l IH]; intro c; simpl; [ring|].
  rewrite IH, remove_buff_field. ring.
Qed.

Lemma generate_cache_field (f : Field) (l : list Buff.t) :
  field_value f (generate_cache l)
  == field_value f (generate_cache []) + effects f l.
Proof.
  unfold generate_cache, generate_cache_with. apply add_buffs_field.
Qed.

Lemma skipn_cons_nth_error {A : Type} (l : list A) (i : nat) (x : A) :
  nth_error l i = Some x -> skipn i l = x :: skipn (S i) l.
Proof.
  revert i. induction l as [|y l IH]; intros [|i] H; simpl in *;
    try discriminate.
  - inversion H. reflexivity.
  - apply IH. exact H.
Qed.

Lemma add_buffs_range_slice (l : list Buff.t) (n i : nat) (c : ModifierCache.t) :
  (i + n <= List.length l)%nat ->
  ModifierCache.add_buffs_range c l i n
  = Ok (ModifierCache.add_buffs c (firstn n (skipn i l))).
Proof.
  revert i c. induction n as [|n IH]; intros i c H; simpl; [reflexivity|].
  destruct (nth_error l i) as [b|] eqn:E.
  - rewrite (skipn_cons_nth_error l i b E). simpl. apply IH. lia.
  - apply nth_error_None in E. lia.
Qed.

Lemma remove_buffs_range_slice (l : list Buff.t) (n i : nat) (c : ModifierCache.t) :
  (i + n <= List.length l)%nat ->
  ModifierCache.remove_buffs_range c l i n
  = Ok (fold_left ModifierCache.remove_buff (firstn n (skipn i l)) c).
Proof.
  revert i c. induction n as [|n IH]; intros i c H; simpl; [reflexivity|].
  destruct (nth_error l i) as [b|] eqn:E.
  - rewrite (skipn_cons_nth_error l i b E). simpl. apply IH. lia.
  - apply nth_error_None in E. lia.
Qed.

Lemma firstn_extend {A : Type} (l : list A) (i n : nat) :
  firstn (i + n) l = firstn i l ++ firstn n (skipn i l).
Proof.
  revert l. induction i as [|i IH]; intro l; simpl; [reflexivity|].
  destruct l as [|x l]; simpl.
  - rewrite firstn_nil. reflexivity.
  - f_equal. apply IH.
Qed.

Lemma effects_slice (f : Field) (l : list Buff.t) (i j : nat) :
  (i <= j)%nat ->
  effects f (firstn (j - i) (skipn i l))
  == effects f (firstn j l) - effects f (firstn i l).
Proof.
  intro H. replace j with (i + (j - i))%nat at 2 by lia.
  rewrite firstn_extend, effects_app. ring.
Qed.

(** Entering a row: the cache gains the effects of its add-range and loses
    those of its remove-range. *)
Lemma apply_row_fields (add_buffs sub_buffs : list Buff.t)
    (cache : ModifierCache.t) (row : SweepRow) :
  (add_s row <= add_e row <= List.length add_buffs)%nat ->
  (sub_s row <= sub_e row <= List.length sub_buffs)%nat ->
  exists cache',
    apply_row add_buffs sub_buffs cache row = Ok cache'
    /\ forall f,
         field_value f cache'
         == field_value f cache
            + (effects f (firstn (add_e row) add_buffs)
               - effects f (firstn (add_s row) add_buffs))
            - (effects f (firstn (sub_e row) sub_buffs)
               - effects f (firstn (sub_s row) sub_buffs)).
Proof.
  intros Ha Hs. unfold apply_row.
  set (c1 := ModifierCache.add_buffs cache
               (firstn (add_e row - add_s row) (skipn (add_s row) add_buffs))).
  assert (H1 : (if (add_s row <? add_e row)%nat
                then ModifierCache.add_buffs_range cache add_buffs
                       (add_s row) (add_e row - add_s row)
                else Ok cache)
               = Ok (if (add_s row <? add_e row)%nat then c1 else cache)).
  { destruct (add_s row <? add_e row)%nat; [|reflexivity].
    apply add_buffs_range_slice. lia. }
  rewrite H1. simpl bind.
  set (c1' := if (add_s row <? add_e row)%nat then c1 else cache).
  assert (Hc1 : forall f,
             field_value f c1'
             == field_value f cache
                + (effects f (firstn (add_e row) add_buffs)
                   - effects f (firstn (add_s row) add_buffs))).
  { intro f. subst c1'. destruct (add_s row <? add_e row)%nat eqn:E.
    - subst c1. rewrite add_buffs_field, effects_slice by lia. reflexivity.
    - apply Nat.ltb_ge in E. replace (add_e row) with (add_s row) by lia. ring. }
  set (c2 := fold_left ModifierCache.remove_buff
               (firstn (sub_e row - sub_s row) (skipn (sub_s row) sub_buffs)) c1').
  exists (if (sub_s row <? sub_e row)%nat then c2 else c1').
  split.
  - destruct (sub_s row <? sub_e row)%nat; [|reflexivity].
    apply remove_buffs_range_slice. lia.
  - intro f. destruct (sub_s row <? sub_e row)%nat eqn:E.
    + subst c2. rewrite remove_buffs_field, effects_slice, Hc1 by lia. ring.
    + apply Nat.ltb_ge in E. replace (sub_e row) with (sub_s row) by lia.
      rewrite Hc1. ring.
Qed.

Lemma insert_q_perm (x : Q) (l : list Q) : Permutation (insert_q x l) (x :: l).
Proof.
  induction l as [|y l IH]; simpl; [apply Permutation_refl|].
  destruct (Qle_bool x y); [apply Permutation_refl|].
  eapply Permutation_trans; [apply perm_skip, IH|apply perm_swap].
Qed.

Lemma np_sort_sorted (l : list Q) : StronglySorted Qle (np_sort l).
Proof.
  induction l as [|x l IH]; simpl; [constructor|].
  induction IH as [|y s Hs IHs Hy]; simpl.
  - constructor; constructor.
  - destruct (Qle_bool x y) eqn:E.
    + apply Qle_bool_iff in E. constructor.
      * constructor; assumption.
      * constructor; [exact E|].
        eapply Forall_impl; [|exact Hy]. intros z Hz. lra.
    + constructor; [exact IHs|].
      assert (y <= x).
      { apply Qlt_le_weak. apply Qlt_bool_iff. unfold Qlt_bool. now rewrite E. }
      eapply Permutation_Forall; [apply Permutation_sym, insert_q_perm|].
      constructor; assumption.
Qed.

Lemma nlogn_rows_invariant (buffs : list Buff.t) :
  well_formed buffs ->
  forall (rest : list Q) (prev : Q) (add_index sub_index : nat)
         (cache : ModifierCache.t) (rows : list SweepRow),
    StronglySorted Qle (prev :: rest) ->
    (add_index <= count_passed Buff.start prev (sorted_by Buff.start buffs))%nat ->
    (sub_index <= count_passed Buff.end_ prev (sorted_by Buff.end_ buffs))%nat ->
    (forall f,
       field_value f cache
       == field_value f (generate_cache [])
          + effects f (firstn add_index (sorted_by Buff.start buffs))
          - effects f (firstn sub_index (sorted_by Buff.end_ buffs))) ->
    nlogn_rows (sorted_by Buff.start buffs) (sorted_by Buff.end_ buffs)
      prev rest add_index sub_index = Ok rows ->
    exists caches,
      nlogn_caches (sorted_by Buff.start buffs) (sorted_by Buff.end_ buffs)
        rows cache = Ok caches
      /\ Forall2 (aggregate_at buffs) rows caches.
Proof.
  intro Hwf.
  set (ab := sorted_by Buff.start buffs). set (sb := sorted_by Buff.end_ buffs).
  induction rest as [|curr rest IH];
    intros prev ai si cache rows Hsorted Hai Hsi Hcache Hrows; simpl in Hrows.
  - inversion Hrows; subst. exists []. split; [reflexivity|constructor].
  - rewrite (guarded_advance_sorted Buff.start prev ab ai
               (sorted_by_sorted _ buffs) Hai) in Hrows.
    rewrite (guarded_advance_sorted Buff.end_ prev sb si
               (sorted_by_sorted _ buffs) Hsi) in Hrows.
    destruct ((ai <? List.length ab)%nat
              && (count_passed Buff.start prev ab =? List.length ab)%nat);
      [discriminate Hrows|].
    destruct ((si <? List.length sb)%nat
              && (count_passed Buff.end_ prev sb =? List.length sb)%nat);
      [discriminate Hrows|].
    simpl in Hrows.
    set (ai' := count_passed Buff.start prev ab) in *.
    set (si' := count_passed Buff.end_ prev sb) in *.
    destruct (nlogn_rows ab sb curr rest ai' si') as [rows'|e] eqn:Erec;
      [|discriminate Hrows].
    simpl in Hrows. inversion Hrows; subst rows; clear Hrows.
    set (row := mkRow prev curr ai ai' si si').
    destruct (apply_row_fields ab sb cache row) as [c' [Happly Hc']].
    { simpl. split; [exact Hai|apply count_passed_le_length]. }
    { simpl. split; [exact Hsi|apply count_passed_le_length]. }
    simpl in Hc'.
    assert (Hnow : forall f,
               field_value f c'
               == field_value f (generate_cache [])
                  + effects f (firstn ai' ab) - effects f (firstn si' sb)).
    { intro f. rewrite Hc', Hcache. ring. }
    inversion Hsorted as [|? ? Hsorted' Hprev]; subst.
    assert (Hle : prev <= curr) by (inversion Hprev; assumption).
    destruct (IH curr ai' si' c' rows' Hsorted') as [caches [Hcaches Hall]].
    + apply count_passed_mono. exact Hle.
    + apply count_passed_mono. exact Hle.
    + exact Hnow.
    + exact Erec.
    + exists (c' :: caches). split.
      * simpl. rewrite Happly. simpl. rewrite Hcaches. reflexivity.
      * constructor; [|exact Hall].
        assert (Hsum : forall f,
                   field_value f c'
                   == field_value f (generate_cache [])
                      + effects f (filter (active_at prev) buffs)).
        { intro f. rewrite Hnow. subst ai' si' ab sb.
          rewrite !effects_passed.
          rewrite <- (effects_active f prev buffs Hwf). ring. }
        split; [|exact Hsum].
        apply cache_eq_fields. intro f. simpl.
        unfold n2_cache. rewrite generate_cache_field. apply Hsum.
Qed.

Lemma nlogn_plan_invariant (buffs : list Buff.t)
    (window_start window_end : Instant) (rows : list SweepRow) :
  well_formed buffs ->
  nlogn_plan buffs window_start window_end = Ok rows ->
  exists caches,
    nlogn_caches (sorted_by Buff.start buffs) (sorted_by Buff.end_ buffs)
      rows (generate_cache []) = Ok caches
    /\ Forall2 (aggregate_at buffs) rows caches.
Proof.
  intros Hwf Hplan. unfold nlogn_plan in Hplan.
  pose proof (np_sort_sorted
                (get_unique_times (sorted_by Buff.start buffs)
                   window_start window_end)) as Hsorted.
  destruct (np_sort _) as [|prev rest]; [discriminate Hplan|].
  apply (nlogn_rows_invariant buffs Hwf rest prev 0 0 (generate_cache []) rows
           Hsorted); try apply Nat.le_0_l; [|exact Hplan].
  intro f. simpl firstn. unfold effects. simpl. ring.
Qed.

(** Evaluating damage tags reads the cache and leaves it as it is. *)
Lemma eval_tag_cache (attack defense : Q) (normalize : bool)
    (cache : ModifierCache.t) (t_0 t_1 : Q) (dmg_tag : DamageTag.t)
    (result_i r : Q) (cache' : ModifierCache.t) :
  eval_tag attack defense normalize cache t_0 t_1 dmg_tag result_i
  = Ok (r, cache') ->
  cache' = cache.
Proof.
  unfold eval_tag.
  destruct (Tgeb _ _ || Tltb _ _); [intro H; inversion H; reflexivity|].
  pose proof (accumulate_avg_dmg_snd (DamageTag.damage dmg_tag) attack defense
                None (DamageTag.tags dmg_tag) normalize (Some cache)) as Hsnd.
  rewrite compute_damage_matrix_cache in Hsnd.
  destruct (accumulate_avg_dmg _ _ _ _ _ _ _) as [total after].
  simpl in Hsnd. subst after. simpl cache_after.
  destruct total as [total|e]; simpl; [|discriminate].
  destruct (if negb (Teqb (DamageTag.get_duration dmg_tag) (Fin 0))
            then Tsub (Tmin (DamageTag.get_end dmg_tag) (Fin t_1))
                   (Tmax (DamageTag.start dmg_tag) (Fin t_0))
            else Fin 0) as [|d|];
    try destruct (Qlt_bool 0 d); intro H; inversion H; reflexivity.
Qed.

Lemma eval_tags_cache (attack defense : Q) (normalize : bool)
    (cache : ModifierCache.t) (t_0 t_1 : Q) (damage_tags : list DamageTag.t) :
  forall (results rs : list Q) (cache' : ModifierCache.t),
    eval_tags attack defense normalize cache t_0 t_1 damage_tags results
    = Ok (rs, cache') ->
    cache' = cache.
Proof.
  induction damage_tags as [|tag tags IH]; intros results rs cache' H.
  - simpl in H. inversion H. reflexivity.
  - destruct results as [|r results]; simpl in H;
      [inversion H; reflexivity|].
    destruct (eval_tag attack defense normalize cache t_0 t_1 tag r)
      as [[r' c1]|e] eqn:E1; simpl in H; [|discriminate].
    apply eval_tag_cache in E1. subst c1.
    destruct (eval_tags attack defense normalize cache t_0 t_1 tags results)
      as [[rs' c2]|e] eqn:E2; simpl in H; [|discriminate].
    apply IH in E2. inversion H. subst. reflexivity.
Qed.

(** The linearithmic sweep evaluates the tags of each row with the cache
    that [nlogn_caches] lists for it. *)
Lemma nlogn_sweep_trace (attack defense : Q) (normalize : bool)
    (add_buffs sub_buffs : list Buff.t) (damage_tags : list DamageTag.t) :
  forall (rows : list SweepRow) (cache : ModifierCache.t)
         (caches : list ModifierCache.t) (results : list Q),
    nlogn_caches add_buffs sub_buffs rows cache = Ok caches ->
    nlogn_sweep attack defense normalize add_buffs sub_buffs damage_tags
      rows cache results
    = eval_rows attack defense normalize damage_tags
        (combine (map (fun row => (row_t_0 row, row_t_1 row)) rows) caches)
        results.
Proof.
  induction rows as [|row rows IH]; intros cache caches results H.
  - simpl in H. inversion H. reflexivity.
  - simpl in H. simpl nlogn_sweep.
    destruct (apply_row add_buffs sub_buffs cache row) as [c1|e];
      [|discriminate H].
    simpl in H. simpl bind.
    destruct (nlogn_caches add_buffs sub_buffs rows c1) as [caches'|e] eqn:E;
      [|discriminate H].
    simpl in H. inversion H; subst caches; clear H. simpl.
    destruct (eval_tags attack defense normalize c1 (row_t_0 row) (row_t_1 row)
                damage_tags results) as [[rs c1']|e] eqn:Et; simpl;
      [|reflexivity].
    apply eval_tags_cache in Et. subst c1'. apply IH. exact E.
Qed.

(** The quadratic sweep evaluates the tags of each sub-interval with the
    cache of the buffs active at its start. *)
Lemma n2_sweep_trace (attack defense : Q) (normalize : bool)
    (buffs : list Buff.t) (damage_tags : list DamageTag.t) :
  forall (buff_windows : list (Q * Q)) (results : list Q),
    n2_sweep attack defense normalize buffs damage_tags buff_windows results
    = eval_rows attack defense normalize damage_tags
        (map (fun w => (fst w, snd w, n2_cache buffs (fst w))) buff_windows)
        results.
Proof.
  induction buff_windows as [|[t_0 t_1] rest IH]; intro results;
    [reflexivity|].
  simpl. unfold n2_cache at 1.
  destruct (eval_tags attack defense normalize
              (generate_cache (filter (active_at t_0) buffs)) t_0 t_1
              damage_tags results) as [st|e]; simpl; [apply IH|reflexivity].
Qed.

(** The overlap [min(end, t_1) - max(start, t_0)] is never [+inf], so the
    product [total_dmg * duration] of the source is always finite. *)
Lemma overlap_not_PosInf (start end_ : Instant) (t_0 t_1 : Q) :
  Tsub (Tmin end_ (Fin t_1)) (Tmax start (Fin t_0)) <> PosInf.
Proof.
  unfold Tmin, Tmax.
  destruct end_ as [|e|], start as [|s|]; simpl;
    repeat match goal with
           | |- context [if ?c then _ else _] => destruct c
           end; simpl; discriminate.
Qed.

(* ------------------------------------------------------------------ *)
(** ** When the cursor loop runs off the sorted view *)

Lemma np_sort_perm (l : list Q) : Permutation (np_sort l) l.
Proof.
  induction l as [|x l IH]; simpl; [apply perm_nil|].
  eapply Permutation_trans; [apply insert_q_perm|apply perm_skip, IH].
Qed.

Lemma add_time_point_inside (window_start window_end t : Instant) (l : list Q) :
  exists extra,
    add_time_point window_start window_end t l = l ++ extra
    /\ Forall (fun x => Tlt window_start (Fin x) /\ Tlt (Fin x) window_end) extra.
Proof.
  unfold add_time_point. destruct t as [|x|].
  - exists []. rewrite app_nil_r. split; [reflexivity|constructor].
  - destruct (Tltb window_start (Fin x)) eqn:E1;
      [destruct (Tltb (Fin x) window_end) eqn:E2;
       [destruct (negb (q_in x l))|]|]; simpl;
      try (exists []; rewrite app_nil_r; split; [reflexivity|constructor]).
    exists [x]. split; [reflexivity|].
    constructor; [|constructor].
    split; [exact (proj1 (Tltb_iff window_start (Fin x)) E1)
           |exact (proj1 (Tltb_iff (Fin x) window_end) E2)].
  - exists []. rewrite app_nil_r. split; [reflexivity|constructor].
Qed.

Lemma get_unique_times_inside (buffs : list Buff.t)
    (window_start window_end : Instant) :
  forall l,
  exists extra,
    fold_left (fun unique_times buff =>
      add_time_point window_start window_end (Buff.end_ buff)
        (add_time_point window_start window_end (Buff.start buff) unique_times))
      buffs l = l ++ extra
    /\ Forall (fun x => Tlt window_start (Fin x) /\ Tlt (Fin x) window_end) extra.
Proof.
  induction buffs as [|b buffs IH]; intro l; simpl.
  - exists []. rewrite app_nil_r. split; [reflexivity|constructor].
  - destruct (add_time_point_inside window_start window_end (Buff.start b) l)
      as [e1 [H1 F1]].
    rewrite H1.
    destruct (add_time_point_inside window_start window_end (Buff.end_ b)
                (l ++ e1)) as [e2 [H2 F2]].
    rewrite H2.
    destruct (IH ((l ++ e1) ++ e2)) as [e3 [H3 F3]].
    rewrite H3. exists (e1 ++ e2 ++ e3).
    split; [rewrite !app_assoc; reflexivity|].
    apply Forall_app. split; [exact F1|].
    apply Forall_app. split; assumption.
Qed.

Lemma count_passed_all (key : Buff.t -> Instant) (t : Q) (l : list Buff.t) :
  Forall (fun b => passed key t b = true) l ->
  count_passed key t l = List.length l.
Proof.
  unfold count_passed. induction 1 as [|b l Hb _ IH]; simpl; [reflexivity|].
  rewrite Hb. simpl. f_equal. exact IH.
Qed.

(** X20.  On a finite window, when every buff of a non-empty list has
    started by [window_start], the add cursor of the linearithmic sweep
    passes the whole sorted view at the first time point and the sweep
    raises [IndexError], whatever the damage tags. *)
Lemma nlogn_raises_when_all_started (damage_tags : list DamageTag.t)
    (attack defense : Q) (buffs : list Buff.t) (ws we : Q)
    (accumulate normalize : bool) :
  buffs <> [] ->
  ws <= we ->
  (forall b, In b buffs -> Tle (Buff.start b) (Fin ws)) ->
  compute_dps_window_nlogn damage_tags attack defense buffs (Fin ws) (Fin we)
    accumulate normalize = Raise IndexError.
Proof.
  intros Hne Hwin Hstarted.
  unfold compute_dps_window_nlogn, nlogn_plan.
  set (ab := sorted_by Buff.start buffs).
  assert (Hperm : Permutation ab buffs) by apply sorted_by_perm.
  unfold get_unique_times. simpl app.
  destruct (get_unique_times_inside ab (Fin ws) (Fin we) [ws; we])
    as [extra [Hfold Hextra]].
  rewrite Hfold. simpl app.
  pose proof (np_sort_perm (ws :: we :: extra)) as Hsort.
  destruct (np_sort (ws :: we :: extra)) as [|prev [|curr rest]] eqn:E.
  - apply Permutation_length in Hsort. discriminate Hsort.
  - apply Permutation_length in Hsort. discriminate Hsort.
  - assert (Hprev : ws <= prev).
    { assert (Hin : In prev (ws :: we :: extra)).
      { eapply Permutation_in; [exact Hsort|left; reflexivity]. }
      destruct Hin as [H|[H|H]].
      - subst. apply Qle_refl.
      - subst. exact Hwin.
      - rewrite Forall_forall in Hextra. apply Hextra in H.
        simpl in H. apply Qlt_le_weak. tauto. }
    simpl nlogn_rows.
    rewrite (guarded_advance_sorted Buff.start prev ab 0
               (sorted_by_sorted _ buffs) (Nat.le_0_l _)).
    assert (Hall : count_passed Buff.start prev ab = List.length ab).
    { apply count_passed_all. apply Forall_forall. intros b Hb.
      unfold passed. apply Tleb_iff.
      eapply Tle_trans; [apply Hstarted|exact Hprev].
      eapply Permutation_in; [exact Hperm|exact Hb]. }
    rewrite Hall, Nat.eqb_refl.
    assert (Hlen : (0 <? List.length ab)%nat = true).
    { apply Nat.ltb_lt. rewrite (Permutation_length Hperm).
      destruct buffs; [congruence|simpl; lia]. }
    rewrite Hlen. reflexivity.
Qed.

(* ------------------------------------------------------------------ *)
(** ** The quadratic sweep completes *)






(** With both window bounds infinite and no buff boundary there is no time
    point at all, and both sweeps raise. *)
Example sweeps_without_time_points :
  compute_dps_window_n2 [] 100000 10000 [infinite_buff] NegInf PosInf true true
  = Raise IndexError
  /\ compute_dps_window_nlogn [] 100000 10000 [infinite_buff] NegInf PosInf
       true true
     = Raise ValueError.
Proof. split; vm_compute; reflexivity. Qed.

(* ------------------------------------------------------------------ *)
(** ** Evaluation respects equality of numbers *)

Lemma cache_eq_refl (a : ModifierCache.t) : cache_eq a a.
Proof. apply cache_eq_fields. intro f. reflexivity. Qed.

Lemma cache_eq_sym (a b : ModifierCache.t) : cache_eq a b -> cache_eq b a.
Proof.
  intro H. apply cache_eq_fields. intro f. symmetry.
  apply (proj1 (cache_eq_fields a b) H).
Qed.

Lemma cache_eq_trans (a b c : ModifierCache.t) :
  cache_eq a b -> cache_eq b c -> cache_eq a c.
Proof.
  intros H1 H2. apply cache_eq_fields. intro f.
  rewrite (proj1 (cache_eq_fields a b) H1 f).
  apply (proj1 (cache_eq_fields b c) H2).
Qed.

Lemma Qlt_bool_comp (a a' b b' : Q) :
  a == a' -> b == b' -> Qlt_bool a b = Qlt_bool a' b'.
Proof. intros Ha Hb. unfold Qlt_bool. rewrite Ha, Hb. reflexivity. Qed.

Lemma py_min_comp (a b b' : Q) : b == b' -> py_min a b == py_min a b'.
Proof.
  intro H. unfold py_min. rewrite (Qlt_bool_comp b b' a a H (Qeq_refl a)).
  destruct (Qlt_bool b' a); [exact H|reflexivity].
Qed.

Lemma py_max_comp (a b b' : Q) : b == b' -> py_max a b == py_max a b'.
Proof.
  intro H. unfold py_max. rewrite (Qlt_bool_comp a a b b' (Qeq_refl a) H).
  destruct (Qlt_bool a b'); [exact H|reflexivity].
Qed.

Lemma base_dmg_comp (damage attack defense : Q) (c c' : ModifierCache.t)
    (element_bonus : bool) :
  cache_eq c c' ->
  base_dmg damage attack defense c element_bonus
  == base_dmg damage attack defense c' element_bonus.
Proof.
  intro H. destruct c, c'. unfold cache_eq in H. simpl in H.
  destruct H as (H1 & H2 & H3 & H4 & H5 & H6 & H7 & _ & _ & _ & _ & _
                 & _ & _ & _ & H16).
  subst. unfold base_dmg. cbn.
  destruct (negb element_bonus && (element_bonus1 <=? 0)%Z);
    rewrite H1, H2, H3, ?H4, H5, H6, H7; reflexivity.
Qed.

Lemma base_mod_comp (c c' : ModifierCache.t) (core_hit range_bonus full_burst : bool) :
  cache_eq c c' ->
  base_mod c core_hit range_bonus full_burst
  == base_mod c' core_hit range_bonus full_burst.
Proof.
  intro H. destruct c, c'. unfold cache_eq in H. simpl in H.
  destruct H as (_ & _ & _ & _ & _ & _ & _ & _ & _ & H10 & _ & H12
                 & H13 & H14 & H15 & _).
  subst. unfold base_mod. cbn.
  destruct (core_hit || (0 <? core_hit1)%Z);
    destruct (range_bonus || (0 <? range_bonus1)%Z);
    destruct (full_burst || (0 <? full_burst1)%Z);
    rewrite ?H10, ?H12; reflexivity.
Qed.

Lemma compute_damage_comp (damage attack defense : Q) (c c' : ModifierCache.t)
    (core_hit range_bonus full_burst element_bonus : bool) :
  cache_eq c c' ->
  Dmg3_eq
    (compute_damage damage attack defense [] core_hit range_bonus full_burst
       element_bonus (Some c))
    (compute_damage damage attack defense [] core_hit range_bonus full_burst
       element_bonus (Some c')).
Proof.
  intro H. unfold compute_damage, damage_calc, ModifierCache.add_buffs.
  cbn [fold_left].
  pose proof (base_dmg_comp damage attack defense c c' element_bonus H) as Hd.
  pose proof (base_mod_comp c c' core_hit range_bonus full_burst H) as Hm.
  assert (Hr : py_min 1 (ModifierCache.crit_rate c / 100)
               == py_min 1 (ModifierCache.crit_rate c' / 100)).
  { apply py_min_comp. unfold cache_eq in H.
    destruct H as (_ & _ & _ & _ & _ & _ & _ & H8 & _). rewrite H8. reflexivity. }
  assert (Hc : py_max 0 (ModifierCache.crit_dmg c / 100)
               == py_max 0 (ModifierCache.crit_dmg c' / 100)).
  { apply py_max_comp. unfold cache_eq in H.
    destruct H as (_ & _ & _ & _ & _ & _ & _ & _ & H9 & _). rewrite H9. reflexivity. }
  unfold Dmg3_eq, dmg_base, dmg_crit, dmg_avg. cbn [fst snd].
  rewrite Hd, Hm, Hr, Hc. repeat split; reflexivity.
Qed.

Lemma label_flags_tag (c r f e : bool) :
  label_flags (get_bonus_tag c r f e) = Some (c, r, f, e).
Proof. destruct c, r, f, e; reflexivity. Qed.

Lemma label_flags_unknown (label : string) :
  ~ In label canonical_labels -> label_flags label = None.
Proof.
  intro H. unfold label_flags.
  destruct (find (fun x => String.eqb (combo_tag x) label) flag_combos)
    as [x|] eqn:E; [|reflexivity].
  apply find_some in E. destruct E as [Hin Heq].
  apply String.eqb_eq in Heq. exfalso. apply H.
  unfold canonical_labels. apply in_map_iff. exists x. tauto.
Qed.

(** [matrix[tag]['avg']] on the matrix of [compute_damage_matrix], by
    cases on the label. *)
Lemma matrix_avg_matrix_of (dmg : bool -> bool -> bool -> bool -> Dmg3)
    (label : string) :
  matrix_avg (matrix_of dmg) label
  = match label_flags label with
    | Some (c, r, f, e) => Ok (dmg_avg (dmg c r f e))
    | None => Raise (if String.eqb label "matrix" then IndexError else KeyError)
    end.
Proof.
  destruct (in_dec string_dec label canonical_labels) as [Hin|Hout].
  - unfold canonical_labels in Hin. apply in_map_iff in Hin.
    destruct Hin as [[[[c r] f] e] [Hl _]]. simpl in Hl. subst label.
    rewrite label_flags_tag. unfold matrix_avg. rewrite matrix_of_entry.
    reflexivity.
  - rewrite (label_flags_unknown label Hout). unfold matrix_avg.
    destruct (String.eqb label "matrix") eqn:E.
    + apply String.eqb_eq in E. subst label.
      destruct (matrix_of_array dmg) as [rows [Hrows _]].
      rewrite Hrows. reflexivity.
    + rewrite dict_get_absent; [reflexivity|].
      rewrite matrix_of_keys. intro Hin. apply in_inv in Hin.
      destruct Hin as [H0|H0]; [|exact (Hout H0)].
      subst label. rewrite String.eqb_refl in E. discriminate.
Qed.

Section MatrixComp.

Variables dmg dmg' : bool -> bool -> bool -> bool -> Dmg3.
Hypothesis Hdmg : forall c r f e, Dmg3_eq (dmg c r f e) (dmg' c r f e).

Lemma matrix_avg_comp (label : string) :
  Result_eq Qeq (matrix_avg (matrix_of dmg) label)
    (matrix_avg (matrix_of dmg') label).
Proof.
  rewrite !matrix_avg_matrix_of.
  destruct (label_flags label) as [[[[c r] f] e]|]; simpl; [|reflexivity].
  apply Hdmg.
Qed.

Lemma matrix_avg_loop_comp (tags : Dict Q) :
  forall td td' tr tr',
    td == td' -> tr == tr' ->
    Result_eq pair_eq
      (matrix_avg_loop (matrix_of dmg) tags td tr)
      (matrix_avg_loop (matrix_of dmg') tags td' tr').
Proof.
  induction tags as [|[tag w] tags IH]; intros td td' tr tr' Hd Hr;
    cbn [matrix_avg_loop].
  - split; assumption.
  - pose proof (matrix_avg_comp tag) as Havg.
    destruct (matrix_avg (matrix_of dmg) tag) as [a|e],
             (matrix_avg (matrix_of dmg') tag) as [a'|e'];
      cbn [bind Result_eq] in *; try contradiction; [|exact Havg].
    apply IH; [rewrite Hd, Havg|rewrite Hr]; reflexivity.
Qed.

Lemma matrix_avg_dmg_comp (tags : Dict Q) (normalize : bool) :
  Result_eq Qeq
    (matrix_avg_dmg (matrix_of dmg) tags normalize)
    (matrix_avg_dmg (matrix_of dmg') tags normalize).
Proof.
  unfold matrix_avg_dmg.
  pose proof (matrix_avg_loop_comp tags 0 0 0 0 (Qeq_refl 0) (Qeq_refl 0)) as H.
  destruct (matrix_avg_loop (matrix_of dmg) tags 0 0) as [[d t]|e],
           (matrix_avg_loop (matrix_of dmg') tags 0 0) as [[d' t']|e'];
    cbn [bind Result_eq] in *; try contradiction; [|exact H].
  destruct H as [Hd Ht]. cbn [fst snd] in Hd, Ht.
  unfold py_div. rewrite (Qeqb_comp t t' Ht 0 0 (Qeq_refl 0)).
  destruct normalize, (Qeq_bool t' 0); cbn [andb negb Result_eq];
    try exact Hd.
  rewrite Hd, Ht. reflexivity.
Qed.

End MatrixComp.

Lemma accumulate_avg_dmg_comp (damage attack defense : Q) (tags : Dict Q)
    (normalize : bool) (c c' : ModifierCache.t) :
  cache_eq c c' ->
  Result_eq Qeq
    (fst (accumulate_avg_dmg damage attack defense None tags normalize (Some c)))
    (fst (accumulate_avg_dmg damage attack defense None tags normalize (Some c'))).
Proof.
  intro H. rewrite !accumulate_avg_dmg_fst, !compute_damage_matrix_unfold.
  apply matrix_avg_dmg_comp. intros cr r f e. simpl matrix_cache.
  apply compute_damage_comp. exact H.
Qed.

(** The loop body over one damage tag, in closed form. *)
Lemma eval_tag_unfold (attack defense : Q) (normalize : bool)
    (cache : ModifierCache.t) (t_0 t_1 : Q) (dmg_tag : DamageTag.t)
    (result_i : Q) :
  eval_tag attack defense normalize cache t_0 t_1 dmg_tag result_i
  = if tag_skipped dmg_tag t_0 t_1 then Ok (result_i, cache)
    else
      total_dmg <- fst (accumulate_avg_dmg (DamageTag.damage dmg_tag) attack
                          defense None (DamageTag.tags dmg_tag) normalize
                          (Some cache)) ;;
      Ok (result_i + weighted total_dmg (tag_overlap dmg_tag t_0 t_1), cache).
Proof.
  unfold eval_tag, tag_skipped, tag_overlap, weighted.
  destruct (Tgeb _ _ || Tltb _ _); [reflexivity|].
  pose proof (accumulate_avg_dmg_snd (DamageTag.damage dmg_tag) attack defense
                None (DamageTag.tags dmg_tag) normalize (Some cache)) as Hsnd.
  rewrite compute_damage_matrix_cache in Hsnd.
  destruct (accumulate_avg_dmg _ _ _ _ _ _ _) as [total after].
  cbn [fst snd] in *. subst after. cbn [cache_after].
  destruct total as [total|e]; cbn [bind]; [|reflexivity].
  destruct (if negb (Teqb (DamageTag.get_duration dmg_tag) (Fin 0))
            then Tsub (Tmin (DamageTag.get_end dmg_tag) (Fin t_1))
                   (Tmax (DamageTag.start dmg_tag) (Fin t_0))
            else Fin 0) as [|d|];
    try destruct (Qlt_bool 0 d); reflexivity.
Qed.

Lemma Teq_refl (a : Instant) : Teq a a.
Proof. destruct a; simpl; auto. reflexivity. Qed.

Lemma Tleb_comp (a a' b b' : Instant) :
  Teq a a' -> Teq b b' -> Tleb a b = Tleb a' b'.
Proof.
  destruct a, a', b, b'; simpl; try contradiction; try reflexivity.
  intros Ha Hb. rewrite Ha, Hb. reflexivity.
Qed.

Lemma Tltb_comp (a a' b b' : Instant) :
  Teq a a' -> Teq b b' -> Tltb a b = Tltb a' b'.
Proof.
  intros Ha Hb. rewrite !Tltb_negb_Tleb. f_equal. apply Tleb_comp; assumption.
Qed.

Lemma Tmin_comp (a b b' : Instant) : Teq b b' -> Teq (Tmin a b) (Tmin a b').
Proof.
  intro H. unfold Tmin. rewrite (Tltb_comp b b' a a H (Teq_refl a)).
  destruct (Tltb b' a); [exact H|apply Teq_refl].
Qed.

Lemma Tmax_comp (a b b' : Instant) : Teq b b' -> Teq (Tmax a b) (Tmax a b').
Proof.
  intro H. unfold Tmax. rewrite (Tltb_comp a a b b' (Teq_refl a) H).
  destruct (Tltb a b'); [exact H|apply Teq_refl].
Qed.

Lemma Tsub_comp (a a' b b' : Instant) :
  Teq a a' -> Teq b b' -> Teq (Tsub a b) (Tsub a' b').
Proof.
  destruct a, a', b, b'; simpl; try contradiction; auto.
  intros Ha Hb. rewrite Ha, Hb. reflexivity.
Qed.

Lemma tag_skipped_comp (dmg_tag : DamageTag.t) (t_0 t_0' t_1 t_1' : Q) :
  t_0 == t_0' -> t_1 == t_1' ->
  tag_skipped dmg_tag t_0 t_1 = tag_skipped dmg_tag t_0' t_1'.
Proof.
  intros H0 H1. unfold tag_skipped, Tgeb. f_equal.
  - apply Tleb_comp; [exact H1|apply Teq_refl].
  - apply Tltb_comp; [apply Teq_refl|exact H0].
Qed.

Lemma tag_overlap_comp (dmg_tag : DamageTag.t) (t_0 t_0' t_1 t_1' : Q) :
  t_0 == t_0' -> t_1 == t_1' ->
  Teq (tag_overlap dmg_tag t_0 t_1) (tag_overlap dmg_tag t_0' t_1').
Proof.
  intros H0 H1. unfold tag_overlap.
  destruct (negb (Teqb (DamageTag.get_duration dmg_tag) (Fin 0)));
    [|apply Teq_refl].
  apply Tsub_comp; [apply Tmin_comp|apply Tmax_comp]; assumption.
Qed.

Lemma weighted_comp (total total' : Q) (d d' : Instant) :
  total == total' -> Teq d d' -> weighted total d == weighted total' d'.
Proof.
  intros Ht Hd. destruct d, d'; simpl in *; try contradiction; try exact Ht.
  rewrite (Qlt_bool_comp 0 0 q q0 (Qeq_refl 0) Hd).
  destruct (Qlt_bool 0 q0); [rewrite Ht, Hd; reflexivity|exact Ht].
Qed.

Lemma eval_tag_comp (attack defense : Q) (normalize : bool)
    (c c' : ModifierCache.t) (t_0 t_0' t_1 t_1' : Q) (dmg_tag : DamageTag.t)
    (r r' : Q) :
  cache_eq c c' -> t_0 == t_0' -> t_1 == t_1' -> r == r' ->
  Result_eq tag_state_eq
    (eval_tag attack defense normalize c t_0 t_1 dmg_tag r)
    (eval_tag attack defense normalize c' t_0' t_1' dmg_tag r').
Proof.
  intros Hc H0 H1 Hr. rewrite !eval_tag_unfold.
  rewrite (tag_skipped_comp dmg_tag t_0 t_0' t_1 t_1' H0 H1).
  destruct (tag_skipped dmg_tag t_0' t_1'); [split; assumption|].
  pose proof (accumulate_avg_dmg_comp (DamageTag.damage dmg_tag) attack defense
                (DamageTag.tags dmg_tag) normalize c c' Hc) as Hacc.
  destruct (fst (accumulate_avg_dmg _ _ _ _ _ _ (Some c))) as [total|e],
           (fst (accumulate_avg_dmg _ _ _ _ _ _ (Some c'))) as [total'|e'];
    cbn [bind Result_eq] in *; try contradiction; [|exact Hacc].
  split; cbn [fst snd]; [|exact Hc].
  rewrite Hr.
  rewrite (weighted_comp total total' _ _ Hacc
             (tag_overlap_comp dmg_tag t_0 t_0' t_1 t_1' H0 H1)).
  reflexivity.
Qed.

Lemma eval_tags_comp (attack defense : Q) (normalize : bool)
    (c c' : ModifierCache.t) (t_0 t_0' t_1 t_1' : Q)
    (damage_tags : list DamageTag.t) :
  cache_eq c c' -> t_0 == t_0' -> t_1 == t_1' ->
  forall results results',
    Forall2 Qeq results results' ->
    Result_eq tags_state_eq
      (eval_tags attack defense normalize c t_0 t_1 damage_tags results)
      (eval_tags attack defense normalize c' t_0' t_1' damage_tags results').
Proof.
  intros Hc H0 H1.
  induction damage_tags as [|tag tags IH]; intros results results' Hres.
  - simpl. split; [constructor|exact Hc].
  - destruct Hres as [|r r' results results' Hr Hres];
      cbn [eval_tags]; [split; [constructor|exact Hc]|].
    pose proof (eval_tag_comp attack defense normalize c c' t_0 t_0' t_1 t_1'
                  tag r r' Hc H0 H1 Hr) as Htag.
    pose proof (eval_tag_cache attack defense normalize c t_0 t_1 tag r) as Hk.
    pose proof (eval_tag_cache attack defense normalize c' t_0' t_1' tag r')
      as Hk'.
    destruct (eval_tag attack defense normalize c t_0 t_1 tag r)
      as [[x c1]|e],
      (eval_tag attack defense normalize c' t_0' t_1' tag r')
      as [[x' c1']|e'];
      cbn [bind Result_eq] in *; try contradiction; [|exact Htag].
    rewrite (Hk x c1 eq_refl), (Hk' x' c1' eq_refl).
    destruct Htag as [Hx _]. cbn [fst] in Hx.
    specialize (IH results results' Hres).
    destruct (eval_tags attack defense normalize c t_0 t_1 tags results)
      as [[rs c2]|e],
      (eval_tags attack defense normalize c' t_0' t_1' tags results')
      as [[rs' c2']|e'];
      cbn [bind Result_eq] in *; try contradiction; [|exact IH].
    destruct IH as [Hrs Hc2]. cbn [fst snd] in *.
    split; cbn [fst snd]; [constructor; assumption|exact Hc2].
Qed.

Lemma eval_rows_comp (attack defense : Q) (normalize : bool)
    (damage_tags : list DamageTag.t) :
  forall rows rows',
    Forall2 row_eq rows rows' ->
    forall results results',
      Forall2 Qeq results results' ->
      Result_eq (Forall2 Qeq)
        (eval_rows attack defense normalize damage_tags rows results)
        (eval_rows attack defense normalize damage_tags rows' results').
Proof.
  induction 1 as [|[[t_0 t_1] c] [[t_0' t_1'] c'] rows rows' Hrow _ IH];
    intros results results' Hres; cbn [eval_rows]; [exact Hres|].
  destruct Hrow as [H0 [H1 Hc]]. cbn [fst snd] in H0, H1, Hc.
  pose proof (eval_tags_comp attack defense normalize c c' t_0 t_0' t_1 t_1'
                damage_tags Hc H0 H1 results results' Hres) as Htags.
  destruct (eval_tags attack defense normalize c t_0 t_1 damage_tags results)
    as [st|e],
    (eval_tags attack defense normalize c' t_0' t_1' damage_tags results')
    as [st'|e'];
    cbn [bind Result_eq] in *; try contradiction; [|exact Htags].
  apply IH. apply Htags.
Qed.

(* ------------------------------------------------------------------ *)
(** ** The time points of the two sweeps *)

Lemma q_in_InA (x : Q) (l : list Q) : q_in x l = true <-> InA Qeq x l.
Proof.
  unfold q_in. rewrite existsb_exists, InA_alt. split.
  - intros [y [Hin Heq]]. exists y. apply Qeq_bool_iff in Heq. tauto.
  - intros [y [Heq Hin]]. exists y. split; [exact Hin|].
    apply Qeq_bool_iff. exact Heq.
Qed.

Lemma add_time_point_InA (window_start window_end t : Instant) (l : list Q)
    (x : Q) :
  InA Qeq x (add_time_point window_start window_end t l)
  <-> InA Qeq x l
      \/ exists y, t = Fin y /\ y == x
                   /\ Tlt window_start (Fin y) /\ Tlt (Fin y) window_end.
Proof.
  unfold add_time_point. destruct t as [|y|].
  - split; [tauto|]. intros [H|[y [H _]]]; [exact H|discriminate].
  - destruct (Tltb window_start (Fin y)) eqn:E1;
      [destruct (Tltb (Fin y) window_end) eqn:E2|]; cbn [andb].
    + apply Tltb_iff in E1. apply Tltb_iff in E2.
      destruct (q_in y l) eqn:E3; cbn [negb].
      * apply q_in_InA in E3. split; [tauto|].
        intros [H|[y' [Hy [Heq _]]]]; [exact H|].
        inversion Hy; subst y'. eapply InA_eqA; [apply Q_Setoid|exact Heq|exact E3].
      * rewrite InA_app_iff, InA_singleton. split.
        -- intros [H|H]; [tauto|]. right. exists y.
           split; [reflexivity|]. split; [symmetry; exact H|tauto].
        -- intros [H|[y' [Hy [Heq _]]]]; [tauto|].
           inversion Hy; subst y'. right. symmetry. exact Heq.
    + split; [tauto|]. intros [H|[y' [Hy [_ [_ H]]]]]; [exact H|].
      inversion Hy; subst y'. apply Tltb_iff in H. congruence.
    + split; [tauto|]. intros [H|[y' [Hy [_ [H _]]]]]; [exact H|].
      inversion Hy; subst y'. apply Tltb_iff in H. congruence.
  - split; [tauto|]. intros [H|[y [H _]]]; [exact H|discriminate].
Qed.

Lemma add_time_point_NoDupA (window_start window_end t : Instant) (l : list Q) :
  NoDupA Qeq l -> NoDupA Qeq (add_time_point window_start window_end t l).
Proof.
  intro H. unfold add_time_point. destruct t as [|y|]; try exact H.
  destruct (Tltb window_start (Fin y) && Tltb (Fin y) window_end);
    cbn [andb]; [|exact H].
  destruct (q_in y l) eqn:E; cbn [negb]; [exact H|].
  apply NoDupA_app; try apply Q_Setoid; [exact H|apply NoDupA_singleton|].
  intros x Hx Hy. apply InA_singleton in Hy.
  assert (Hin : InA Qeq y l).
  { eapply InA_eqA; [apply Q_Setoid|exact Hy|exact Hx]. }
  apply q_in_InA in Hin. congruence.
Qed.

Lemma fold_time_points_InA (window_start window_end : Instant)
    (buffs : list Buff.t) (x : Q) :
  forall l,
    InA Qeq x
      (fold_left (fun unique_times buff =>
         add_time_point window_start window_end (Buff.end_ buff)
           (add_time_point window_start window_end (Buff.start buff)
              unique_times)) buffs l)
    <-> InA Qeq x l
        \/ exists b, In b buffs /\ boundary_inside window_start window_end b x.
Proof.
  induction buffs as [|b buffs IH]; intro l; cbn [fold_left].
  - split; [tauto|]. intros [H|[b [[] _]]]. exact H.
  - rewrite IH, !add_time_point_InA. unfold boundary_inside. split.
    + intros [[[H|H]|H]|[b' [Hb' H]]].
      * tauto.
      * right. exists b. destruct H as [y [Hy H]].
        split; [left; reflexivity|]. exists y. tauto.
      * right. exists b. destruct H as [y [Hy H]].
        split; [left; reflexivity|]. exists y. tauto.
      * right. exists b'. split; [right; exact Hb'|exact H].
    + intros [H|[b' [[Hb'|Hb'] [y [[Hy|Hy] H]]]]].
      * tauto.
      * subst b'. left. left. right. exists y. tauto.
      * subst b'. left. right. exists y. tauto.
      * right. exists b'. split; [exact Hb'|]. exists y. tauto.
      * right. exists b'. split; [exact Hb'|]. exists y. tauto.
Qed.

Lemma fold_time_points_NoDupA (window_start window_end : Instant)
    (buffs : list Buff.t) :
  forall l,
    NoDupA Qeq l ->
    NoDupA Qeq
      (fold_left (fun unique_times buff =>
         add_time_point window_start window_end (Buff.end_ buff)
           (add_time_point window_start window_end (Buff.start buff)
              unique_times)) buffs l).
Proof.
  induction buffs as [|b buffs IH]; intros l H; cbn [fold_left]; [exact H|].
  apply IH. apply add_time_point_NoDupA, add_time_point_NoDupA. exact H.
Qed.

(** Which numbers are time points. *)
Lemma get_unique_times_InA (buffs : list Buff.t)
    (window_start window_end : Instant) (x : Q) :
  InA Qeq x (get_unique_times buffs window_start window_end)
  <-> window_bound window_start window_end x
      \/ exists b, In b buffs /\ boundary_inside window_start window_end b x.
Proof.
  unfold get_unique_times. rewrite fold_time_points_InA.
  apply or_iff_compat_r. unfold window_bound.
  destruct window_start as [|ws|], window_end as [|we|]; cbn [app];
    rewrite ?InA_cons, ?InA_nil; split;
    repeat match goal with
           | |- _ -> _ => intro
           | H : _ \/ _ |- _ => destruct H
           | H : exists _, _ |- _ => destruct H
           | H : _ /\ _ |- _ => destruct H
           | H : False |- _ => contradiction
           | H : Fin _ = Fin _ |- _ => inversion H; subst; clear H
           | H : _ = _ |- _ => discriminate H
           end;
    try solve [ left; eexists; split; [reflexivity|symmetry; assumption]
              | right; eexists; split; [reflexivity|symmetry; assumption]
              | left; symmetry; assumption
              | right; left; symmetry; assumption ].
Qed.

(** The time points are pairwise different unless the window has zero
    width. *)
Lemma get_unique_times_NoDupA (buffs : list Buff.t)
    (window_start window_end : Instant) :
  ~ Teq window_start window_end ->
  NoDupA Qeq (get_unique_times buffs window_start window_end).
Proof.
  intro Hwin. unfold get_unique_times. apply fold_time_points_NoDupA.
  destruct window_start as [|ws|], window_end as [|we|]; cbn [app];
    try apply NoDupA_singleton; try constructor.
  - rewrite InA_singleton. exact Hwin.
  - apply NoDupA_singleton.
Qed.

Lemma np_sort_strict (l : list Q) : NoDupA Qeq l -> Sorted Qlt (np_sort l).
Proof.
  intro Hnd.
  assert (Hnd' : NoDupA Qeq (np_sort l)).
  { eapply PermutationA_preserves_NoDupA; [apply Q_Setoid| |exact Hnd].
    apply Permutation_PermutationA; [apply Q_Setoid|].
    apply Permutation_sym, np_sort_perm. }
  pose proof (np_sort_sorted l) as Hs.
  induction Hs as [|x s Hs IH Hx]; [constructor|].
  inversion Hnd' as [|? ? Hnotin Hnd'']; subst.
  constructor; [apply IH; exact Hnd''|].
  destruct s as [|y s]; constructor.
  inversion Hx as [|? ? Hxy _]; subst.
  apply Qle_lt_or_eq in Hxy. destruct Hxy as [Hlt|Heq]; [exact Hlt|].
  exfalso. apply Hnotin. left. exact Heq.
Qed.

(** The two sweeps compute the same time points: the sorted view of the
    buffs yields, once sorted, the numbers that the list as given yields. *)
Lemma time_points_agree (buffs : list Buff.t)
    (window_start window_end : Instant) :
  ~ Teq window_start window_end ->
  Forall2 Qeq
    (np_sort (get_unique_times (sorted_by Buff.start buffs)
                window_start window_end))
    (np_sort (get_unique_times buffs window_start window_end)).
Proof.
  intro Hwin. apply eqlistA_altdef.
  apply (SortA_equivlistA_eqlistA Q_Setoid QOrderedType.Q_as_OT.lt_strorder
           QOrderedType.Q_as_OT.lt_compat).
  - apply np_sort_strict, get_unique_times_NoDupA, Hwin.
  - apply np_sort_strict, get_unique_times_NoDupA, Hwin.
  - intro x.
    assert (Hsort : forall l, InA Qeq x (np_sort l) <-> InA Qeq x l).
    { intro l. apply (PermutationA_equivlistA Q_Setoid).
      apply Permutation_PermutationA; [apply Q_Setoid|apply np_sort_perm]. }
    rewrite !Hsort, !get_unique_times_InA.
    apply or_iff_compat_l. split; intros [b [Hb H]]; exists b; split;
      try exact H.
    + eapply Permutation_in; [apply sorted_by_perm|exact Hb].
    + eapply Permutation_in; [apply Permutation_sym, sorted_by_perm|exact Hb].
Qed.

(** On strictly increasing time points the quadratic sweep builds one
    sub-interval per consecutive pair. *)
Lemma n2_windows_consecutive (rest : list Q) :
  forall t_0, Sorted Qlt (t_0 :: rest) -> n2_windows t_0 rest = consecutive t_0 rest.
Proof.
  induction rest as [|t_1 rest IH]; intros t_0 H; [reflexivity|].
  inversion H as [|? ? Hs Hhd]; subst. inversion Hhd as [|? ? Hlt]; subst.
  cbn [n2_windows consecutive].
  replace (Qle_bool t_1 t_0) with false.
  - f_equal. apply IH. exact Hs.
  - symmetry. apply Qlt_bool_iff in Hlt. unfold Qlt_bool in Hlt.
    destruct (Qle_bool t_1 t_0); [discriminate Hlt|reflexivity].
Qed.

(** The rows of the linearithmic sweep are the consecutive pairs. *)
Lemma nlogn_rows_consecutive (add_buffs sub_buffs : list Buff.t) (rest : list Q) :
  forall prev add_index sub_index rows,
    nlogn_rows add_buffs sub_buffs prev rest add_index sub_index = Ok rows ->
    map (fun row => (row_t_0 row, row_t_1 row)) rows = consecutive prev rest.
Proof.
  induction rest as [|curr rest IH]; intros prev ai si rows H;
    cbn [nlogn_rows] in H.
  - inversion H. reflexivity.
  - destruct (guarded_advance Buff.start prev add_buffs ai) as [ai'|e];
      [|discriminate H].
    destruct (guarded_advance Buff.end_ prev sub_buffs si) as [si'|e];
      [|discriminate H].
    cbn [bind] in H.
    destruct (nlogn_rows add_buffs sub_buffs curr rest ai' si')
      as [rows'|e] eqn:E; [|discriminate H].
    cbn [bind] in H. inversion H; subst rows.
    cbn [map consecutive row_t_0 row_t_1]. f_equal. apply (IH _ _ _ _ E).
Qed.

Lemma consecutive_comp (rest rest' : list Q) :
  Forall2 Qeq rest rest' ->
  forall prev prev',
    prev == prev' ->
    Forall2 pair_eq (consecutive prev rest) (consecutive prev' rest').
Proof.
  induction 1 as [|c c' rest rest' Hc _ IH]; intros prev prev' Hp;
    cbn [consecutive]; constructor.
  - split; assumption.
  - apply IH. exact Hc.
Qed.

Lemma active_at_comp (t t' : Q) (b : Buff.t) :
  t == t' -> active_at t b = active_at t' b.
Proof.
  intro H. unfold active_at, Tgeb. f_equal.
  - apply Tleb_comp; [apply Teq_refl|exact H].
  - apply Tltb_comp; [exact H|apply Teq_refl].
Qed.

Lemma n2_cache_comp (buffs : list Buff.t) (t t' : Q) :
  t == t' -> n2_cache buffs t = n2_cache buffs t'.
Proof.
  intro H. unfold n2_cache. f_equal. apply filter_ext. intro b.
  apply active_at_comp. exact H.
Qed.

(** The rows of the linearithmic sweep with their running aggregates
    against the sub-intervals of the quadratic sweep with their fresh ones. *)
Lemma rows_agree (buffs : list Buff.t) :
  forall (rows : list SweepRow) (caches : list ModifierCache.t)
         (buff_windows : list (Q * Q)),
    Forall2 (aggregate_at buffs) rows caches ->
    Forall2 pair_eq (map (fun row => (row_t_0 row, row_t_1 row)) rows)
      buff_windows ->
    Forall2 row_eq
      (combine (map (fun row => (row_t_0 row, row_t_1 row)) rows) caches)
      (map (fun w => (fst w, snd w, n2_cache buffs (fst w))) buff_windows).
Proof.
  induction rows as [|row rows IH]; intros caches buff_windows Hagg Hpairs.
  - inversion Hpairs; subst. constructor.
  - inversion Hagg as [|? c ? caches' [Hc _] Hagg']; subst.
    inversion Hpairs as [|? [t_0 t_1] ? windows' [H0 H1] Hpairs']; subst.
    cbn [map combine fst snd] in *. constructor.
    + split; [exact H0|]. split; [exact H1|]. cbn [fst snd].
      rewrite <- (n2_cache_comp buffs (row_t_0 row) t_0 H0). exact Hc.
    + apply IH; assumption.
Qed.

Lemma np_sum_comp (l l' : list Q) : Forall2 Qeq l l' -> np_sum l == np_sum l'.
Proof.
  unfold np_sum. intro H.
  assert (Hgen : forall a a', a == a' ->
                   fold_left Qplus l a == fold_left Qplus l' a').
  { induction H as [|x x' l l' Hx _ IH]; intros a a' Ha; cbn [fold_left];
      [exact Ha|].
    apply IH. rewrite Ha, Hx. reflexivity. }
  apply Hgen. reflexivity.
Qed.

Lemma Forall2_Qeq_refl (l : list Q) : Forall2 Qeq l l.
Proof. induction l; constructor; [reflexivity|assumption]. Qed.

Lemma finish_comp (accumulate : bool) (l l' : list Q) :
  Forall2 Qeq l l' -> Dps_eq (finish accumulate l) (finish accumulate l').
Proof.
  intro H. unfold finish. destruct accumulate; cbn [Dps_eq];
    [apply np_sum_comp|]; exact H.
Qed.

(** The two sweeps agree wherever the linearithmic one returns: on buffs
    with [start < end] and a window that is not of zero width, a result of
    [compute_dps_window_nlogn] is the result of [compute_dps_window_n2],
    tag by tag. *)
Lemma sweeps_agree (damage_tags : list DamageTag.t) (attack defense : Q)
    (buffs : list Buff.t) (window_start window_end : Instant)
    (accumulate normalize : bool) (r : Dps) :
  well_formed buffs ->
  ~ Teq window_start window_end ->
  compute_dps_window_nlogn damage_tags attack defense buffs
    window_start window_end accumulate normalize = Ok r ->
  exists r',
    compute_dps_window_n2 damage_tags attack defense buffs
      window_start window_end accumulate normalize = Ok r'
    /\ Dps_eq r r'.
Proof.
  intros Hwf Hwin Hrun.
  unfold compute_dps_window_nlogn in Hrun.
  destruct (nlogn_plan buffs window_start window_end) as [rows|e] eqn:Hplan;
    [|discriminate Hrun].
  cbn [bind] in Hrun.
  destruct (nlogn_plan_invariant buffs window_start window_end rows Hwf Hplan)
    as [caches [Hcaches Hall]].
  rewrite (nlogn_sweep_trace attack defense normalize _ _ damage_tags rows
             (generate_cache []) caches _ Hcaches) in Hrun.
  pose proof (time_points_agree buffs window_start window_end Hwin) as Htp.
  pose proof (np_sort_strict _ (get_unique_times_NoDupA buffs window_start
                                  window_end Hwin)) as Hstrict.
  unfold nlogn_plan in Hplan. unfold compute_dps_window_n2.
  destruct (np_sort (get_unique_times (sorted_by Buff.start buffs)
                       window_start window_end)) as [|prev rest];
    [discriminate Hplan|].
  destruct (np_sort (get_unique_times buffs window_start window_end))
    as [|t_0 rest'];
    inversion Htp as [|? ? ? ? Hprev Hrest]; subst.
  cbn [n2_windows]. rewrite Qle_bool_refl.
  rewrite (n2_windows_consecutive rest' t_0 Hstrict), n2_sweep_trace.
  pose proof (nlogn_rows_consecutive _ _ rest prev 0%nat 0%nat rows Hplan)
    as Hrows.
  pose proof (consecutive_comp rest rest' Hrest prev t_0 Hprev) as Hpairs.
  rewrite <- Hrows in Hpairs.
  pose proof (rows_agree buffs rows caches (consecutive t_0 rest') Hall Hpairs)
    as Hagree.
  pose proof (Forall2_Qeq_refl (repeat 0 (List.length damage_tags))) as Hzeros.
  pose proof (eval_rows_comp attack defense normalize damage_tags _ _ Hagree
                _ _ Hzeros) as Heval.
  destruct (eval_rows attack defense normalize damage_tags
              (combine (map (fun row => (row_t_0 row, row_t_1 row)) rows) caches)
              (repeat 0 (List.length damage_tags))) as [results|e];
    [|discriminate Hrun].
  destruct (eval_rows attack defense normalize damage_tags
              (map (fun w => (fst w, snd w, n2_cache buffs (fst w)))
                 (consecutive t_0 rest'))
              (repeat 0 (List.length damage_tags))) as [results'|e'];
    cbn [Result_eq] in Heval; [|contradiction].
  cbn [bind] in *. inversion Hrun; subst r.
  exists (finish accumulate results'). split; [reflexivity|].
  apply finish_comp. exact Heval.
Qed.

(* ================================================================== *)
(** * Further properties of the aggregate *)

Lemma buffs_range_ok (l : list Buff.t) (n : nat) :
  forall i c c',
    ModifierCache.add_buffs_range c l i n = Ok c' ->
    c' = ModifierCache.add_buffs c (firstn n (skipn i l))
    /\ forall c0,
         ModifierCache.remove_buffs_range c0 l i n
         = Ok (remove_buffs c0 (firstn n (skipn i l))).
Proof.
  induction n as [|n IH]; intros i c c' H; simpl in H.
  - inversion H. split; [reflexivity|]. intro c0. reflexivity.
  - destruct (nth_error l i) as [b|] eqn:E; [|discriminate H].
    destruct (IH (S i) _ _ H) as [Hc' Hrem].
    rewrite (skipn_cons_nth_error l i b E). split; [exact Hc'|].
    intro c0. simpl. rewrite E. apply Hrem.
Qed.

Lemma cache_eq_counters (a b : ModifierCache.t) :
  cache_eq a b -> exact_counters a = exact_counters b.
Proof.
  unfold cache_eq, exact_counters.
  intros (_ & _ & _ & _ & _ & _ & _ & _ & _ & _ & _ & _ & H1 & H2 & H3 & H4).
  rewrite H1, H2, H3, H4. reflexivity.
Qed.

(** X2.  Whatever form the call takes, for a dict, a list, or a list
    with an index range: whenever [add_buffs(buffs, start, end)] returns,
    [remove_buffs] with the same arguments returns as well, and the four
    override counters are back at their values.  (The float attributes
    are back up to rounding only, see C6.) *)
Theorem remove_buffs_call_undoes_add (c c' : ModifierCache.t) (buffs : BuffsArg)
    (start end_ : option nat) :
  buffs <> ArgNone ->
  add_buffs_call c buffs start end_ = Returns c' ->
  exists c'',
    remove_buffs_call c' buffs start end_ = Returns c''
    /\ exact_counters c'' = exact_counters c.
Proof.
  intros Hnone Hadd. destruct buffs as [b|l|]; [| |congruence].
  - simpl in *. inversion Hadd; subst c'. eexists. split; [reflexivity|].
    apply cache_eq_counters, cache_eq_fields. intro f.
    rewrite remove_buff_field, add_buff_field. ring.
  - assert (Hlist : forall l0 c0,
               cache_eq (remove_buffs (ModifierCache.add_buffs c0 l0) l0) c0).
    { intros l0 c0. apply cache_eq_fields. intro f. unfold remove_buffs.
      rewrite remove_buffs_field, add_buffs_field. ring. }
    simpl in *. destruct start as [s|], end_ as [e|];
      try (inversion Hadd; subst c'; eexists;
           split; [reflexivity|apply cache_eq_counters, Hlist]).
    destruct (ModifierCache.add_buffs_range c l s (e - s)) as [c1|err] eqn:E;
      simpl in Hadd; [|discriminate Hadd].
    inversion Hadd; subst c1.
    destruct (buffs_range_ok l (e - s) s c c' E) as [Hc' Hrem].
    rewrite Hrem. simpl. eexists. split; [reflexivity|].
    rewrite Hc'. apply cache_eq_counters, Hlist.
Qed.

(** X2, at a list with the index range [1, 2). *)
Lemma remove_buffs_call_undoes_add_witness :
  (ArgList [crit_buff; charge_buff] <> ArgNone
   /\ add_buffs_call (generate_cache []) (ArgList [crit_buff; charge_buff])
        (Some 1%nat) (Some 2%nat)
      = Returns (ModifierCache.add_buff (generate_cache []) charge_buff))
  /\ exists c'',
       remove_buffs_call (ModifierCache.add_buff (generate_cache []) charge_buff)
         (ArgList [crit_buff; charge_buff]) (Some 1%nat) (Some 2%nat)
       = Returns c''
       /\ exact_counters c'' = exact_counters (generate_cache []).
Proof.
  assert (H1 : ArgList [crit_buff; charge_buff] <> ArgNone) by discriminate.
  assert (H2 : add_buffs_call (generate_cache [])
                 (ArgList [crit_buff; charge_buff]) (Some 1%nat) (Some 2%nat)
               = Returns (ModifierCache.add_buff (generate_cache []) charge_buff))
    by reflexivity.
  split; [split; assumption|].
  exact (remove_buffs_call_undoes_add _ _ _ _ _ H1 H2).
Defined.





(** X5.  No buff ever changes the aggregate's [core_dmg], [range_dmg] or
    [full_burst_dmg]: whatever keys the buffs carry, adding or removing
    them leaves the three attributes at their values, so [generate_cache]
    always holds the baselines 100, 30 and 50.  The buff keys of those
    names are added to [crit_dmg] instead. *)
Theorem bonus_percentages_frozen (c : ModifierCache.t) (l : list Buff.t)
    (b : Buff.t) :
  (ModifierCache.core_dmg (ModifierCache.add_buffs c l) = ModifierCache.core_dmg c
   /\ ModifierCache.range_dmg (ModifierCache.add_buffs c l)
      = ModifierCache.range_dmg c
   /\ ModifierCache.full_burst_dmg (ModifierCache.add_buffs c l)
      = ModifierCache.full_burst_dmg c)
  /\ (ModifierCache.core_dmg (remove_buffs c l) = ModifierCache.core_dmg c
      /\ ModifierCache.range_dmg (remove_buffs c l) = ModifierCache.range_dmg c
      /\ ModifierCache.full_burst_dmg (remove_buffs c l)
         = ModifierCache.full_burst_dmg c)
  /\ (ModifierCache.core_dmg (generate_cache l) = 100
      /\ ModifierCache.range_dmg (generate_cache l) = 30
      /\ ModifierCache.full_burst_dmg (generate_cache l) = 50)
  /\ ModifierCache.crit_dmg (ModifierCache.add_buff c b)
     == ModifierCache.crit_dmg c
        + (scaled (Buff.crit_dmg b) (inject_Z (Buff.get_stacks b))
           + scaled (Buff.core_dmg b) (inject_Z (Buff.get_stacks b))
           + scaled (Buff.range_dmg b) (inject_Z (Buff.get_stacks b))
           + scaled (Buff.full_burst_dmg b) (inject_Z (Buff.get_stacks b))).
Proof.
  assert (Hadd : forall c0 b0,
             ModifierCache.core_dmg (ModifierCache.add_buff c0 b0)
             = ModifierCache.core_dmg c0
             /\ ModifierCache.range_dmg (ModifierCache.add_buff c0 b0)
                = ModifierCache.range_dmg c0
             /\ ModifierCache.full_burst_dmg (ModifierCache.add_buff c0 b0)
                = ModifierCache.full_burst_dmg c0).
  { intros c0 b0. unfold ModifierCache.add_buff; cbv zeta.
    split; [|split].
    - peel ModifierCache.core_dmg. reflexivity.
    - peel ModifierCache.range_dmg. reflexivity.
    - peel ModifierCache.full_burst_dmg. reflexivity. }
  assert (Hrem : forall c0 b0,
             ModifierCache.core_dmg (ModifierCache.remove_buff c0 b0)
             = ModifierCache.core_dmg c0
             /\ ModifierCache.range_dmg (ModifierCache.remove_buff c0 b0)
                = ModifierCache.range_dmg c0
             /\ ModifierCache.full_burst_dmg (ModifierCache.remove_buff c0 b0)
                = ModifierCache.full_burst_dmg c0).
  { intros c0 b0. unfold ModifierCache.remove_buff; cbv zeta.
    split; [|split].
    - peel ModifierCache.core_dmg. reflexivity.
    - peel ModifierCache.range_dmg. reflexivity.
    - peel ModifierCache.full_burst_dmg. reflexivity. }
  assert (Hadds : forall l0 c0,
             ModifierCache.core_dmg (ModifierCache.add_buffs c0 l0)
             = ModifierCache.core_dmg c0
             /\ ModifierCache.range_dmg (ModifierCache.add_buffs c0 l0)
                = ModifierCache.range_dmg c0
             /\ ModifierCache.full_burst_dmg (ModifierCache.add_buffs c0 l0)
                = ModifierCache.full_burst_dmg c0).
  { unfold ModifierCache.add_buffs.
    induction l0 as [|b0 l0 IH]; intro c0; simpl; [tauto|].
    destruct (IH (ModifierCache.add_buff c0 b0)) as [H1 [H2 H3]].
    destruct (Hadd c0 b0) as [H4 [H5 H6]].
    rewrite H1, H2, H3. tauto. }
  split; [apply Hadds|]. split.
  - unfold remove_buffs. revert c.
    induction l as [|b0 l IH]; intro c; simpl; [tauto|].
    destruct (IH (ModifierCache.remove_buff c b0)) as [H1 [H2 H3]].
    destruct (Hrem c b0) as [H4 [H5 H6]].
    rewrite H1, H2, H3. tauto.
  - split.
    + unfold generate_cache, generate_cache_with.
      destruct (Hadds l (baseline_cache 15 50 100 30 50)) as [H1 [H2 H3]].
      rewrite H1, H2, H3. repeat split; reflexivity.
    + apply (add_buff_field FCritDmg c b).
Qed.

(** X7.  [stacks] never scales an override counter: whatever [stacks]
    says, a flag key counts once (its integer value, 1 for [True] or for a
    value that is no integer). *)
Theorem add_buff_counters_ignore_stacks (c : ModifierCache.t) (b : Buff.t)
    (n : Z) :
  ModifierCache.core_hit (ModifierCache.add_buff c (with_stacks b n))
  = (ModifierCache.core_hit c
     + match Buff.core_hit b with Some v => flag_amount v | None => 0 end)%Z
  /\ ModifierCache.range_bonus (ModifierCache.add_buff c (with_stacks b n))
     = (ModifierCache.range_bonus c
        + match Buff.range_bonus b with Some v => flag_amount v | None => 0 end)%Z
  /\ ModifierCache.full_burst (ModifierCache.add_buff c (with_stacks b n))
     = (ModifierCache.full_burst c
        + match Buff.full_burst b with Some v => flag_amount v | None => 0 end)%Z
  /\ ModifierCache.element_bonus (ModifierCache.add_buff c (with_stacks b n))
     = (ModifierCache.element_bonus c
        + match Buff.element_bonus b with Some v => flag_amount v | None => 0 end)%Z.
Proof.
  unfold ModifierCache.add_buff; cbv zeta.
  cbn [with_stacks Buff.core_hit Buff.range_bonus Buff.full_burst
       Buff.element_bonus Buff.attack Buff.charge_dmg Buff.full_charge_dmg
       Buff.damage_taken Buff.element_dmg Buff.damage_up Buff.defense
       Buff.flat_atk Buff.crit_rate Buff.crit_dmg Buff.core_dmg Buff.range_dmg
       Buff.full_burst_dmg].
  split; [|split; [|split]].
  - peel ModifierCache.core_hit.
    destruct (Buff.core_hit b); simpl; lia.
  - peel ModifierCache.range_bonus.
    destruct (Buff.range_bonus b); simpl; lia.
  - peel ModifierCache.full_burst.
    destruct (Buff.full_burst b); simpl; lia.
  - peel ModifierCache.element_bonus.
    destruct (Buff.element_bonus b); simpl; lia.
Qed.

(* ================================================================== *)
Lemma py_min_cases (a b : Q) :
  (b < a /\ py_min a b = b) \/ (a <= b /\ py_min a b = a).
Proof.
  unfold py_min. destruct (Qlt_bool b a) eqn:E.
  - left. apply Qlt_bool_iff in E. tauto.
  - right. apply Qlt_bool_false_iff in E. tauto.
Qed.

Lemma py_max_cases (a b : Q) :
  (a < b /\ py_max a b = b) \/ (b <= a /\ py_max a b = a).
Proof.
  unfold py_max. destruct (Qlt_bool a b) eqn:E.
  - left. apply Qlt_bool_iff in E. tauto.
  - right. apply Qlt_bool_false_iff in E. tauto.
Qed.

(** X9.  The crit rate saturates at 100 and the crit damage at 0: with an
    aggregate crit rate of 100 or more the average damage is the crit
    damage, and with an aggregate crit damage of 0 or less the crit damage
    is the no-crit damage; and whenever the damage before modifiers is not
    negative, the crit damage is at least the no-crit damage. *)
Theorem compute_damage_saturates (damage attack defense : Q)
    (buffs : list Buff.t) (core_hit range_bonus full_burst element_bonus : bool)
    (cache : option ModifierCache.t) :
  let calc := damage_calc buffs cache in
  let r := compute_damage damage attack defense buffs core_hit range_bonus
             full_burst element_bonus cache in
  (100 <= ModifierCache.crit_rate calc -> dmg_avg r == dmg_crit r)
  /\ (ModifierCache.crit_dmg calc <= 0 -> dmg_crit r == dmg_base r)
  /\ (0 <= base_dmg damage attack defense calc element_bonus ->
      dmg_base r <= dmg_crit r).
Proof.
  intros calc r. subst r. unfold compute_damage. fold calc. cbv zeta.
  unfold dmg_base, dmg_avg, dmg_crit. cbn [fst snd]. split; [|split].
  - intro H.
    assert (Hx : 1 <= ModifierCache.crit_rate calc / 100).
    { apply Qle_shift_div_l; [reflexivity|]. lra. }
    destruct (py_min_cases 1 (ModifierCache.crit_rate calc / 100))
      as [[H0 _]|[_ Hp]]; [lra|].
    rewrite Hp. ring.
  - intro H.
    assert (Hx : ModifierCache.crit_dmg calc / 100 <= 0).
    { apply Qle_shift_div_r; [reflexivity|]. lra. }
    destruct (py_max_cases 0 (ModifierCache.crit_dmg calc / 100))
      as [[H0 _]|[_ Hk]]; [lra|].
    rewrite Hk. ring.
  - intro Hd.
    set (d := base_dmg damage attack defense calc element_bonus) in *.
    set (m := base_mod calc core_hit range_bonus full_burst).
    assert (Hc : 0 <= py_max 0 (ModifierCache.crit_dmg calc / 100)).
    { destruct (py_max_cases 0 (ModifierCache.crit_dmg calc / 100))
        as [[H0 H]|[_ H]]; rewrite H; lra. }
    set (k := py_max 0 (ModifierCache.crit_dmg calc / 100)) in *.
    assert (H1 : 0 <= d * k) by (apply Qmult_le_0_compat; assumption).
    setoid_replace (d * (m + k)) with (d * m + d * k) by ring. lra.
Qed.

(** X9, at a crit rate of 120 and at a crit damage of -10. *)
Lemma compute_damage_saturates_witness :
  dmg_avg (compute_damage 100 100000 10000 [] false false false false
             (Some (ModifierCache.set_crit_rate (generate_cache []) 120)))
  == dmg_crit (compute_damage 100 100000 10000 [] false false false false
                 (Some (ModifierCache.set_crit_rate (generate_cache []) 120)))
  /\ dmg_crit (compute_damage 100 100000 10000 [] false false false false
                 (Some (ModifierCache.set_crit_dmg (generate_cache []) (-(10)))))
     == dmg_base (compute_damage 100 100000 10000 [] false false false false
                    (Some (ModifierCache.set_crit_dmg (generate_cache []) (-(10))))).
Proof.
  split.
  - apply (proj1 (compute_damage_saturates 100 100000 10000 [] false false
                    false false
                    (Some (ModifierCache.set_crit_rate (generate_cache []) 120)))).
    vm_compute. discriminate.
  - apply (proj1 (proj2 (compute_damage_saturates 100 100000 10000 [] false
                           false false false
                           (Some (ModifierCache.set_crit_dmg
                                    (generate_cache []) (-(10))))))).
    vm_compute. discriminate.
Defined.

(** X10.  The aggregate's [element_dmg] counts only when elemental
    advantage is triggered.  As long as the [element_bonus] counter is not
    positive: without the flag the damage is the same whatever
    [element_dmg] holds, and with the flag each of the three damages is the
    one without it times [element_dmg / 100] (1.1 at the baseline). *)
Theorem element_dmg_gated (damage attack defense : Q) (c : ModifierCache.t)
    (core_hit range_bonus full_burst : bool) (v : Q) :
  (ModifierCache.element_bonus c <= 0)%Z ->
  compute_damage damage attack defense [] core_hit range_bonus full_burst
    false (Some (ModifierCache.set_element_dmg c v))
  = compute_damage damage attack defense [] core_hit range_bonus full_burst
      false (Some c)
  /\ Dmg3_eq
       (compute_damage damage attack defense [] core_hit range_bonus
          full_burst true (Some c))
       (let r := compute_damage damage attack defense [] core_hit range_bonus
                   full_burst false (Some c) in
        (ModifierCache.element_dmg c / 100 * dmg_base r,
         ModifierCache.element_dmg c / 100 * dmg_crit r,
         ModifierCache.element_dmg c / 100 * dmg_avg r)).
Proof.
  intro H. apply Z.leb_le in H.
  unfold compute_damage, damage_calc, ModifierCache.add_buffs.
  cbn [fold_left]. cbv zeta. split.
  - unfold base_dmg, base_mod. cbn. rewrite H. reflexivity.
  - unfold Dmg3_eq, dmg_base, dmg_crit, dmg_avg. cbn [fst snd].
    unfold base_dmg. cbn. rewrite H. cbn. split; [|split]; field.
Qed.

(** X10, at the baseline aggregate. *)
Lemma element_dmg_gated_witness :
  (ModifierCache.element_bonus (generate_cache []) <= 0)%Z
  /\ compute_damage 100 100000 10000 [] false false false false
       (Some (ModifierCache.set_element_dmg (generate_cache []) 250))
     = compute_damage 100 100000 10000 [] false false false false
         (Some (generate_cache [])).
Proof.
  assert (H : (ModifierCache.element_bonus (generate_cache []) <= 0)%Z)
    by (vm_compute; discriminate).
  split; [exact H|].
  exact (proj1 (element_dmg_gated 100 100000 10000 (generate_cache []) false
                  false false 250 H)).
Defined.

Lemma override_forces_flag (damage attack defense : Q) (c : ModifierCache.t)
    (core_hit range_bonus full_burst element_bonus : bool) :
  ((0 < ModifierCache.core_hit c)%Z ->
   compute_damage damage attack defense [] core_hit range_bonus full_burst
     element_bonus (Some c)
   = compute_damage damage attack defense [] true range_bonus full_burst
       element_bonus (Some c))
  /\ ((0 < ModifierCache.range_bonus c)%Z ->
      compute_damage damage attack defense [] core_hit range_bonus full_burst
        element_bonus (Some c)
      = compute_damage damage attack defense [] core_hit true full_burst
          element_bonus (Some c))
  /\ ((0 < ModifierCache.full_burst c)%Z ->
      compute_damage damage attack defense [] core_hit range_bonus full_burst
        element_bonus (Some c)
      = compute_damage damage attack defense [] core_hit range_bonus true
          element_bonus (Some c))
  /\ ((0 < ModifierCache.element_bonus c)%Z ->
      compute_damage damage attack defense [] core_hit range_bonus full_burst
        element_bonus (Some c)
      = compute_damage damage attack defense [] core_hit range_bonus full_burst
          true (Some c)).
Proof.
  unfold compute_damage, damage_calc, ModifierCache.add_buffs.
  cbn [fold_left]. cbv zeta. unfold base_mod, base_dmg. cbv zeta.
  split; [|split; [|split]]; intro H.
  - apply Z.ltb_lt in H. rewrite H, !orb_true_r. reflexivity.
  - apply Z.ltb_lt in H. rewrite H, !orb_true_r. reflexivity.
  - apply Z.ltb_lt in H. rewrite H, !orb_true_r. reflexivity.
  - assert (H' : (ModifierCache.element_bonus c <=? 0)%Z = false)
      by (apply Z.leb_gt; exact H).
    cbn. rewrite H', !andb_false_r. reflexivity.
Qed.

(** X11.  A positive override counter forces its bonus: with a buff that
    sets [core_hit] active, [compute_damage] returns the same damages
    whether the [core_hit] flag is passed or not, and so the entries of the
    outcome matrix coincide in pairs: the label with "core" and the label
    without it carry the same no-crit, crit and average damage. *)
Theorem core_override_collapses_matrix (damage attack defense : Q)
    (cache : ModifierCache.t) (r f e : bool) :
  (0 < ModifierCache.core_hit cache)%Z ->
  let m := fst (compute_damage_matrix damage attack defense None (Some cache)) in
  compute_damage damage attack defense [] false r f e (Some cache)
  = compute_damage damage attack defense [] true r f e (Some cache)
  /\ exists base crit avg,
       dict_get m (get_bonus_tag false r f e)
       = Some (MatEntry (combo_index false r f e) base crit avg)
       /\ dict_get m (get_bonus_tag true r f e)
          = Some (MatEntry (combo_index true r f e) base crit avg).
Proof.
  intros H m.
  pose proof (proj1 (override_forces_flag damage attack defense cache false r f e)
                H) as Heq.
  split; [exact Heq|].
  subst m. rewrite compute_damage_matrix_unfold. cbn [matrix_cache
    ModifierCache.add_buffs_opt].
  rewrite !matrix_of_entry. rewrite Heq.
  do 3 eexists. split; reflexivity.
Qed.

(** X11, with one buff that sets [core_hit] to [True]. *)
Lemma core_override_collapses_matrix_witness :
  (0 < ModifierCache.core_hit (generate_cache [crit_buff]))%Z
  /\ compute_damage 100 100000 10000 [] false false true false
       (Some (generate_cache [crit_buff]))
     = compute_damage 100 100000 10000 [] true false true false
         (Some (generate_cache [crit_buff])).
Proof.
  assert (H : (0 < ModifierCache.core_hit (generate_cache [crit_buff]))%Z)
    by (vm_compute; reflexivity).
  split; [exact H|].
  exact (proj1 (core_override_collapses_matrix 100 100000 10000
                  (generate_cache [crit_buff]) false true false H)).
Defined.

(** X12.  [get_multiplier] does not invert [compute_damage]: deriving a
    multiplier from an observed damage and feeding it back with the same
    attack and defense returns the damage times
    [(attack + defense) / (attack - defense)], the damage itself only when
    damage or defense is 0; with [attack = defense], [get_multiplier]
    raises [ZeroDivisionError]. *)
Theorem get_multiplier_round_trip (damage attack defense : Q) :
  (attack == defense ->
   get_multiplier damage attack defense = Raise ZeroDivisionError)
  /\ (~ attack == defense ->
      exists m,
        get_multiplier damage attack defense = Ok m
        /\ dmg_base (compute_actual_damage (100 * m) attack defense []
                       false false false false)
           == damage * (attack + defense) / (attack - defense)
        /\ (dmg_base (compute_actual_damage (100 * m) attack defense []
                        false false false false) == damage
            <-> damage * defense == 0)).
Proof.
  unfold get_multiplier, py_div. split; intro H.
  - assert (E : Qeq_bool (attack - defense) 0 = true).
    { apply Qeq_bool_iff. rewrite H. ring. }
    rewrite E. reflexivity.
  - assert (Hne : ~ attack - defense == 0) by (intro H0; apply H; lra).
    assert (E : Qeq_bool (attack - defense) 0 = false).
    { destruct (Qeq_bool (attack - defense) 0) eqn:E0; [|reflexivity].
      apply Qeq_bool_iff in E0. contradiction. }
    rewrite E. eexists. split; [reflexivity|].
    assert (Hbase : dmg_base (compute_actual_damage
                                (100 * (damage / (attack - defense)))
                                attack defense [] false false false false)
                    == damage * (attack + defense) / (attack - defense)).
    { unfold compute_actual_damage, compute_damage, dmg_base, damage_calc.
      cbn [fst snd ModifierCache.add_buffs fold_left]. cbv zeta.
      unfold base_dmg, base_mod. cbn. field. exact Hne. }
    split; [exact Hbase|].
    rewrite Hbase. split; intro H0.
    + assert (H1 : damage * (attack + defense)
                   == damage * (attack - defense)).
      { rewrite <- H0 at 2. field. exact Hne. }
      lra.
    + setoid_replace (damage * (attack + defense))
        with (damage * (attack - defense) + 2 * (damage * defense)) by ring.
      rewrite H0. field. exact Hne.
Qed.

(** X12, at the values of [nikke_enemies.alteisen]. *)
Lemma get_multiplier_round_trip_witness :
  ~ 65613 == 5740
  /\ exists m,
       get_multiplier 438622 65613 5740 = Ok m
       /\ dmg_base (compute_actual_damage (100 * m) 65613 5740 []
                      false false false false)
          == 438622 * (65613 + 5740) / (65613 - 5740).
Proof.
  assert (H : ~ 65613 == 5740) by (vm_compute; discriminate).
  split; [exact H|].
  destruct (proj2 (get_multiplier_round_trip 438622 65613 5740) H)
    as [m [Hm [Hbase _]]].
  exists m. split; assumption.
Defined.

(** X13.  A cache is transparent: splitting a buff list between the cache
    and the [buffs] argument gives the damage of the whole list, and
    [Examples.compute_actual_damage] is [compute_damage] on its buffs. *)
Theorem compute_damage_cache_split (damage attack defense : Q)
    (l1 l2 : list Buff.t)
    (core_hit range_bonus full_burst element_bonus : bool) :
  compute_damage damage attack defense l2 core_hit range_bonus full_burst
    element_bonus (Some (generate_cache l1))
  = compute_damage damage attack defense (l1 ++ l2) core_hit range_bonus
      full_burst element_bonus None
  /\ compute_actual_damage damage attack defense l1 core_hit range_bonus
       full_burst element_bonus
     = compute_damage damage attack defense l1 core_hit range_bonus full_burst
         element_bonus None.
Proof.
  unfold compute_actual_damage, compute_damage, damage_calc, generate_cache,
    generate_cache_with, ModifierCache.add_buffs.
  rewrite fold_left_app. split; reflexivity.
Qed.

(* ================================================================== *)
(* ================================================================== *)
(** * Further properties of the time points and the sub-intervals *)

Lemma In_InA_Qeq (x : Q) (l : list Q) : In x l -> InA Qeq x l.
Proof.
  intro H. apply InA_alt. exists x. split; [reflexivity|exact H].
Qed.

(** X16.  The time points are the finite bounds of the window and the
    finite starts and ends of the buffs that lie strictly inside the
    window, and nothing else; so on a window with [start <= end] every time
    point lies in the closed window. *)
Theorem get_unique_times_points (buffs : list Buff.t)
    (window_start window_end : Instant) (x : Q) :
  (InA Qeq x (get_unique_times buffs window_start window_end)
   <-> window_bound window_start window_end x
       \/ exists b, In b buffs
                    /\ boundary_inside window_start window_end b x)
  /\ (Tle window_start window_end ->
      In x (get_unique_times buffs window_start window_end) ->
      Tle window_start (Fin x) /\ Tle (Fin x) window_end).
Proof.
  split; [apply get_unique_times_InA|].
  intros Hwin Hin. apply In_InA_Qeq in Hin.
  apply get_unique_times_InA in Hin.
  destruct Hin as [[[w [Hw Heq]]|[w [Hw Heq]]]|[b [_ [y [_ [Heq [H1 H2]]]]]]].
  - subst window_start. split; [simpl; rewrite Heq; apply Qle_refl|].
    destruct window_end; simpl in *; try tauto. rewrite <- Heq. exact Hwin.
  - subst window_end. split; [|simpl; rewrite Heq; apply Qle_refl].
    destruct window_start; simpl in *; try tauto. rewrite <- Heq. exact Hwin.
  - split.
    + destruct window_start; simpl in *; try tauto.
      rewrite <- Heq. apply Qlt_le_weak. exact H1.
    + destruct window_end; simpl in *; try tauto.
      rewrite <- Heq. apply Qlt_le_weak. exact H2.
Qed.

(** X16, at the window [0, 15] and the point 10, the end of a buff. *)
Lemma get_unique_times_points_witness :
  (Tle (Fin 0) (Fin 15)
   /\ In 10 (get_unique_times staggered_buffs (Fin 0) (Fin 15)))
  /\ Tle (Fin 0) (Fin 10) /\ Tle (Fin 10) (Fin 15).
Proof.
  assert (H1 : Tle (Fin 0) (Fin 15)) by (vm_compute; discriminate).
  assert (H2 : In 10 (get_unique_times staggered_buffs (Fin 0) (Fin 15)))
    by (vm_compute; tauto).
  split; [split; assumption|].
  exact (proj2 (get_unique_times_points staggered_buffs (Fin 0) (Fin 15) 10)
           H1 H2).
Defined.

(** X17.  Unless the window has zero width, no two time points are equal,
    and sorting them gives a strictly increasing list; on a zero-width
    window the list is the same point twice. *)
Theorem get_unique_times_distinct (buffs : list Buff.t)
    (window_start window_end : Instant) :
  ~ Teq window_start window_end ->
  NoDupA Qeq (get_unique_times buffs window_start window_end)
  /\ Sorted Qlt (np_sort (get_unique_times buffs window_start window_end))
  /\ forall w, get_unique_times buffs (Fin w) (Fin w) = [w; w].
Proof.
  intro H. split; [apply get_unique_times_NoDupA; exact H|].
  split; [apply np_sort_strict, get_unique_times_NoDupA; exact H|].
  intro w. apply get_unique_times_empty_window.
Qed.

(** X17, at the window [0, 15]. *)
Lemma get_unique_times_distinct_witness :
  ~ Teq (Fin 0) (Fin 15)
  /\ NoDupA Qeq (get_unique_times staggered_buffs (Fin 0) (Fin 15))
  /\ Sorted Qlt (np_sort (get_unique_times staggered_buffs (Fin 0) (Fin 15))).
Proof.
  assert (H : ~ Teq (Fin 0) (Fin 15)) by (vm_compute; discriminate).
  split; [exact H|].
  destruct (get_unique_times_distinct staggered_buffs (Fin 0) (Fin 15) H)
    as [H1 [H2 _]].
  split; assumption.
Defined.

Lemma n2_windows_head (time_points : list Q) :
  forall t_0 w rest,
    n2_windows t_0 time_points = w :: rest -> fst w = t_0.
Proof.
  induction time_points as [|t_1 pts IH]; intros t_0 w rest H;
    cbn [n2_windows] in H; [discriminate H|].
  destruct (Qle_bool t_1 t_0); [apply (IH _ _ _ H)|].
  inversion H. reflexivity.
Qed.

(** X18.  Whatever the list of time points, the sub-intervals that the
    quadratic sweep builds are never empty ([t_0 < t_1]), each starts
    where the one before it ends, the first starts at the first time
    point, and every end is one of the time points. *)
Theorem n2_windows_proper (time_points : list Q) (t_0 : Q) :
  Forall (fun w => fst w < snd w) (n2_windows t_0 time_points)
  /\ chained (n2_windows t_0 time_points)
  /\ match n2_windows t_0 time_points with
     | [] => True
     | w :: _ => fst w = t_0
     end
  /\ Forall (fun w => In (snd w) time_points) (n2_windows t_0 time_points).
Proof.
  split; [|split; [|split]]; revert t_0.
  3: { intro t_0. destruct (n2_windows t_0 time_points) as [|w rest] eqn:E;
         [exact I|]. apply (n2_windows_head time_points t_0 w rest E). }
  - induction time_points as [|t_1 pts IH]; intro t_0; cbn [n2_windows];
      [constructor|].
    destruct (Qle_bool t_1 t_0) eqn:E; [apply IH|].
    constructor; [|apply IH]. cbn [fst snd].
    apply Qlt_bool_iff. unfold Qlt_bool. rewrite E. reflexivity.
  - induction time_points as [|t_1 pts IH]; intro t_0; cbn [n2_windows];
      [exact I|].
    destruct (Qle_bool t_1 t_0); [apply IH|].
    cbn [chained]. split; [|apply IH].
    destruct (n2_windows t_1 pts) as [|w rest] eqn:E; [exact I|].
    cbn [snd]. symmetry. apply (n2_windows_head pts t_1 w rest E).
  - induction time_points as [|t_1 pts IH]; intro t_0; cbn [n2_windows];
      [constructor|].
    destruct (Qle_bool t_1 t_0).
    + eapply Forall_impl; [|apply IH]. intros w Hw. right. exact Hw.
    + constructor; [left; reflexivity|].
      eapply Forall_impl; [|apply IH]. intros w Hw. right. exact Hw.
Qed.

(* ================================================================== *)
(** * Further properties of the sweeps *)

(** X20, the lemma [nlogn_raises_when_all_started] at one buff over
    [0, 10) and the window [0, 10]. *)
Lemma nlogn_raises_when_all_started_witness :
  ([attack_buff (Fin 0) (Fin 10) 20] <> []
   /\ 0 <= 10
   /\ forall b, In b [attack_buff (Fin 0) (Fin 10) 20] ->
                Tle (Buff.start b) (Fin 0))
  /\ compute_dps_window_nlogn [instant_tag 5] 100000 10000
       [attack_buff (Fin 0) (Fin 10) 20] (Fin 0) (Fin 10) true true
     = Raise IndexError.
Proof.
  assert (H1 : [attack_buff (Fin 0) (Fin 10) 20] <> []) by discriminate.
  assert (H2 : 0 <= 10) by (vm_compute; discriminate).
  assert (H3 : forall b, In b [attack_buff (Fin 0) (Fin 10) 20] ->
                         Tle (Buff.start b) (Fin 0)).
  { intros b [H|[]]. subst b. vm_compute. discriminate. }
  split; [repeat split; assumption|].
  exact (nlogn_raises_when_all_started [instant_tag 5] 100000 10000 _ 0 10
           true true H1 H2 H3).
Defined.


Lemma time_point_within (buffs : list Buff.t)
    (window_start window_end : Instant) (x : Q) :
  Tle window_start window_end ->
  In x (get_unique_times buffs window_start window_end) ->
  Tle window_start (Fin x) /\ Tle (Fin x) window_end.
Proof.
  intros Hwin Hin. apply In_InA_Qeq in Hin.
  apply get_unique_times_InA in Hin.
  destruct Hin as [[[w [Hw Heq]]|[w [Hw Heq]]]|[b [_ [y [_ [Heq [H1 H2]]]]]]].
  - subst window_start. split; [simpl; rewrite Heq; apply Qle_refl|].
    destruct window_end; simpl in *; try tauto. rewrite <- Heq. exact Hwin.
  - subst window_end. split; [|simpl; rewrite Heq; apply Qle_refl].
    destruct window_start; simpl in *; try tauto. rewrite <- Heq. exact Hwin.
  - split.
    + destruct window_start; simpl in *; try tauto.
      rewrite <- Heq. apply Qlt_le_weak. exact H1.
    + destruct window_end; simpl in *; try tauto.
      rewrite <- Heq. apply Qlt_le_weak. exact H2.
Qed.

Lemma Tle_Tltb_false (a b : Instant) : Tle a b -> Tltb b a = false.
Proof.
  intro H. rewrite Tltb_negb_Tleb. apply Tleb_iff in H. rewrite H. reflexivity.
Qed.

Lemma add_time_point_outside (window_start window_end t : Instant)
    (unique_times : list Q) :
  Tle t window_start \/ Tle window_end t ->
  add_time_point window_start window_end t unique_times = unique_times.
Proof.
  intro H. unfold add_time_point. destruct t as [|x|]; try reflexivity.
  destruct H as [H|H]; apply Tle_Tltb_false in H; rewrite H; [reflexivity|].
  rewrite andb_false_r. reflexivity.
Qed.

Lemma get_unique_times_outside (l1 l2 : list Buff.t) (b : Buff.t)
    (window_start window_end : Instant) :
  outside_window window_start window_end b ->
  get_unique_times (l1 ++ b :: l2) window_start window_end
  = get_unique_times (l1 ++ l2) window_start window_end.
Proof.
  intro H. unfold get_unique_times. rewrite !fold_left_app. cbn [fold_left].
  rewrite (add_time_point_outside window_start window_end (Buff.start b)),
    (add_time_point_outside window_start window_end (Buff.end_ b));
    [reflexivity| |]; destruct H as [[H1 H2]|[H1 H2]]; auto.
Qed.

(** Every sub-interval of the quadratic sweep is proper and has its bounds
    among the first time point and the time points. *)
Lemma n2_windows_bounds (time_points : list Q) :
  forall t_0,
    Forall (fun w => fst w < snd w
                     /\ (fst w = t_0 \/ In (fst w) time_points)
                     /\ In (snd w) time_points)
      (n2_windows t_0 time_points).
Proof.
  induction time_points as [|t_1 pts IH]; intro t_0; cbn [n2_windows];
    [constructor|].
  destruct (Qle_bool t_1 t_0) eqn:E.
  - eapply Forall_impl; [|apply IH].
    intros w [H1 [[H2|H2] H3]]; (split; [exact H1|split]);
      solve [left; assumption | right; right; assumption | right; assumption].
  - constructor.
    + cbn [fst snd]. split; [|split; [left; reflexivity|left; reflexivity]].
      apply Qlt_bool_iff. unfold Qlt_bool. rewrite E. reflexivity.
    + eapply Forall_impl; [|apply (IH t_1)].
      intros w [H1 [[H2|H2] H3]]; (split; [exact H1|split]);
        solve [ right; left; symmetry; assumption
              | right; right; assumption
              | right; assumption ].
Qed.

(** On a window with [start <= end] the sub-intervals of the quadratic
    sweep lie inside the window. *)
Lemma n2_windows_inside (buffs : list Buff.t)
    (window_start window_end : Instant) (t_0 : Q) (rest : list Q) :
  Tle window_start window_end ->
  np_sort (get_unique_times buffs window_start window_end) = t_0 :: rest ->
  Forall (fun w => Tle window_start (Fin (fst w))
                   /\ fst w < snd w
                   /\ Tle (Fin (snd w)) window_end)
    (n2_windows t_0 (t_0 :: rest)).
Proof.
  intros Hwin E.
  assert (Hpts : forall x, In x (t_0 :: rest) ->
                           Tle window_start (Fin x) /\ Tle (Fin x) window_end).
  { intros x Hx. apply (time_point_within buffs _ _ x Hwin).
    apply (Permutation_in x (np_sort_perm _)). rewrite E. exact Hx. }
  eapply Forall_impl; [|apply n2_windows_bounds].
  intros w [H1 [H2 H3]]. split; [|split; [exact H1|]].
  - destruct H2 as [H2|H2]; [rewrite H2; apply Hpts; left; reflexivity|].
    apply Hpts. exact H2.
  - apply Hpts. exact H3.
Qed.

Lemma outside_inactive (window_start window_end : Instant) (b : Buff.t)
    (t_0 t_1 : Q) :
  outside_window window_start window_end b ->
  Tle window_start (Fin t_0) -> t_0 < t_1 -> Tle (Fin t_1) window_end ->
  active_at t_0 b = false.
Proof.
  intros [[H1 H2]|[H1 H2]] Hs Hlt He; unfold active_at, Tgeb.
  - assert (H : Tle (Buff.end_ b) (Fin t_0)) by (eapply Tle_trans; eauto).
    rewrite (Tle_Tltb_false _ _ H). apply andb_false_r.
  - assert (H : Tlt (Fin t_0) (Buff.start b)).
    { apply (Tlt_le_trans _ (Fin t_1)); [exact Hlt|].
      eapply Tle_trans; eauto. }
    apply Tleb_false_iff in H. rewrite H. reflexivity.
Qed.

Lemma n2_sweep_inactive (attack defense : Q) (normalize : bool)
    (l1 l2 : list Buff.t) (b : Buff.t) (damage_tags : list DamageTag.t) :
  forall (buff_windows : list (Q * Q)) (results : list Q),
    Forall (fun w => active_at (fst w) b = false) buff_windows ->
    n2_sweep attack defense normalize (l1 ++ b :: l2) damage_tags
      buff_windows results
    = n2_sweep attack defense normalize (l1 ++ l2) damage_tags
        buff_windows results.
Proof.
  induction buff_windows as [|[t_0 t_1] rest IH]; intros results H;
    [reflexivity|].
  inversion H as [|? ? Hb Hrest]; subst. cbn [fst] in Hb.
  cbn [n2_sweep]. rewrite !filter_app. cbn [filter]. rewrite Hb.
  destruct (eval_tags attack defense normalize _ t_0 t_1 damage_tags results)
    as [st|e]; cbn [bind]; [apply IH; exact Hrest|reflexivity].
Qed.

(** X22.  On a window with [start <= end], a buff that has ended by
    [window_start], or that starts at [window_end] or later, has no effect
    on the quadratic sweep: the sweep over the buffs with it returns, or
    raises, what the sweep over the buffs without it does. *)
Theorem n2_ignores_outside_buffs (damage_tags : list DamageTag.t)
    (attack defense : Q) (l1 l2 : list Buff.t) (b : Buff.t)
    (window_start window_end : Instant) (accumulate normalize : bool) :
  Tle window_start window_end ->
  outside_window window_start window_end b ->
  compute_dps_window_n2 damage_tags attack defense (l1 ++ b :: l2)
    window_start window_end accumulate normalize
  = compute_dps_window_n2 damage_tags attack defense (l1 ++ l2)
      window_start window_end accumulate normalize.
Proof.
  intros Hwin Hout. unfold compute_dps_window_n2.
  rewrite (get_unique_times_outside l1 l2 b _ _ Hout).
  destruct (np_sort (get_unique_times (l1 ++ l2) window_start window_end))
    as [|t_0 rest] eqn:E; [reflexivity|].
  rewrite n2_sweep_inactive; [reflexivity|].
  eapply Forall_impl; [|apply (n2_windows_inside _ _ _ _ _ Hwin E)].
  intros w [H1 [H2 H3]].
  apply (outside_inactive _ _ b _ _ Hout H1 H2 H3).
Qed.

(** X22, at a buff over [20, 30) beside one over [0, 10), window [0, 15]. *)
Lemma n2_ignores_outside_buffs_witness :
  (Tle (Fin 0) (Fin 15)
   /\ outside_window (Fin 0) (Fin 15) (attack_buff (Fin 20) (Fin 30) 5))
  /\ compute_dps_window_n2 [sustained_tag 0 10] 100000 10000
       ([attack_buff (Fin 0) (Fin 10) 20]
        ++ attack_buff (Fin 20) (Fin 30) 5 :: [])
       (Fin 0) (Fin 15) true true
     = compute_dps_window_n2 [sustained_tag 0 10] 100000 10000
         ([attack_buff (Fin 0) (Fin 10) 20] ++ [])
         (Fin 0) (Fin 15) true true.
Proof.
  assert (H1 : Tle (Fin 0) (Fin 15)) by (vm_compute; discriminate).
  assert (H2 : outside_window (Fin 0) (Fin 15)
                 (attack_buff (Fin 20) (Fin 30) 5)).
  { right. split; vm_compute; discriminate. }
  split; [split; assumption|].
  exact (n2_ignores_outside_buffs _ 100000 10000 _ [] _ _ _ true true H1 H2).
Defined.

Lemma eval_tags_nth (attack defense : Q) (normalize : bool)
    (cache : ModifierCache.t) (t_0 t_1 : Q) :
  forall (damage_tags : list DamageTag.t) (results rs : list Q)
         (cache' : ModifierCache.t),
    List.length results = List.length damage_tags ->
    eval_tags attack defense normalize cache t_0 t_1 damage_tags results
    = Ok (rs, cache') ->
    List.length rs = List.length damage_tags
    /\ forall i dmg_tag r0,
         nth_error damage_tags i = Some dmg_tag ->
         nth_error results i = Some r0 ->
         exists r,
           nth_error rs i = Some r
           /\ eval_tag attack defense normalize cache t_0 t_1 dmg_tag r0
              = Ok (r, cache).
Proof.
  induction damage_tags as [|tag tags IH]; intros results rs cache' Hlen H.
  - cbn [eval_tags] in H. inversion H; subst. split; [reflexivity|].
    intros [|i] dmg_tag r0 Hi; discriminate Hi.
  - destruct results as [|r0 results]; [discriminate Hlen|].
    cbn [eval_tags] in H.
    destruct (eval_tag attack defense normalize cache t_0 t_1 tag r0)
      as [[r' c1]|e] eqn:E1; cbn [bind] in H; [|discriminate H].
    pose proof (eval_tag_cache _ _ _ _ _ _ _ _ _ _ E1) as Hc. subst c1.
    destruct (eval_tags attack defense normalize cache t_0 t_1 tags results)
      as [[rs' c2]|e] eqn:E2; cbn [bind] in H; [|discriminate H].
    inversion H; subst.
    injection Hlen as Hlen.
    destruct (IH results rs' cache' Hlen E2) as [Hl Hn].
    split; [cbn [List.length]; rewrite Hl; reflexivity|].
    intros [|i] dmg_tag r1 Hi Hr; cbn [nth_error] in *.
    + inversion Hi; inversion Hr; subst. exists r'. split; [reflexivity|].
      exact E1.
    + apply (Hn i dmg_tag r1 Hi Hr).
Qed.

(** Entry [i] of the results depends on tag [i] alone. *)
Lemma eval_rows_nth (attack defense : Q) (normalize : bool)
    (damage_tags : list DamageTag.t) :
  forall (rows : list (Q * Q * ModifierCache.t)) (results rs : list Q),
    List.length results = List.length damage_tags ->
    eval_rows attack defense normalize damage_tags rows results = Ok rs ->
    forall i dmg_tag r0,
      nth_error damage_tags i = Some dmg_tag ->
      nth_error results i = Some r0 ->
      exists r,
        nth_error rs i = Some r
        /\ eval_rows attack defense normalize [dmg_tag] rows [r0] = Ok [r].
Proof.
  induction rows as [|[[t_0 t_1] cache] rest IH];
    intros results rs Hlen H i dmg_tag r0 Hi Hr.
  - cbn [eval_rows] in *. inversion H; subst. exists r0.
    split; [exact Hr|reflexivity].
  - cbn [eval_rows] in H.
    destruct (eval_tags attack defense normalize cache t_0 t_1 damage_tags
                results) as [[rs1 c1]|e] eqn:E; cbn [bind fst] in H;
      [|discriminate H].
    destruct (eval_tags_nth _ _ _ _ _ _ _ _ _ _ Hlen E) as [Hl Hn].
    destruct (Hn i dmg_tag r0 Hi Hr) as [r1 [Hr1 Et]].
    destruct (IH rs1 rs Hl H i dmg_tag r1 Hi Hr1) as [r [Hrs Hrow]].
    exists r. split; [exact Hrs|].
    cbn [eval_rows eval_tags]. rewrite Et. cbn [bind fst]. exact Hrow.
Qed.

(** X23.  The value that the quadratic sweep returns for a damage tag does
    not depend on the other tags: entry [i] of the per-tag result is what
    the sweep returns for tag [i] alone. *)
Theorem n2_per_tag_independent (damage_tags : list DamageTag.t)
    (attack defense : Q) (buffs : list Buff.t)
    (window_start window_end : Instant) (normalize : bool)
    (results : list Q) (i : nat) (dmg_tag : DamageTag.t) :
  compute_dps_window_n2 damage_tags attack defense buffs
    window_start window_end false normalize = Ok (PerTag results) ->
  nth_error damage_tags i = Some dmg_tag ->
  exists r,
    nth_error results i = Some r
    /\ compute_dps_window_n2 [dmg_tag] attack defense buffs
         window_start window_end false normalize = Ok (PerTag [r]).
Proof.
  unfold compute_dps_window_n2. intros H Hi.
  destruct (np_sort (get_unique_times buffs window_start window_end))
    as [|t_0 rest]; [discriminate H|].
  rewrite n2_sweep_trace in *.
  destruct (eval_rows attack defense normalize damage_tags _
              (repeat 0 (List.length damage_tags))) as [rs|e] eqn:E;
    cbn [bind finish] in H; [|discriminate H].
  inversion H; subst rs.
  assert (Hlt : (i < List.length damage_tags)%nat).
  { apply nth_error_Some. rewrite Hi. discriminate. }
  destruct (eval_rows_nth _ _ _ _ _ _ _ (repeat_length _ _) E i dmg_tag 0 Hi
              (nth_error_repeat 0 Hlt)) as [r [Hr Hrow]].
  exists r. split; [exact Hr|].
  cbn [List.length repeat]. rewrite Hrow. reflexivity.
Qed.

(** X23, at the second of two tags. *)
Lemma n2_per_tag_independent_witness :
  exists results,
    compute_dps_window_n2 [instant_tag 5; sustained_tag 0 10] 100000 10000
      staggered_buffs (Fin 0) (Fin 15) false true = Ok (PerTag results)
    /\ nth_error [instant_tag 5; sustained_tag 0 10] 1
       = Some (sustained_tag 0 10)
    /\ exists r,
         nth_error results 1 = Some r
         /\ compute_dps_window_n2 [sustained_tag 0 10] 100000 10000
              staggered_buffs (Fin 0) (Fin 15) false true = Ok (PerTag [r]).
Proof.
  destruct (compute_dps_window_n2 [instant_tag 5; sustained_tag 0 10]
              100000 10000 staggered_buffs (Fin 0) (Fin 15) false true)
    as [[x|results]|e] eqn:E; try (vm_compute in E; discriminate E).
  exists results. split; [reflexivity|]. split; [reflexivity|].
  exact (n2_per_tag_independent _ _ _ _ _ _ _ results 1 _ E eq_refl).
Defined.




Lemma get_unique_times_ambient (buffs : list Buff.t)
    (window_start window_end : Instant) :
  Forall ambient buffs ->
  get_unique_times buffs window_start window_end
  = get_unique_times [] window_start window_end.
Proof.
  unfold get_unique_times. cbn [fold_left].
  generalize (match window_end with
              | Fin w => match window_start with
                         | Fin w0 => [] ++ [w0]
                         | _ => []
                         end ++ [w]
              | _ => match window_start with
                     | Fin w0 => [] ++ [w0]
                     | _ => []
                     end
              end).
  induction 1 as [|b buffs [Hs He] _ IH]; intros; cbn [fold_left];
    [reflexivity|].
  rewrite Hs, He. cbn [add_time_point]. apply IH.
Qed.

Lemma filter_ambient (buffs : list Buff.t) (t_0 : Q) :
  Forall ambient buffs -> filter (active_at t_0) buffs = buffs.
Proof.
  induction 1 as [|b buffs [Hs He] _ IH]; [reflexivity|].
  assert (Hb : active_at t_0 b = true)
    by (unfold active_at, Tgeb; rewrite Hs, He; reflexivity).
  simpl. rewrite Hb, IH. reflexivity.
Qed.

(** The quadratic sweep of one tag on a finite window under buffs that
    hold from [-inf] to [+inf]: one sub-interval, the whole window. *)
Lemma n2_ambient_one_tag (dmg_tag : DamageTag.t) (attack defense : Q)
    (buffs : list Buff.t) (ws we : Q) (normalize : bool) :
  ws < we ->
  Forall ambient buffs ->
  compute_dps_window_n2 [dmg_tag] attack defense buffs (Fin ws) (Fin we)
    false normalize
  = (st <- eval_tag attack defense normalize (generate_cache buffs) ws we
             dmg_tag 0 ;;
     Ok (PerTag [fst st])).
Proof.
  intros Hlt Hamb. unfold compute_dps_window_n2.
  rewrite (get_unique_times_ambient buffs _ _ Hamb).
  unfold get_unique_times. cbn [fold_left app np_sort fold_right insert_q].
  assert (E1 : Qle_bool ws we = true)
    by (apply Qle_bool_iff, Qlt_le_weak, Hlt).
  assert (E2 : Qle_bool we ws = false).
  { destruct (Qle_bool we ws) eqn:E; [|reflexivity].
    apply Qle_bool_iff in E. exfalso. apply (Qlt_not_le _ _ Hlt E). }
  rewrite E1. cbn [n2_windows]. rewrite Qle_bool_refl, E2.
  cbn [n2_sweep List.length repeat eval_tags].
  rewrite (filter_ambient buffs ws Hamb).
  destruct (eval_tag attack defense normalize (generate_cache buffs) ws we
              dmg_tag 0) as [[r c]|e]; reflexivity.
Qed.

(** X25.  Under buffs that all hold from [-inf] to [+inf], on a finite
    window [[ws, we]] with [ws < we], the quadratic sweep evaluates a tag
    with the aggregate of all the buffs: an instantaneous tag
    ([duration] 0) that the window does not skip is counted once, with its
    average damage; a sustained tag that covers the window yields its
    average damage times [we - ws]. *)
Theorem n2_ambient_buffs (dmg_tag : DamageTag.t) (attack defense : Q)
    (buffs : list Buff.t) (ws we : Q) (normalize : bool) :
  ws < we ->
  Forall ambient buffs ->
  (Teqb (DamageTag.get_duration dmg_tag) (Fin 0) = true ->
   Tlt (DamageTag.start dmg_tag) (Fin we) ->
   Tle (Fin ws) (DamageTag.get_end dmg_tag) ->
   Result_eq Dps_eq
     (compute_dps_window_n2 [dmg_tag] attack defense buffs (Fin ws) (Fin we)
        false normalize)
     (avg <- tag_average attack defense normalize (generate_cache buffs)
               dmg_tag ;;
      Ok (PerTag [avg])))
  /\ (Teqb (DamageTag.get_duration dmg_tag) (Fin 0) = false ->
      Tle (DamageTag.start dmg_tag) (Fin ws) ->
      Tle (Fin we) (DamageTag.get_end dmg_tag) ->
      Result_eq Dps_eq
        (compute_dps_window_n2 [dmg_tag] attack defense buffs (Fin ws) (Fin we)
           false normalize)
        (avg <- tag_average attack defense normalize (generate_cache buffs)
                  dmg_tag ;;
         Ok (PerTag [avg * (we - ws)]))).
Proof.
  intros Hlt Hamb.
  rewrite (n2_ambient_one_tag dmg_tag attack defense buffs ws we normalize
             Hlt Hamb).
  rewrite eval_tag_unfold. unfold tag_skipped, tag_overlap, tag_average, Tgeb.
  split.
  - intros Hd Hs He. rewrite Hd. cbn [negb].
    apply Tleb_false_iff in Hs. rewrite Hs.
    rewrite (Tle_Tltb_false _ _ He). cbn [orb].
    destruct (fst (accumulate_avg_dmg _ _ _ _ _ _ _)) as [avg|e];
      cbn [bind fst Result_eq Dps_eq weighted]; [|reflexivity].
    constructor; [|constructor].
    change (Qlt_bool 0 0) with false. cbn iota. ring.
  - intros Hd Hs He. rewrite Hd. cbn [negb].
    assert (Hs' : Tlt (DamageTag.start dmg_tag) (Fin we)).
    { destruct (DamageTag.start dmg_tag); simpl in *; try tauto.
      eapply Qle_lt_trans; eauto. }
    assert (He' : Tle (Fin ws) (DamageTag.get_end dmg_tag)).
    { destruct (DamageTag.get_end dmg_tag); simpl in *; try tauto.
      apply Qlt_le_weak. eapply Qlt_le_trans; eauto. }
    apply Tleb_false_iff in Hs'. rewrite Hs'.
    rewrite (Tle_Tltb_false _ _ He'). cbn [orb].
    destruct (fst (accumulate_avg_dmg _ _ _ _ _ _ _)) as [avg|e];
      cbn [bind fst Result_eq Dps_eq]; [|reflexivity].
    constructor; [|constructor].
    assert (Hw : exists d, Tsub (Tmin (DamageTag.get_end dmg_tag) (Fin we))
                             (Tmax (DamageTag.start dmg_tag) (Fin ws)) = Fin d
                           /\ d == we - ws).
    { unfold Tmin, Tmax.
      destruct (DamageTag.get_end dmg_tag) as [|e|],
               (DamageTag.start dmg_tag) as [|s|];
        simpl in Hs, He; try contradiction; cbn [Tltb Tsub].
      - destruct (Qlt_bool we e) eqn:E; cbn [Tsub];
          eexists; (split; [reflexivity|]); [reflexivity|].
        apply Qlt_bool_false_iff in E. lra.
      - destruct (Qlt_bool we e) eqn:E1, (Qlt_bool s ws) eqn:E2; cbn [Tsub];
          eexists; (split; [reflexivity|]);
          try apply Qlt_bool_false_iff in E1;
          try apply Qlt_bool_false_iff in E2; lra.
      - eexists. split; [reflexivity|reflexivity].
      - destruct (Qlt_bool s ws) eqn:E2; cbn [Tsub];
          eexists; (split; [reflexivity|]); [reflexivity|].
        apply Qlt_bool_false_iff in E2. lra. }
    destruct Hw as [d [Hw Hd']]. rewrite Hw. cbn [weighted].
    assert (Hpos : Qlt_bool 0 d = true) by (apply Qlt_bool_iff; lra).
    rewrite Hpos. rewrite Hd'. ring.
Qed.

(** X25, at an always-on tag and the window [0, 10]. *)
Lemma n2_ambient_buffs_witness :
  (0 < 10 /\ Forall ambient [infinite_buff])
  /\ Result_eq Dps_eq
       (compute_dps_window_n2
          [DamageTag.mk 100 [("base"%string, 1)] NegInf (Some PosInf) None]
          100000 10000 [infinite_buff] (Fin 0) (Fin 10) false true)
       (avg <- tag_average 100000 10000 true (generate_cache [infinite_buff])
                 (DamageTag.mk 100 [("base"%string, 1)] NegInf (Some PosInf)
                    None) ;;
        Ok (PerTag [avg * (10 - 0)])).
Proof.
  assert (H1 : 0 < 10) by reflexivity.
  assert (H2 : Forall ambient [infinite_buff]).
  { constructor; [split; reflexivity|constructor]. }
  split; [split; assumption|].
  exact (proj2 (n2_ambient_buffs
                  (DamageTag.mk 100 [("base"%string, 1)] NegInf (Some PosInf)
                     None)
                  100000 10000 [infinite_buff] 0 10 true H1 H2)
           eq_refl I I).
Defined.

(* ================================================================== *)
(** * Normal attack DPS and elements *)

(** What the entries of [weapon_table] have in common. *)
Lemma weapon_entry_sane (weapon : string) (w : Weapon) :
  weapon_entry weapon = Ok w ->
  0 < attack_speed w
  /\ 0 <= wind_up_seconds w
  /\ (0 <= wind_up_ammo w)%Z
  /\ inject_Z (wind_up_ammo w) <= wind_up_seconds w * attack_speed w.
Proof.
  unfold weapon_entry, weapon_table. cbn [dict_get].
  repeat (match goal with
          | |- context [String.eqb ?a weapon] => destruct (String.eqb a weapon)
          end;
          [intro H; inversion H; subst w; cbn;
           repeat split; solve [reflexivity | discriminate]|]).
  discriminate.
Qed.

Lemma Qeq_bool_pos (x : Q) : 0 < x -> Qeq_bool x 0 = false.
Proof.
  intro H. destruct (Qeq_bool x 0) eqn:E; [|reflexivity].
  apply Qeq_bool_iff in E. rewrite E in H. discriminate H.
Qed.

Lemma Qle_bool_pos (x : Q) : 0 < x -> Qle_bool x 0 = false.
Proof.
  intro H. destruct (Qle_bool x 0) eqn:E; [|reflexivity].
  apply Qle_bool_iff in E. exfalso. apply (Qlt_not_le _ _ H E).
Qed.

(** The value that [compute_normal_dps] returns for a positive reload time
    and a positive denominator. *)
Lemma compute_normal_dps_value (damage : Q) (ammo : Z) (reload : Q)
    (weapon : string) (w : Weapon) :
  weapon_entry weapon = Ok w ->
  0 < reload ->
  0 < inject_Z (ammo - wind_up_ammo w) / attack_speed w
      + wind_up_seconds w + reload ->
  compute_normal_dps damage ammo reload weapon
  = Ok (damage * inject_Z (ammo - wind_up_ammo w)
        / (inject_Z (ammo - wind_up_ammo w) / attack_speed w
           + wind_up_seconds w + reload)).
Proof.
  intros Hw Hr Hd. unfold compute_normal_dps.
  rewrite (Qle_bool_pos _ Hr), Hw. cbn [bind]. unfold py_div.
  rewrite (Qeq_bool_pos _ Hd). reflexivity.
Qed.





(** X28.  Below the wind-up ammo the formula of [compute_normal_dps] turns
    negative: for a weapon of the table, a positive damage multiplier and
    a positive reload time, an ammo count from 0 up to but not including
    the wind-up ammo (a machine gun with fewer than 43 rounds) gives a DPS
    below 0; with exactly the wind-up ammo it gives 0. *)
Theorem compute_normal_dps_below_wind_up (damage : Q) (ammo : Z) (reload : Q)
    (weapon : string) (w : Weapon) :
  weapon_entry weapon = Ok w ->
  0 < damage ->
  0 < reload ->
  (0 <= ammo <= wind_up_ammo w)%Z ->
  exists r,
    compute_normal_dps damage ammo reload weapon = Ok r
    /\ (ammo = wind_up_ammo w -> r == 0)
    /\ ((ammo < wind_up_ammo w)%Z -> r < 0).
Proof.
  intros Hw Hd Hr [Ha0 Ha].
  destruct (weapon_entry_sane weapon w Hw) as [Hs [Hwus [Hwua Hwind]]].
  assert (Hn : inject_Z (ammo - wind_up_ammo w) <= 0)
    by (change 0 with (inject_Z 0); rewrite <- Zle_Qle; lia).
  assert (Hlow : - inject_Z (wind_up_ammo w) <= inject_Z (ammo - wind_up_ammo w)).
  { rewrite inject_Z_sub.
    assert (0 <= inject_Z ammo)
      by (change 0 with (inject_Z 0); rewrite <- Zle_Qle; exact Ha0).
    lra. }
  set (n := inject_Z (ammo - wind_up_ammo w)) in *.
  assert (Ht : - wind_up_seconds w <= n / attack_speed w).
  { apply Qle_shift_div_l; [exact Hs|]. lra. }
  assert (HD : 0 < n / attack_speed w + wind_up_seconds w + reload) by lra.
  eexists.
  split; [apply (compute_normal_dps_value damage ammo reload weapon w Hw Hr HD)|].
  fold n. split.
  - intro E. assert (E0 : n == 0).
    { unfold n. rewrite E, Z.sub_diag. reflexivity. }
    rewrite E0. unfold Qdiv. ring.
  - intro E. assert (Hneg : n < 0).
    { unfold n. change 0 with (inject_Z 0). rewrite <- Zlt_Qlt. lia. }
    apply Qlt_shift_div_r; [exact HD|]. nra.
Qed.

(** X28, at a machine gun with 20 rounds. *)
Lemma compute_normal_dps_below_wind_up_witness :
  (weapon_entry "MG" = Ok (mkWeapon 59 2 43)
   /\ 0 < 5 /\ 0 < 25 # 10 /\ (0 <= 20 <= 43)%Z /\ (20 < 43)%Z)
  /\ exists r, compute_normal_dps 5 20 (25 # 10) "MG" = Ok r /\ r < 0.
Proof.
  assert (H1 : weapon_entry "MG" = Ok (mkWeapon 59 2 43)) by reflexivity.
  assert (H2 : 0 < 5) by reflexivity.
  assert (H3 : 0 < 25 # 10) by reflexivity.
  assert (H4 : (0 <= 20 <= 43)%Z) by lia.
  assert (H5 : (20 < 43)%Z) by lia.
  split; [repeat split; try assumption; lia|].
  destruct (compute_normal_dps_below_wind_up 5 20 (25 # 10) "MG" _ H1 H2 H3 H4)
    as [r [Hr [_ Hneg]]].
  exists r. split; [exact Hr|exact (Hneg H5)].
Defined.

Lemma is_element_cases (s : string) :
  dict_mem element_table s = true ->
  s = "water"%string \/ s = "fire"%string \/ s = "wind"%string
  \/ s = "iron"%string \/ s = "electric"%string.
Proof.
  unfold dict_mem, element_table. cbn [dict_get].
  repeat match goal with
         | |- context [String.eqb ?a s] =>
             destruct (String.eqb a s) eqn:?E;
             [apply String.eqb_eq in E; subst s; tauto|clear E]
         end.
  discriminate.
Qed.

Lemma compare_element_returns (source target : string) (b : bool) :
  compare_element source target = Returns b ->
  dict_mem element_table source = true /\ dict_mem element_table target = true.
Proof.
  unfold compare_element.
  destruct (dict_mem element_table source); [|discriminate].
  destruct (dict_mem element_table target); [|discriminate].
  split; reflexivity.
Qed.

(** X29.  [compare_element] raises [BadElement] exactly when one of its
    arguments is not a key of the element table, and nothing else; the
    relation it decides is a cycle: no element is strong against itself,
    never two elements against each other, every element is strong
    against exactly one element, and exactly one element is strong against
    it. *)
Theorem compare_element_cycle (source target : string) :
  (compare_element source target = Throws BadElement
   <-> ~ (is_element source /\ is_element target))
  /\ (forall e, compare_element source target = Throws e -> e = BadElement)
  /\ (compare_element source target = Returns true ->
      source <> target /\ compare_element target source = Returns false)
  /\ (is_element source ->
      exists t, forall t',
        compare_element source t' = Returns true <-> t' = t)
  /\ (is_element target ->
      exists s, forall s',
        compare_element s' target = Returns true <-> s' = s).
Proof.
  unfold is_element. split; [|split; [|split; [|split]]].
  - unfold compare_element.
    destruct (dict_mem element_table source) eqn:Es; cbn [negb].
    + destruct (dict_mem element_table target) eqn:Et; cbn [negb].
      * unfold dict_mem in Es.
        destruct (dict_get element_table source); [|discriminate Es].
        split; [discriminate|]. intro H. exfalso. apply H. split; reflexivity.
      * split; [|reflexivity]. intros _ [_ H]. discriminate H.
    + split; [|reflexivity]. intros _ [H _]. discriminate H.
  - intro e. unfold compare_element.
    destruct (dict_mem element_table source) eqn:Es; cbn [negb];
      [|intro H; inversion H; reflexivity].
    destruct (dict_mem element_table target); cbn [negb];
      [|intro H; inversion H; reflexivity].
    unfold dict_mem in Es.
    destruct (dict_get element_table source); [|discriminate Es].
    discriminate.
  - intro H. destruct (compare_element_returns _ _ _ H) as [Hs Ht].
    apply is_element_cases in Hs. apply is_element_cases in Ht.
    destruct Hs as [Hs|[Hs|[Hs|[Hs|Hs]]]], Ht as [Ht|[Ht|[Ht|[Ht|Ht]]]];
      subst source target; vm_compute in H; try discriminate H;
      (split; [discriminate|reflexivity]).
  - intro Hs. unfold dict_mem in Hs.
    destruct (dict_get element_table source) as [t|] eqn:Eg;
      [clear Hs|discriminate Hs].
    exists t. intro t'. split.
    + intro H. destruct (compare_element_returns _ _ _ H) as [Hs Ht].
      unfold compare_element in H. rewrite Hs, Ht, Eg in H. cbn [negb] in H.
      inversion H as [E]. apply String.eqb_eq in E. symmetry. exact E.
    + intro E. subst t'.
      assert (Hs : dict_mem element_table source = true)
        by (unfold dict_mem; rewrite Eg; reflexivity).
      destruct (is_element_cases source Hs) as [H|[H|[H|[H|H]]]];
        subst source; vm_compute in Eg; inversion Eg; subst t; reflexivity.
  - intro Ht.
    assert (Hex : exists s, compare_element s target = Returns true).
    { destruct (is_element_cases target Ht) as [H|[H|[H|[H|H]]]];
        subst target;
        [exists "electric"%string|exists "water"%string|exists "fire"%string
        |exists "wind"%string|exists "iron"%string]; reflexivity. }
    destruct Hex as [s Hs]. exists s. intro s'. split; [|intro E; subst s'; exact Hs].
    intro H.
    destruct (compare_element_returns _ _ _ H) as [H1 _].
    destruct (compare_element_returns _ _ _ Hs) as [H2 _].
    apply is_element_cases in H1. apply is_element_cases in H2.
    apply is_element_cases in Ht.
    destruct Ht as [Ht|[Ht|[Ht|[Ht|Ht]]]]; subst target;
      destruct H1 as [H1|[H1|[H1|[H1|H1]]]]; subst s';
      vm_compute in H; try discriminate H;
      destruct H2 as [H2|[H2|[H2|[H2|H2]]]]; subst s;
      vm_compute in Hs; try discriminate Hs; reflexivity.
Qed.

(** X29, at water against fire. *)
Lemma compare_element_cycle_witness :
  compare_element "water" "fire" = Returns true
  /\ "water"%string <> "fire"%string
  /\ compare_element "fire" "water" = Returns false.
Proof.
  assert (H : compare_element "water" "fire" = Returns true) by reflexivity.
  split; [exact H|].
  exact (proj1 (proj2 (proj2 (compare_element_cycle "water" "fire"))) H).
Defined.

(* ================================================================== *)
(** * The aggregate in double precision *)

Lemma if_in_r_pure {A S : Type} (key : option A) (body : A -> S -> Result S)
    (body' : A -> S -> S) (self : S) :
  (forall v c, body v c = Ok (body' v c)) ->
  Double.if_in_r key body self = Ok (if_in key body' self).
Proof. intro H. destruct key; simpl; auto. Qed.

(** Once [stacks] has a double, [add_buff] and [remove_buff] run through. *)
Lemma add_buff_converted (a : Double.ModifierCache.t) (b : Buff.t) (s : float) :
  Double.int_to_float (Buff.get_stacks b) = Ok s ->
  Double.ModifierCache.add_buff a b = Ok (Double.updated PrimFloat.add Z.add s a b).
Proof.
  intro E. unfold Double.ModifierCache.add_buff, Double.updated. cbv zeta.
  repeat (erewrite if_in_r_pure
            by (intros; unfold Double.times; rewrite E; reflexivity);
          cbn [bind]).
  reflexivity.
Qed.


Ltac no_keys H :=
  destruct H as (H1 & H2 & H3 & H4 & H5 & H6 & H7 & H8 & H9 & H10 & H11 & H12
                 & H13);
  rewrite H1, H2, H3, H4, H5, H6, H7, H8, H9, H10, H11, H12, H13.

Lemma add_buff_accepted (a : Double.ModifierCache.t) (b : Buff.t) :
  Double.accepted b ->
  Double.ModifierCache.add_buff a b
  = Ok (Double.updated PrimFloat.add Z.add (Double.stacks_float b) a b).
Proof.
  unfold Double.stacks_float. intros [[s E]|H].
  - rewrite E. apply add_buff_converted. exact E.
  - unfold Double.ModifierCache.add_buff, Double.updated. cbv zeta.
    no_keys H. reflexivity.
Qed.


Ltac raised_key k H :=
  destruct k;
  [ unfold Double.if_in_r at 1 in H; unfold Double.times at 1 in H;
    match type of H with
    | context [Double.int_to_float ?n] =>
        match goal with E : Double.int_to_float n = Raise _ |- _ =>
          rewrite E in H end
    end;
    cbn [bind] in H; discriminate H
  | unfold Double.if_in_r at 1 in H; cbn [bind] in H ].

(** [add_buff] returns on the Double.accepted buffs only, and so does
    [remove_buff]. *)
Lemma add_buff_returns (a a' : Double.ModifierCache.t) (b : Buff.t) :
  Double.ModifierCache.add_buff a b = Ok a' -> Double.accepted b.
Proof.
  intro H. destruct (Double.int_to_float (Buff.get_stacks b)) as [s|e] eqn:E;
    [left; exists s; exact E|right].
  unfold Double.ModifierCache.add_buff in H. cbv zeta in H.
  unfold Double.numeric_free.
  raised_key (Buff.attack b) H. raised_key (Buff.charge_dmg b) H.
  raised_key (Buff.full_charge_dmg b) H. raised_key (Buff.damage_taken b) H.
  raised_key (Buff.element_dmg b) H. raised_key (Buff.damage_up b) H.
  raised_key (Buff.defense b) H. raised_key (Buff.flat_atk b) H.
  raised_key (Buff.crit_rate b) H. raised_key (Buff.crit_dmg b) H.
  raised_key (Buff.core_dmg b) H. raised_key (Buff.range_dmg b) H.
  raised_key (Buff.full_burst_dmg b) H.
  repeat split; reflexivity.
Qed.

Lemma remove_buff_returns (a a' : Double.ModifierCache.t) (b : Buff.t) :
  Double.ModifierCache.remove_buff a b = Ok a' -> Double.accepted b.
Proof.
  intro H. destruct (Double.int_to_float (Buff.get_stacks b)) as [s|e] eqn:E;
    [left; exists s; exact E|right].
  unfold Double.ModifierCache.remove_buff in H. cbv zeta in H.
  unfold Double.numeric_free.
  raised_key (Buff.attack b) H. raised_key (Buff.charge_dmg b) H.
  raised_key (Buff.full_charge_dmg b) H. raised_key (Buff.damage_taken b) H.
  raised_key (Buff.element_dmg b) H. raised_key (Buff.damage_up b) H.
  raised_key (Buff.defense b) H. raised_key (Buff.flat_atk b) H.
  raised_key (Buff.crit_rate b) H. raised_key (Buff.crit_dmg b) H.
  raised_key (Buff.core_dmg b) H. raised_key (Buff.range_dmg b) H.
  raised_key (Buff.full_burst_dmg b) H.
  repeat split; reflexivity.
Qed.

(** The flag values of a buff, as [add_buff] counts them. *)
Lemma updated_counters (fop : float -> float -> float) (zop : Z -> Z -> Z)
    (s : float) (a : Double.ModifierCache.t) (b : Buff.t) :
  Double.counters (Double.updated fop zop s a b)
  = (match Buff.core_hit b with
     | Some v => zop (Double.ModifierCache.core_hit a) (flag_amount v)
     | None => Double.ModifierCache.core_hit a
     end,
     match Buff.range_bonus b with
     | Some v => zop (Double.ModifierCache.range_bonus a) (flag_amount v)
     | None => Double.ModifierCache.range_bonus a
     end,
     match Buff.full_burst b with
     | Some v => zop (Double.ModifierCache.full_burst a) (flag_amount v)
     | None => Double.ModifierCache.full_burst a
     end,
     match Buff.element_bonus b with
     | Some v => zop (Double.ModifierCache.element_bonus a) (flag_amount v)
     | None => Double.ModifierCache.element_bonus a
     end).
Proof.
  unfold Double.counters, Double.updated. cbv zeta.
  repeat f_equal.
  - peel Double.ModifierCache.core_hit. split_keys; reflexivity.
  - peel Double.ModifierCache.range_bonus. split_keys; reflexivity.
  - peel Double.ModifierCache.full_burst. split_keys; reflexivity.
  - peel Double.ModifierCache.element_bonus. split_keys; reflexivity.
Qed.



















(* ------------------------------------------------------------------ *)
(** ** The running aggregate of the linearithmic sweep *)















(* ------------------------------------------------------------------ *)
(** ** The blend in double precision *)











(* ------------------------------------------------------------------ *)
(** ** The order of the buffs, in double precision *)

Ltac each_counter :=
  repeat match goal with |- (_, _) = (_, _) => apply f_equal2 end.

Lemma updated_add_counters (s : float) (a : Double.ModifierCache.t)
    (b : Buff.t) :
  Double.counters (Double.updated PrimFloat.add Z.add s a b)
  = counters_plus (Double.counters a) (spec_counters [b]).
Proof.
  rewrite updated_counters.
  unfold Double.counters, spec_counters, counters_plus, Zsum, spec_count,
    flag_amount.
  cbn [map fold_right].
  destruct (Buff.core_hit b) as [[z1|[|]|]|],
           (Buff.range_bonus b) as [[z2|[|]|]|],
           (Buff.full_burst b) as [[z3|[|]|]|],
           (Buff.element_bonus b) as [[z4|[|]|]|];
    each_counter; lia.
Qed.

Lemma spec_counters_cons (b : Buff.t) (l : list Buff.t) :
  spec_counters (b :: l) = counters_plus (spec_counters [b]) (spec_counters l).
Proof.
  unfold spec_counters, counters_plus, Zsum. cbn [map fold_right].
  each_counter; lia.
Qed.

Lemma counters_plus_assoc (a b c : Z * Z * Z * Z) :
  counters_plus (counters_plus a b) c = counters_plus a (counters_plus b c).
Proof.
  destruct a as [[[a1 a2] a3] a4], b as [[[b1 b2] b3] b4],
           c as [[[c1 c2] c3] c4].
  unfold counters_plus. each_counter; lia.
Qed.

Lemma counters_plus_nil (a : Z * Z * Z * Z) :
  counters_plus a (spec_counters []) = a.
Proof.
  destruct a as [[[a1 a2] a3] a4]. unfold counters_plus, spec_counters, Zsum.
  cbn [map fold_right]. each_counter; lia.
Qed.

(** [add_buffs] returns on lists of accepted buffs, and only on them; the
    counters it returns are the counters it started from plus what the
    list amounts to. *)
Lemma add_buffs_counters :
  forall (l : list Buff.t) (c c1 : Double.ModifierCache.t),
    Double.ModifierCache.add_buffs c l = Ok c1 ->
    Forall Double.accepted l
    /\ Double.counters c1
       = counters_plus (Double.counters c) (spec_counters l).
Proof.
  induction l as [|b l IH]; intros c c1 H; cbn [Double.ModifierCache.add_buffs] in H.
  - inversion H; subst. split; [constructor|].
    symmetry. apply counters_plus_nil.
  - destruct (Double.ModifierCache.add_buff c b) as [c'|e] eqn:E;
      cbn [bind] in H; [|discriminate H].
    pose proof (add_buff_returns c c' b E) as Hacc.
    rewrite (add_buff_accepted c b Hacc) in E. inversion E; subst c'.
    destruct (IH _ _ H) as [Hall Hc]. split; [constructor; assumption|].
    rewrite Hc, updated_add_counters, counters_plus_assoc,
      <- spec_counters_cons. reflexivity.
Qed.

Lemma add_buffs_accepted :
  forall (l : list Buff.t) (c : Double.ModifierCache.t),
    Forall Double.accepted l ->
    exists c1, Double.ModifierCache.add_buffs c l = Ok c1.
Proof.
  induction l as [|b l IH]; intros c H; cbn [Double.ModifierCache.add_buffs].
  - eexists. reflexivity.
  - inversion H as [|? ? Hb Hl]; subst.
    rewrite (add_buff_accepted c b Hb). cbn [bind]. apply IH. exact Hl.
Qed.

Lemma Zsum_perm (l l' : list Z) : Permutation l l' -> Zsum l = Zsum l'.
Proof.
  unfold Zsum.
  induction 1 as [|x l l' _ IH|x y l|l l' l'' _ IH1 _ IH2];
    cbn [fold_right]; lia.
Qed.

Lemma spec_counters_perm (l l' : list Buff.t) :
  Permutation l l' -> spec_counters l = spec_counters l'.
Proof.
  intro H. unfold spec_counters.
  each_counter; apply Zsum_perm, Permutation_map, H.
Qed.

(** X1.  In double precision the override counters of the aggregate do
    not depend on the order of the buff list, and the float attributes do:
    [add_buffs] over a reordered list returns whenever it returns over the
    list, with the same four counters; but the crit rates 26.1, 4.21 and
    31.9 added to the baseline 15 give 77.21000000000001 in this order and
    77.21 with the last two swapped. *)
Theorem add_buffs_order :
  (forall (c c1 : Double.ModifierCache.t) (l l' : list Buff.t),
     Permutation l l' ->
     Double.ModifierCache.add_buffs c l = Ok c1 ->
     exists c2,
       Double.ModifierCache.add_buffs c l' = Ok c2
       /\ Double.counters c2 = Double.counters c1)
  /\ Permutation crit_rates_in_order crit_rates_swapped
  /\ exists c1 c2,
       Double.generate_cache crit_rates_in_order = Ok c1
       /\ Double.generate_cache crit_rates_swapped = Ok c2
       /\ Double.ModifierCache.crit_rate c1 = 0x1.34d70a3d70a3ep+6%float
       /\ Double.ModifierCache.crit_rate c2 = 0x1.34d70a3d70a3dp+6%float
       /\ PrimFloat.eqb (Double.ModifierCache.crit_rate c1)
            (Double.ModifierCache.crit_rate c2) = false.
Proof.
  split; [|split].
  - intros c c1 l l' Hperm H.
    destruct (add_buffs_counters l c c1 H) as [Hall Hc].
    destruct (add_buffs_accepted l' c (Permutation_Forall Hperm Hall))
      as [c2 H2].
    exists c2. split; [exact H2|].
    destruct (add_buffs_counters l' c c2 H2) as [_ Hc2].
    rewrite Hc, Hc2, (spec_counters_perm l l' Hperm). reflexivity.
  - unfold crit_rates_in_order, crit_rates_swapped.
    apply perm_skip, perm_swap.
  - eexists. eexists.
    split; [vm_compute; reflexivity|]. split; [vm_compute; reflexivity|].
    repeat split; vm_compute; reflexivity.
Qed.
